(** * rin/router: hash-fragment router

    A shallow embedding of the router module (the [Route] class, the route
    table and the location reconciler [realLocation]) together with the
    properties of its specification.

    Conventions of the embedding.
    - JavaScript strings are [string]s; a character is a code unit below 256.
    - A JavaScript object used as a dictionary ([routes], the event
      arguments) is a finite map [gmap string _] of its own properties. Both
      objects are plain, so that a read also sees the members inherited from
      [Object.prototype]: [hasRoute] is the read of [routes], and [argsLoop]
      the write to the event arguments, where [__proto__] is not a property.
    - A thrown exception is a result [Err _], and the state in which it was
      thrown is not kept; loops that the source leaves unbounded carry fuel,
      and running out of fuel is [Err OutOfFuel].
    - Calls made to the platform ([location.hash = _], [location.replace])
      and to registered handlers are appended to a trace. *)

From Stdlib Require Import ZArith Lia Ascii String List Bool.
From stdpp Require Import base option list gmap strings sorting.

Local Open Scope Z_scope.
Local Open Scope nat_scope.

(* ===================================================================== *)
(** * Results of fallible code *)
(* ===================================================================== *)

Inductive error :=
  | TypeError             (* a member of [undefined] was read or called, or
                             a value that is no function was called *)
  | SyntaxError           (* [new RegExp] refused the pattern text *)
  | RegExpOutsideFragment (* pattern text outside the modelled RegExp syntax *)
  | OutOfFuel.            (* the fuel given to an unbounded loop ran out *)

Inductive result (A : Type) :=
  | Ok (a : A)
  | Err (e : error).
Arguments Ok {A} a.
Arguments Err {A} e.

Global Instance result_ret : MRet result := fun A a => Ok a.
Global Instance result_bind : MBind result := fun A B f m =>
  match m with Ok a => f a | Err e => Err e end.
Global Instance result_fmap : FMap result := fun A B f m =>
  match m with Ok a => Ok (f a) | Err e => Err e end.

Definition is_Ok {A} (m : result A) : Prop := exists a, m = Ok a.

(* ===================================================================== *)
(** * String primitives of the platform *)
(* ===================================================================== *)

Module JS.

(** [s.substr(start)] for [start >= 0]. *)
Fixpoint substr_from (s : string) (start : nat) : string :=
  match start, s with
  | 0, _ => s
  | S n, String _ r => substr_from r n
  | S _, EmptyString => EmptyString
  end.

Fixpoint take (n : nat) (s : string) : string :=
  match n, s with
  | S m, String c r => String c (take m r)
  | _, _ => EmptyString
  end.

(** [s.substr(start, len)] for [start >= 0]; a negative [len] gives [""]. *)
Definition substr (s : string) (start : nat) (len : Z) : string :=
  take (Z.to_nat len) (substr_from s start).

(** [s.startsWith(pre)]. *)
Fixpoint startsWith (pre s : string) : bool :=
  match pre, s with
  | EmptyString, _ => true
  | String a pre', String b s' => if Ascii.eqb a b then startsWith pre' s' else false
  | String _ _, EmptyString => false
  end.

(** First position of [search] in [s]. *)
Fixpoint find (search s : string) : option nat :=
  if startsWith search s then Some 0
  else match s with
       | EmptyString => None
       | String _ r => S <$> find search r
       end.

(** [s.indexOf(search, from)] for [from >= 0]; [None] is [-1]. *)
Definition indexOf (search s : string) (from : nat) : option nat :=
  let from' := Nat.min from (String.length s) in
  (fun k => from' + k) <$> find search (substr_from s from').

(** [s.lastIndexOf(search)]; [None] is [-1]. *)
Fixpoint lastIndexOf (search s : string) : option nat :=
  match s with
  | EmptyString => if startsWith search s then Some 0 else None
  | String _ r =>
      match lastIndexOf search r with
      | Some k => Some (S k)
      | None => if startsWith search s then Some 0 else None
      end
  end.

(** White space and line terminators below code unit 256. *)
Definition isWhiteSpace (c : ascii) : bool :=
  match c with
  | "009" | "010" | "011" | "012" | "013" | " " | "160" => true
  | _ => false
  end%char.

Fixpoint trimStart (s : string) : string :=
  match s with
  | EmptyString => EmptyString
  | String c r => if isWhiteSpace c then trimStart r else s
  end.

Fixpoint trimEnd (s : string) : string :=
  match s with
  | EmptyString => EmptyString
  | String c r =>
      match trimEnd r with
      | EmptyString => if isWhiteSpace c then EmptyString else String c EmptyString
      | r' => String c r'
      end
  end.

(** [s.trim()]. *)
Definition trim (s : string) : string := trimEnd (trimStart s).

(** [s.split(sep)] for a one-character separator. *)
Fixpoint split (sep : ascii) (s : string) : list string :=
  match s with
  | EmptyString => [EmptyString]
  | String c r =>
      if Ascii.eqb c sep then EmptyString :: split sep r
      else match split sep r with
           | h :: t => String c h :: t
           | [] => [String c EmptyString]
           end
  end.

(** [s.replace(pat, rep)] with a string pattern: the first occurrence only.
    [rep] is taken literally (it holds no [$]). *)
Definition replace (s pat rep : string) : string :=
  match find pat s with
  | None => s
  | Some k => take k s +:+ rep +:+ substr_from s (k + String.length pat)
  end.

(** [s.replace(/##/g, "")]. *)
Fixpoint stripMarkers (s : string) : string :=
  match s with
  | String "#" (String "#" r) => stripMarkers r
  | String c r => String c (stripMarkers r)
  | EmptyString => EmptyString
  end.

(** Truthiness of an optional string argument: [undefined] and [""] are falsy. *)
Definition truthy (o : option string) : bool :=
  match o with
  | Some (String _ _) => true
  | _ => false
  end.

End JS.

(* ===================================================================== *)
(** * Location reconciliation: [realLocation] *)
(* ===================================================================== *)

(** The local variables of [realLocation]; [k] is a temporary of one
    iteration. *)
Record rl_vars := RlVars {
  rl_state : Z;
  rl_i : nat;
  rl_j : nat;
  rl_rLocation : string;
}.

Definition star : string := "*".

(** One turn of the [switch] inside the loop. *)
Definition rl_step (cLocation pLocation : string) (v : rl_vars) : rl_vars :=
  let '(RlVars state i j rLocation) := v in
  match state with
  | 0%Z =>
      (* cLocation.substr(i++, 1) == "*" *)
      let i' := S i in
      if String.eqb (JS.substr cLocation i 1) star then
        RlVars 1 i' j rLocation
      else
        (* cLocation.substr(i-1, 1) != pLocation.substr(j++, 1) *)
        let j' := S j in
        if negb (String.eqb (JS.substr cLocation (i' - 1) 1) (JS.substr pLocation j 1)) then
          RlVars (-1) i' j' (rLocation +:+ JS.substr_from cLocation (i' - 1))
        else
          RlVars 0 i' j' (rLocation +:+ JS.substr pLocation (j' - 1) 1)
  | 1%Z =>
      if String.eqb (JS.substr cLocation i 1) star then
        RlVars 3 (S i) j rLocation
      else
        RlVars 2 i j rLocation
  | 2%Z =>
      match JS.indexOf (JS.substr cLocation i 1) pLocation j with
      | None =>
          RlVars (-1) i j
            (rLocation +:+ (JS.substr_from pLocation j +:+ JS.substr_from cLocation i))
      | Some k =>
          RlVars 0 i k (rLocation +:+ JS.substr pLocation j (Z.of_nat k - Z.of_nat j))
      end
  | 3%Z =>
      match JS.lastIndexOf (JS.substr cLocation i 1) pLocation with
      | None =>
          RlVars (-1) i j (rLocation +:+ JS.substr_from cLocation i)
      | Some k =>
          RlVars 0 i k (rLocation +:+ JS.substr pLocation j (Z.of_nat k - Z.of_nat j))
      end
  | _ => v
  end.

(** The loop condition
    [state != -1 && i < cLocation.length && j < pLocation.length]. *)
Definition rl_continue (cLocation pLocation : string) (v : rl_vars) : bool :=
  negb (rl_state v =? -1)%Z
  && (rl_i v <? String.length cLocation)
  && (rl_j v <? String.length pLocation).

Fixpoint rl_loop (fuel : nat) (cLocation pLocation : string) (v : rl_vars)
  : result rl_vars :=
  match fuel with
  | 0 => Err OutOfFuel
  | S fuel' =>
      if rl_continue cLocation pLocation v
      then rl_loop fuel' cLocation pLocation (rl_step cLocation pLocation v)
      else Ok v
  end.

(** What follows the loop: the unconsumed template when not halted, then
    [trim]. *)
Definition rl_finish (cLocation : string) (v : rl_vars) : string :=
  JS.trim (if negb (rl_state v =? -1)%Z
           then rl_rLocation v +:+ JS.substr_from cLocation (rl_i v)
           else rl_rLocation v).

(** The context the automaton runs against: the argument when truthy, else
    the router's current location, else a single space. *)
Definition rl_context (this_location : string) (pLocation : option string) : string :=
  let p := if JS.truthy pLocation then default EmptyString pLocation else this_location in
  if JS.truthy (Some p) then p else " ".

Definition rl_fuel (cLocation : string) : nat := 3 * String.length cLocation + 2.

(** [realLocation (cLocation, pLocation)], for a router whose [location] is
    [this_location]. *)
Definition realLocation (this_location cLocation : string) (pLocation : option string)
  : result string :=
  let p := rl_context this_location pLocation in
  v ← rl_loop (rl_fuel cLocation) cLocation p (RlVars 0 0 0 EmptyString);
  Ok (rl_finish cLocation v).

(* ===================================================================== *)
(** * Route patterns and the RegExp fragment *)
(* ===================================================================== *)

(** The class [[!@A-Za-z0-9_-]] of the parameter expression. *)
Definition isNameChar (c : ascii) : bool :=
  let n := nat_of_ascii c in
  (n =? 33) || (n =? 64) || (n =? 95) || (n =? 45)
  || ((65 <=? n) && (n <=? 90)) || ((97 <=? n) && (n <=? 122))
  || ((48 <=? n) && (n <=? 57)).

(** The longest prefix made of name characters. *)
Fixpoint takeName (s : string) : string :=
  match s with
  | String c r => if isNameChar c then String c (takeName r) else EmptyString
  | EmptyString => EmptyString
  end.

(** [/:([!@A-Za-z0-9_-]+)/.exec(route)]: the leftmost colon followed by a
    name character, with the longest name; the pair is [(m[0], m[1])]. *)
Fixpoint execParam (route : string) : option (string * string) :=
  match route with
  | EmptyString => None
  | String c r =>
      match Ascii.eqb c ":", takeName r with
      | true, String _ _ as name => Some (String ":" name, name)
      | _, _ => execParam r
      end
  end.

Definition captureGroup : string := "([^/]+)".

(** The [while (true)] loop of [_compileRoute]. *)
Fixpoint compileLoop (fuel : nat) (route : string) (params : list string)
  : result (string * list string) :=
  match fuel with
  | 0 => Err OutOfFuel
  | S fuel' =>
      match execParam route with
      | None => Ok (route, params)
      | Some (m0, m1) =>
          compileLoop fuel' (JS.replace route m0 captureGroup) (params ++ [m1])
      end
  end.

(** [_compileRoute (route)]: the pair [(params, routeRegex)]. *)
Definition _compileRoute (route : string) : result (list string * string) :=
  '(route', params) ← compileLoop (S (String.length route)) route [];
  Ok (params, "^" +:+ JS.stripMarkers route').

(** The RegExp sources given a meaning here: a leading [^] followed by
    ordinary characters, [.], and groups spelled exactly [([^/]+)]. *)
Inductive atom :=
  | Lit (c : ascii)
  | AnyChar
  | Capture.

Definition isSyntaxChar (c : ascii) : bool :=
  match c with
  | "^" | "$" | "\" | "." | "*" | "+" | "?" | "(" | ")" | "[" | "]" | "{" | "}" | "|" => true
  | _ => false
  end%char.

Fixpoint parseAtoms (fuel : nat) (src : string) : option (list atom) :=
  match fuel with
  | 0 => None
  | S fuel' =>
      match src with
      | EmptyString => Some []
      | String c r =>
          if JS.startsWith captureGroup src
          then cons Capture <$> parseAtoms fuel' (JS.substr_from src (String.length captureGroup))
          else if Ascii.eqb c "." then cons AnyChar <$> parseAtoms fuel' r
          else if isSyntaxChar c then None
          else cons (Lit c) <$> parseAtoms fuel' r
      end
  end.

Definition parseRegExp (src : string) : option (list atom) :=
  match src with
  | String "^" r => parseAtoms (S (String.length r)) r
  | _ => None
  end.

Definition isLineTerminator (c : ascii) : bool :=
  match c with
  | "010" | "013" => true
  | _ => false
  end%char.

(** The longest prefix of [s] free of [/], as a number of characters. *)
Fixpoint segmentLength (s : string) : nat :=
  match s with
  | String c r => if Ascii.eqb c "/" then 0 else S (segmentLength r)
  | EmptyString => 0
  end.

(** Backtracking match of a sequence of atoms at the start of [s]: the
    matched text and the captures, greedy groups tried longest first. *)
Fixpoint matchAtoms (atoms : list atom) (s : string) : option (string * list string) :=
  match atoms with
  | [] => Some (EmptyString, [])
  | Lit c :: rest =>
      match s with
      | String d s' =>
          if Ascii.eqb c d
          then '(m, caps) ← matchAtoms rest s'; Some (String d m, caps)
          else None
      | EmptyString => None
      end
  | AnyChar :: rest =>
      match s with
      | String d s' =>
          if isLineTerminator d then None
          else '(m, caps) ← matchAtoms rest s'; Some (String d m, caps)
      | EmptyString => None
      end
  | Capture :: rest =>
      (fix try (k : nat) : option (string * list string) :=
         match k with
         | 0 => None
         | S k' =>
             match matchAtoms rest (JS.substr_from s k) with
             | Some (m, caps) => Some (JS.take k s +:+ m, JS.take k s :: caps)
             | None => try k'
             end
         end) (segmentLength s)
  end.

(** A pattern text that [new RegExp] is sure to refuse: it opens a group
    that nothing closes (there is a [(], and no [)], no backslash and no
    class that could make the parenthesis a literal). *)
Definition unterminatedGroup (regex : string) : bool :=
  match JS.find "(" regex, JS.find ")" regex, JS.find "\" regex, JS.find "[" regex with
  | Some _, None, None, None => true
  | _, _, _, _ => false
  end.

(** [route.match(regex)] with a string [regex]: [Ok None] is [null], and
    [Ok (Some (m0 :: captures))] the match array. The expression is built by
    [new RegExp (regex)], which throws when the text is malformed. *)
Definition jsMatch (route regex : string) : result (option (list string)) :=
  match parseRegExp regex with
  | None => Err (if unterminatedGroup regex then SyntaxError else RegExpOutsideFragment)
  | Some atoms =>
      Ok ((fun '(m, caps) => m :: caps) <$> matchAtoms atoms route)
  end.

(* ===================================================================== *)
(** * Routes, handlers and the router state *)
(* ===================================================================== *)

(** A handler is known by its identity. *)
Definition handler := nat.

(** The values found in an arguments record. *)
Inductive jsval :=
  | VUndefined
  | VString (s : string)
  | VRoute (key : string).   (* the route object stored under [key] *)

Abbreviation eventArgs := (gmap string jsval).

Record Route := MkRoute {
  routeRegex : string;
  value : string;
  params : list string;
  s_args : option string;               (* [None] is [null] *)
  active : bool;
  changed : bool;
  listeners : gmap string (list handler);
}.

(** Modelled from the spec: the publish/subscribe capability of the
    [EventDispatcher] base class (package [@rsthn/rin]); a channel keeps its
    listeners in registration order and removal is by handler identity. *)
Definition addEventListener (name : string) (h : handler) (r : Route) : Route :=
  MkRoute (routeRegex r) (value r) (params r) (s_args r) (active r) (changed r)
    (<[name := default [] (listeners r !! name) ++ [h]]> (listeners r)).

(** Modelled from the spec: removal of a listener of [EventDispatcher] by
    handler identity. *)
Definition removeEventListener (name : string) (h : handler) (r : Route) : Route :=
  MkRoute (routeRegex r) (value r) (params r) (s_args r) (active r) (changed r)
    (<[name := filter (fun h' => h' ≠ h) (default [] (listeners r !! name))]> (listeners r)).

Definition channel (unrouted : bool) : string :=
  (if unrouted then "un" else "") +:+ "routed".

Definition addHandler (h : handler) (unrouted : bool) : Route → Route :=
  addEventListener (channel unrouted) h.

Definition removeHandler (h : handler) (unrouted : bool) : Route → Route :=
  removeEventListener (channel unrouted) h.

(** [new Route (route)]. *)
Definition newRoute (route : string) : result Route :=
  '(ps, re) ← _compileRoute route;
  Ok (MkRoute re route ps None false false ∅).

(** What the router does to the outside, and the calls of [dispatch], in the
    order they happen. *)
Inductive effect :=
  | Dispatched (key route : string)       (* [routes[key].dispatch (route)] entered *)
  | Invoked (h : handler) (name : string) (args : eventArgs)
  | HashAssigned (hash : string)          (* [global.location.hash = hash] *)
  | LocationReplaced (url : string).      (* [global.location.replace (url)] *)

(** The fields of the router object, and the trace of what it did so far. *)
Record Router := MkRouter {
  routes : gmap string Route;
  sortedRoutes : list string;
  ignoreHashchangeEvent : Z;
  location : string;
  args : list string;
  trace : list effect;
}.

Definition emptyRouter : Router := MkRouter ∅ [] 0 "" [] [].

Definition setRoutes (f : gmap string Route → gmap string Route) (st : Router) : Router :=
  MkRouter (f (routes st)) (sortedRoutes st) (ignoreHashchangeEvent st)
    (location st) (args st) (trace st).

Definition setSortedRoutes (l : list string) (st : Router) : Router :=
  MkRouter (routes st) l (ignoreHashchangeEvent st) (location st) (args st) (trace st).

Definition setIgnore (n : Z) (st : Router) : Router :=
  MkRouter (routes st) (sortedRoutes st) n (location st) (args st) (trace st).

Definition setLocation (loc : string) (a : list string) (st : Router) : Router :=
  MkRouter (routes st) (sortedRoutes st) (ignoreHashchangeEvent st) loc a (trace st).

Definition emit (e : effect) (st : Router) : Router :=
  MkRouter (routes st) (sortedRoutes st) (ignoreHashchangeEvent st)
    (location st) (args st) (trace st ++ [e]).

(** A method call [this.routes[key].m (..)] that updates the route object.
    Where no route is stored the call throws: [undefined] has no members,
    and the members inherited from [Object.prototype] have no such method. *)
Definition onRoute (key : string) (f : Route → Route) (st : Router) : result Router :=
  match routes st !! key with
  | None => Err TypeError
  | Some r => Ok (setRoutes <[key := f r]> st)
  end.

(** A field assignment on the route object stored under [key]. *)
Definition assign (key : string) (f : Route → Route) (st : Router) : Router :=
  setRoutes (alter f key) st.

(* ===================================================================== *)
(** * The route table *)
(* ===================================================================== *)

(** The comparator given to [sort]. *)
Definition compareRoutes (st : Router) (a b : string) : result Z :=
  match routes st !! a, routes st !! b with
  | Some ra, Some rb =>
      Ok (Z.of_nat (String.length (routeRegex ra)) - Z.of_nat (String.length (routeRegex rb)))%Z
  | _, _ => Err TypeError
  end.

(** [Array.prototype.sort] with a comparator is stable: an element moves in
    front of the elements that compare greater and stays behind its equals. *)
Fixpoint sortInsert {A} (cmp : A → A → result Z) (x : A) (sorted : list A)
  : result (list A) :=
  match sorted with
  | [] => Ok [x]
  | y :: rest =>
      c ← cmp y x;
      if (0 <? c)%Z then Ok (x :: y :: rest)
      else rest' ← sortInsert cmp x rest; Ok (y :: rest')
  end.

Fixpoint sortInto {A} (cmp : A → A → result Z) (sorted l : list A) : result (list A) :=
  match l with
  | [] => Ok sorted
  | x :: l' => sorted' ← sortInsert cmp x sorted; sortInto cmp sorted' l'
  end.

Definition jsSort {A} (cmp : A → A → result Z) (l : list A) : result (list A) :=
  sortInto cmp [] l.

Definition sortRoutes (st : Router) : result Router :=
  l ← jsSort (compareRoutes st) (sortedRoutes st);
  Ok (setSortedRoutes l st).

(** The shared start of [addRoute] and of the body of [addRoutes]: create and
    push the route when the key is new. *)
(** The members that every plain object inherits from [Object.prototype].
    Each of them reads as a function, and [__proto__] as the prototype
    object itself: a value that is truthy and that is no route. *)
Definition protoKeys : list string :=
  ["constructor"; "hasOwnProperty"; "isPrototypeOf"; "propertyIsEnumerable";
   "toLocaleString"; "toString"; "valueOf"; "__proto__";
   "__defineGetter__"; "__defineSetter__"; "__lookupGetter__"; "__lookupSetter__"].

Definition inheritedKey (k : string) : bool := existsb (String.eqb k) protoKeys.

(** [!!this.routes[key]]: [routes] is a plain object, so the read finds a
    stored route, or else a member inherited from [Object.prototype]. *)
Definition hasRoute (st : Router) (key : string) : bool :=
  match routes st !! key with
  | Some _ => true
  | None => inheritedKey key
  end.

Definition createRoute (route : string) (st : Router) : result Router :=
  r ← newRoute route;
  Ok (setSortedRoutes (sortedRoutes st ++ [route]) (setRoutes <[route := r]> st)).

Definition addRoute (route : string) (h : handler) (onUnroute : option handler)
    (st : Router) : result Router :=
  st1 ← (if hasRoute st route then Ok st
         else st' ← createRoute route st; sortRoutes st');
  match onUnroute with
  | Some u =>
      st2 ← onRoute route (addHandler h false) st1;
      onRoute route (addHandler u true) st2
  | None => onRoute route (addHandler h false) st1
  end.

Fixpoint addRoutesLoop (l : list (string * handler)) (st : Router) : result Router :=
  match l with
  | [] => Ok st
  | (i, h) :: l' =>
      st1 ← (if hasRoute st i then Ok st else createRoute i st);
      st2 ← onRoute i (addHandler h false) st1;
      addRoutesLoop l' st2
  end.

(** [addRoutes (routes)]; the argument lists the properties of [routes] in
    enumeration order. *)
Definition addRoutes (l : list (string * handler)) (st : Router) : result Router :=
  st' ← addRoutesLoop l st;
  sortRoutes st'.

Definition removeRoute (route : string) (h : handler) (onUnroute : option handler)
    (st : Router) : result Router :=
  if hasRoute st route then
    match onUnroute with
    | Some u =>
        st1 ← onRoute route (removeHandler h false) st;
        onRoute route (removeHandler u true) st1
    | None => onRoute route (removeHandler h false) st
    end
  else Ok st.

Fixpoint removeRoutes (l : list (string * handler)) (st : Router) : result Router :=
  match l with
  | [] => Ok st
  | (i, h) :: l' =>
      if hasRoute st i
      then st1 ← onRoute i (removeHandler h false) st; removeRoutes l' st1
      else removeRoutes l' st
  end.

(** [setRoute (route, silent)]. *)
Definition setRoute (route : string) (silent : bool) (st : Router) : result Router :=
  loc ← realLocation (location st) route None;
  if String.eqb loc (location st) then Ok st
  else
    let st1 := if silent then setIgnore (ignoreHashchangeEvent st + 1)%Z st else st in
    Ok (emit (HashAssigned loc) st1).

(* ===================================================================== *)
(** * Dispatch *)
(* ===================================================================== *)

(** A route key that is no member inherited from [Object.prototype]. *)
Class OwnKey (k : string) : Prop := own_key : inheritedKey k = false.

Class OwnKeys (l : list (string * handler)) : Prop :=
  own_keys : forallb (fun kh => negb (inheritedKey kh.1)) l = true.

#[global] Hint Extern 0 (OwnKey _) => exact eq_refl : typeclass_instances.
#[global] Hint Extern 0 (OwnKeys _) => exact eq_refl : typeclass_instances.

(** What a handler does when called, and what the application does between
    two notifications: calls of the router interface. Two assumptions on
    the callers are built into the type. A call does not raise: one that
    names a member inherited from [Object.prototype] as a route raises
    [TypeError] (see [addRoute] and the definitions after it), so the calls
    listed here carry the evidence that their keys are none. And a handler
    does not call [refresh], which would run a notification inside the one
    that called the handler; the application calls it between
    notifications, as a [Notify] event. *)
Inductive action :=
  | CallAddRoute (route : string) {own : OwnKey route}
      (h : handler) (onUnroute : option handler)
  | CallAddRoutes (l : list (string * handler)) {own : OwnKeys l}
  | CallRemoveRoute (route : string) {own : OwnKey route}
      (h : handler) (onUnroute : option handler)
  | CallRemoveRoutes (l : list (string * handler)) {own : OwnKeys l}
  | CallSetRoute (route : string) (silent : bool).

Definition runAction (a : action) (st : Router) : result Router :=
  match a with
  | CallAddRoute route h u => addRoute route h u st
  | CallAddRoutes l => addRoutes l st
  | CallRemoveRoute route h u => removeRoute route h u st
  | CallRemoveRoutes l => removeRoutes l st
  | CallSetRoute route silent => setRoute route silent st
  end.

Fixpoint runActions (l : list action) (st : Router) : result Router :=
  match l with
  | [] => Ok st
  | a :: l' => st' ← runAction a st; runActions l' st'
  end.

(** The loop over [params] in [dispatch]: the arguments record and the
    arguments string. [matches !! (S i)] is [matches[i+1]]. The record is a
    plain object: the assignment [args["__proto__"] = v] runs the setter
    inherited from [Object.prototype], which does nothing for a [v] that is
    a string or [undefined], and the record gets no such property. *)
Definition jsToString (v : option string) : string := default "undefined" v.

Definition jsOfOption (v : option string) : jsval :=
  match v with Some s => VString s | None => VUndefined end.

Fixpoint argsLoop (ps : list string) (i : nat) (matches : list string)
    (a : eventArgs) (str : string) : eventArgs * string :=
  match ps with
  | [] => (a, str)
  | p :: ps' =>
      argsLoop ps' (S i) matches
        (if String.eqb p "__proto__" then a else <[p := jsOfOption (matches !! S i)]> a)
        (str +:+ ("_" +:+ jsToString (matches !! S i)))
  end.

(** [str != this.s_args]: [null] differs from every string. *)
Definition differs (str : string) (s : option string) : bool :=
  match s with
  | None => true
  | Some s' => negb (String.eqb str s')
  end.

Definition setSArgs (s : option string) (r : Route) : Route :=
  MkRoute (routeRegex r) (value r) (params r) s (active r) (changed r) (listeners r).

Definition setActive (b : bool) (r : Route) : Route :=
  MkRoute (routeRegex r) (value r) (params r) (s_args r) b (changed r) (listeners r).

Definition setChanged (b : bool) (r : Route) : Route :=
  MkRoute (routeRegex r) (value r) (params r) (s_args r) (active r) b (listeners r).

Section Handlers.

(** The body of every handler: the calls it makes, given the channel it was
    called on and the arguments record. *)
Variable script : handler → string → eventArgs → list action.

Fixpoint callListeners (hs : list handler) (name : string) (a : eventArgs)
    (st : Router) : result Router :=
  match hs with
  | [] => Ok st
  | h :: hs' =>
      st' ← runActions (script h name a) (emit (Invoked h name a) st);
      callListeners hs' name a st'
  end.

(** Modelled from the spec: [dispatchEvent] of [EventDispatcher] calls the
    listeners of the channel in registration order. *)
Definition dispatchEvent (key name : string) (a : eventArgs) (st : Router)
  : result Router :=
  match routes st !! key with
  | None => Err TypeError
  | Some this => callListeners (default [] (listeners this !! name)) name a st
  end.

(** [routes[key].dispatch (route)]. *)
Definition dispatch (key route : string) (st0 : Router) : result (bool * Router) :=
  let st := emit (Dispatched key route) st0 in
  match routes st !! key with
  | None => Err TypeError
  | Some this =>
      matches ← jsMatch route (routeRegex this);
      match matches with
      | None =>
          let st1 := assign key (setSArgs None) st in
          st2 ← (if active this
                 then dispatchEvent key "unrouted" {[ "route" := VRoute key ]} st1
                 else Ok st1);
          Ok (false, assign key (setActive false) st2)
      | Some ms =>
          let '(a, str) := argsLoop (params this) 0 ms {[ "route" := VRoute key ]} "" in
          let st1 := assign key (setChanged (differs str (s_args this))) st in
          st2 ← dispatchEvent key "routed" a st1;
          let st3 := assign key (setSArgs (Some str)) st2 in
          Ok (true, assign key (setActive true) st3)
      end
  end.

(** The [for] loop of [onLocationChanged], from index [i]. *)
Fixpoint dispatchLoop (fuel : nat) (i : nat) (st : Router) : result Router :=
  match fuel with
  | 0 => Err OutOfFuel
  | S fuel' =>
      if i <? length (sortedRoutes st) then
        match sortedRoutes st !! i with
        | None => Err TypeError
        | Some key =>
            '(_, st') ← dispatch key (location st) st;
            dispatchLoop fuel' (S i) st'
        end
      else Ok st
  end.

(** [onLocationChanged ()], when [location.hash] reads [hash]. *)
Definition onLocationChanged (fuel : nat) (hash : string) (st : Router) : result Router :=
  let cLocation := JS.substr_from hash 1 in
  rLocation ← realLocation (location st) cLocation None;
  if negb (String.eqb cLocation rLocation) then
    Ok (emit (LocationReplaced ("#" +:+ rLocation)) st)
  else
    let st1 := setLocation cLocation (JS.split "/" cLocation) st in
    if (0 <? ignoreHashchangeEvent st1)%Z then
      Ok (setIgnore (ignoreHashchangeEvent st1 - 1)%Z st1)
    else dispatchLoop fuel 0 st1.

(** [refresh ()]. *)
Definition refresh (fuel : nat) (hash : string) (st : Router) : result Router :=
  onLocationChanged fuel hash st.

End Handlers.

Definition noScript : handler → string → eventArgs → list action := fun _ _ _ => [].

(* ===================================================================== *)
(** * Notions the properties are stated with *)
(* ===================================================================== *)

(** Does [c] occur in [s]? *)
Fixpoint hasChar (c : ascii) (s : string) : bool :=
  match s with
  | EmptyString => false
  | String d r => Ascii.eqb c d || hasChar c r
  end.

Definition firstChar (s : string) : option ascii :=
  match s with
  | EmptyString => None
  | String c _ => Some c
  end.

Fixpoint lastChar (s : string) : option ascii :=
  match s with
  | EmptyString => None
  | String c EmptyString => Some c
  | String _ r => lastChar r
  end.

(** No white space at either end. *)
Definition trimmed (s : string) : Prop :=
  (∀ c, firstChar s = Some c → JS.isWhiteSpace c = false)
  ∧ (∀ c, lastChar s = Some c → JS.isWhiteSpace c = false).

Fixpoint allChars (f : ascii → bool) (s : string) : bool :=
  match s with
  | EmptyString => true
  | String c r => f c && allChars f r
  end.

Definition ordinaryChar (c : ascii) : bool := negb (isSyntaxChar c).

(** The [:name] tokens of a pattern as the pattern grammar reads them, in
    one pass from left to right: [cur] is the name read so far once a colon
    has been seen. A name is a non-empty run of name characters. *)
Definition tokenOf (name : string) : list string :=
  match name with
  | EmptyString => []
  | String _ _ => [name]
  end.

Fixpoint tokensFrom (cur : option string) (s : string) : list string :=
  match s with
  | EmptyString => from_option tokenOf [] cur
  | String c r =>
      if isNameChar c then
        match cur with
        | Some name => tokensFrom (Some (name +:+ String c "")) r
        | None => tokensFrom None r
        end
      else
        from_option tokenOf [] cur
          ++ tokensFrom (if Ascii.eqb c ":" then Some "" else None) r
  end.

Definition paramTokens (pattern : string) : list string := tokensFrom None pattern.

(** The last position of a name in the parameter list. *)
Fixpoint lastPosition (name : string) (ps : list string) : option nat :=
  match ps with
  | [] => None
  | p :: ps' =>
      match lastPosition name ps' with
      | Some k => Some (S k)
      | None => if decide (p = name) then Some 0 else None
      end
  end.

(** [true] for a match array, [false] for [null]. *)
Definition matched (m : option (list string)) : bool :=
  match m with
  | Some _ => true
  | None => false
  end.

(** The arguments record and the arguments string that [dispatch] builds
    for the route stored under [key] from a match array. *)
Definition argsRecord (key : string) (this : Route) (ms : list string) : eventArgs :=
  (argsLoop (params this) 0 ms {[ "route" := VRoute key ]} "").1.

Definition argsString (this : Route) (ms : list string) : string :=
  (argsLoop (params this) 0 ms {[ "route" := VRoute "" ]} "").2.

(** The length of the compiled expression of the route stored under [k]. *)
Definition regexLength (st : Router) (k : string) : nat :=
  match routes st !! k with
  | Some r => String.length (routeRegex r)
  | None => 0
  end.

(** The order relation of the table: ascending compiled length. *)
Definition shorterEq (st : Router) (a b : string) : Prop :=
  regexLength st a ≤ regexLength st b.

(** The routes a call names for creation, in the order it visits them. *)
Definition namedRoutes (a : action) : list string :=
  match a with
  | CallAddRoute route _ _ => [route]
  | CallAddRoutes l => l.*1
  | _ => []
  end.

(** The order in which the keys of a sequence were first seen. *)
Definition firstSeen (seen : list string) (keys : list string) : list string :=
  foldl (fun seen k => if decide (k ∈ seen) then seen else seen ++ [k]) seen keys.

(** The original insertion order of the routes created by a sequence of
    calls on an empty table. *)
Definition insertionOrder (calls : list action) : list string :=
  firstSeen [] (calls ≫= namedRoutes).

(** The calls of [dispatch] recorded in a piece of trace. *)
Definition dispatchCalls (t : list effect) : list (string * string) :=
  omap (fun e => match e with Dispatched k route => Some (k, route) | _ => None end) t.

(** The handlers create no route: every route their calls name is in the
    table already. *)
Definition quietScript (script : handler → string → eventArgs → list action)
    (st : Router) : Prop :=
  ∀ h name a k, k ∈ (script h name a ≫= namedRoutes) → is_Some (routes st !! k).

(** Every slot of the order sequence holds a route whose compiled
    expression can be matched against [loc]. *)
Definition matchable (loc : string) (st : Router) : Prop :=
  ∀ k, k ∈ sortedRoutes st →
    ∃ r m, routes st !! k = Some r ∧ jsMatch loc (routeRegex r) = Ok m.

(* ===================================================================== *)
(** * Invariants and auxiliary notions of the proofs *)
(* ===================================================================== *)

(** The automaton only ever holds the states of its [switch], or [-1]. *)
Definition rl_valid (v : rl_vars) : Prop :=
  rl_state v ∈ [0; 1; 2; 3; -1]%Z.

Definition rl_weight (state : Z) : nat :=
  match state with
  | 1%Z => 2
  | 2%Z | 3%Z => 1
  | _ => 0
  end.

(** The variant of the loop. *)
Definition rl_measure (cLocation : string) (v : rl_vars) : nat :=
  if (rl_state v =? -1)%Z then 0
  else 3 * (String.length cLocation - rl_i v) + rl_weight (rl_state v) + 1.

(** What follows the longest prefix of name characters. *)
Fixpoint dropName (s : string) : string :=
  match s with
  | String c r => if isNameChar c then dropName r else s
  | EmptyString => EmptyString
  end.

(** The match of the parameter expression as a cut of the string: what
    precedes the colon, the name, and what follows the name. *)
Fixpoint splitParam (s : string) : option (string * string * string) :=
  match s with
  | EmptyString => None
  | String c r =>
      match Ascii.eqb c ":", takeName r with
      | true, String _ _ as name => Some (EmptyString, name, dropName r)
      | _, _ => (fun '(b, n, a) => (String c b, n, a)) <$> splitParam r
      end
  end.

(** A prefix that holds no parameter and cannot start one. *)
Definition inert (done : string) : Prop :=
  ∀ x, splitParam (done +:+ x)
       = (fun '(b, n, a) => (done +:+ b, n, a)) <$> splitParam x.

(** The atoms of a text without syntax characters. *)
Fixpoint literalAtoms (s : string) : list atom :=
  match s with
  | EmptyString => []
  | String c r => Lit c :: literalAtoms r
  end.

(** Ascending order of a numeric key. *)
Definition leKey {A} (f : A → nat) : relation A := fun a b => f a ≤ f b.

(** Stable insertion by a numeric key, without the lookups of the comparator:
    what [sortInsert] computes once every compared key has a route. *)
Fixpoint insertKey {A} (f : A → nat) (x : A) (sorted : list A) : list A :=
  match sorted with
  | [] => [x]
  | y :: rest => if f x <? f y then x :: y :: rest else y :: insertKey f x rest
  end.

Definition sortKeys {A} (f : A → nat) (sorted l : list A) : list A :=
  foldl (fun acc x => insertKey f x acc) sorted l.

(** Every slot of the order sequence names a stored route. *)
Definition tableOk (st : Router) : Prop :=
  ∀ k, k ∈ sortedRoutes st → is_Some (routes st !! k).

(** The table between the creation of routes and the sort that follows:
    the routes of [hist] are in sorted position, those of [news] pushed
    after them. Both lists are in order of creation. *)
Record tablePending (st : Router) (hist news : list string) : Prop := {
  pending_NoDup : NoDup (hist ++ news);
  pending_keys : ∀ k, k ∈ hist ++ news ↔ is_Some (routes st !! k);
  pending_order :
    sortedRoutes st = sortKeys (regexLength st) [] hist ++ news;
}.

(** The table at rest: the order sequence is the stable sort, by compiled
    length, of the routes in order of creation. *)
Definition tableInv (st : Router) (hist : list string) : Prop :=
  tablePending st hist [].

(** A change of a route object that leaves its compiled expression alone. *)
Definition keepsRegex (f : Route → Route) : Prop :=
  ∀ r, routeRegex (f r) = routeRegex r.

(** A field assignment that leaves the compiled pattern alone. *)
Definition keepsPattern (f : Route → Route) : Prop :=
  ∀ r, routeRegex (f r) = routeRegex r ∧ params (f r) = params r
       ∧ listeners (f r) = listeners r.

(** Routes are never deleted. *)
Definition keepsKeys (st st' : Router) : Prop :=
  ∀ k, is_Some (routes st !! k) → is_Some (routes st' !! k).

(** Two route objects that differ at most in their listeners. *)
Definition sameCore (r r' : Route) : Prop :=
  routeRegex r' = routeRegex r ∧ value r' = value r ∧ params r' = params r
  ∧ s_args r' = s_args r ∧ active r' = active r ∧ changed r' = changed r.

Definition notDispatched (e : effect) : Prop :=
  match e with
  | Dispatched _ _ => False
  | _ => True
  end.

(** What the calls made by handlers can do to the router: routes stay, up
    to their listeners; the location stays; the trace grows, not by a
    dispatch. *)
Definition handlerStep (st st' : Router) : Prop :=
  location st' = location st
  ∧ (∀ k r, routes st !! k = Some r → ∃ r', routes st' !! k = Some r' ∧ sameCore r r')
  ∧ ∃ t, trace st' = trace st ++ t ∧ Forall notDispatched t.

(** What a dispatch on the route [key] can do to the router: as
    [handlerStep], but the dispatch state of the route [key] itself may
    change. *)
Definition routeStep (key : string) (st st' : Router) : Prop :=
  location st' = location st
  ∧ (∀ k r, routes st !! k = Some r →
       ∃ r', routes st' !! k = Some r'
             ∧ routeRegex r' = routeRegex r ∧ params r' = params r
             ∧ (k ≠ key → sameCore r r'))
  ∧ ∃ t, trace st' = trace st ++ t ∧ Forall notDispatched t.

(** Case analysis on a sequenced call that returned. *)
Ltac bind_inv H :=
  match type of H with
  | mbind _ ?m = Ok _ =>
      let st := fresh "st" in
      let E := fresh "E" in
      destruct m as [st|] eqn:E; [cbn [mbind result_bind] in H|discriminate H]
  end.

(* ===================================================================== *)
(** * Example routers *)
(* ===================================================================== *)

(** The router after a sequence of calls on the empty router. *)
Definition builtBy (calls : list action) : Router :=
  match runActions calls emptyRouter with
  | Ok st => st
  | Err _ => emptyRouter
  end.

(** The three routes of the dispatch example, at location [/a/5]. *)
Definition exampleCalls : list action :=
  [CallAddRoute "/" 1 None; CallAddRoute "/a" 2 None; CallAddRoute "/a/:id" 3 None].

Definition exampleTable : Router :=
  setLocation "/a/5" (JS.split "/" "/a/5") (builtBy exampleCalls).

(** Handler 1 registers a new, shorter route when it is called. *)
Definition growScript : handler → string → eventArgs → list action :=
  fun h _ _ => if h =? 1 then [CallAddRoute "/" 2 None] else [].


Definition growTable : Router := builtBy [CallAddRoute "/ab" 1 None].

(** One route with two parameters, for the arguments string. *)
Definition collisionTable : Router := builtBy [CallAddRoute "/:x/:y" 1 None].

(** One route whose two parameters share a name. *)
Definition duplicateTable : Router := builtBy [CallAddRoute "/:id/:id" 1 None].

(** A table with the single pattern [/:__proto__]. *)
Definition protoTable : Router := builtBy [CallAddRoute "/:__proto__" 1 None].


(** Routes whose literal text is read as an expression. *)
Definition markerTable : Router := builtBy [CallAddRoute "a##b" 1 None].
Definition dotTable : Router := builtBy [CallAddRoute "a.c" 1 None].

(* ===================================================================== *)
(** * The router under a sequence of events *)
(* ===================================================================== *)

(** What reaches the router from outside: a call of its interface, or a
    hash-change notification, given with the hash the browser shows and the
    bound of its dispatch pass. *)
Inductive event :=
  | Call (a : action)
  | Notify (fuel : nat) (hash : string).

Section Events.

Variable script : handler → string → eventArgs → list action.

Definition runEvent (e : event) (st : Router) : result Router :=
  match e with
  | Call a => runAction a st
  | Notify fuel hash => onLocationChanged script fuel hash st
  end.

Fixpoint runEvents (es : list event) (st : Router) : result Router :=
  match es with
  | [] => Ok st
  | e :: es' => st' ← runEvent e st; runEvents es' st'
  end.

End Events.

(** A route object as the constructor leaves it, whatever its listeners. *)
Definition freshRoute (k : string) (r : Route) : Prop :=
  value r = k ∧ _compileRoute k = Ok (params r, routeRegex r)
  ∧ s_args r = None ∧ active r = false ∧ changed r = false.

Definition assignsHash (e : effect) : Prop :=
  match e with
  | HashAssigned _ => True
  | _ => False
  end.

Definition assignsOrInvokes (e : effect) : Prop :=
  match e with
  | HashAssigned _ | Invoked _ _ _ => True
  | _ => False
  end.

(** What a call of the router interface can do: the location and its
    parts stay; the counter of silenced notifications does not go down; the
    routes stay, up to their listeners; a route that appears is a new one;
    the trace grows by effects that satisfy [P]. *)
Definition callStep (P : effect → Prop) (st st' : Router) : Prop :=
  location st' = location st ∧ args st' = args st
  ∧ (ignoreHashchangeEvent st ≤ ignoreHashchangeEvent st')%Z
  ∧ (∀ k r, routes st !! k = Some r → ∃ r', routes st' !! k = Some r' ∧ sameCore r r')
  ∧ (∀ k r', routes st' !! k = Some r' → routes st !! k = None → freshRoute k r')
  ∧ ∃ t, trace st' = trace st ++ t ∧ Forall P t.

(** The dispatch state of a route between two dispatches: an inactive route
    holds no arguments string, and an active one the arguments string of a
    match. *)
Definition restState (r : Route) : Prop :=
  (active r = false → s_args r = None)
  ∧ (active r = true → ∃ ms, s_args r = Some (argsString r ms)).

(** A field assignment that leaves alone what the constructor compiled. *)
Definition keepsCompiled (f : Route → Route) : Prop :=
  ∀ r, routeRegex (f r) = routeRegex r ∧ value (f r) = value r ∧ params (f r) = params r.

(** What a dispatch on the route [key] can do: as a call, but the dispatch
    state of the route [key] may change, to a state of rest. *)
Definition dispatchStep (key : string) (st st' : Router) : Prop :=
  location st' = location st ∧ args st' = args st
  ∧ (ignoreHashchangeEvent st ≤ ignoreHashchangeEvent st')%Z
  ∧ (∀ k r, routes st !! k = Some r →
       ∃ r', routes st' !! k = Some r'
         ∧ routeRegex r' = routeRegex r ∧ value r' = value r ∧ params r' = params r
         ∧ (k = key → restState r')
         ∧ (k ≠ key → sameCore r r'))
  ∧ (∀ k r', routes st' !! k = Some r' → routes st !! k = None → freshRoute k r').

(** A stored route: it is stored under its own pattern, it holds what the
    constructor compiled from the pattern, and its dispatch state is at
    rest. *)
Definition routeOk (k : string) (r : Route) : Prop :=
  value r = k ∧ _compileRoute k = Ok (params r, routeRegex r) ∧ restState r.

(** The state of the router between two events. *)
Record routerOk (st : Router) : Prop := {
  ok_table : ∃ hist, tableInv st hist;
  ok_routes : ∀ k r, routes st !! k = Some r → routeOk k r;
  ok_counter : (0 ≤ ignoreHashchangeEvent st)%Z;
  ok_location : trimmed (location st);
  ok_args : (args st = [] ∧ location st = "") ∨ args st = JS.split "/" (location st);
}.

(** The router after a sequence of events on the empty router. *)
Definition afterEvents (script : handler → string → eventArgs → list action)
    (es : list event) : Router :=
  match runEvents script es emptyRouter with
  | Ok st => st
  | Err _ => emptyRouter
  end.

(** A registration, then a notification during which handler 1 registers a
    shorter route. *)
Definition growEvents : list event :=
  [Call (CallAddRoute "/ab" 1 None); Notify 3 "#/ab"].

(** [addRoute (key, handler)] called for the entries of a map one by one,
    in enumeration order. *)
Fixpoint addRouteEach (l : list (string * handler)) (st : Router) : result Router :=
  match l with
  | [] => Ok st
  | (k, h) :: l' => st' ← addRoute k h None st; addRouteEach l' st'
  end.

(** Two router states that differ at most in the order sequence. *)
Definition sameButOrder (st st' : Router) : Prop :=
  routes st' = routes st ∧ ignoreHashchangeEvent st' = ignoreHashchangeEvent st
  ∧ location st' = location st ∧ args st' = args st ∧ trace st' = trace st.

(** The handler calls recorded in a piece of trace: which handler, on which
    channel, with which arguments record. *)
Definition invocations (t : list effect) : list (handler * string * eventArgs) :=
  omap (fun e => match e with Invoked h name a => Some (h, name, a) | _ => None end) t.

(* ===================================================================== *)
(** * What a match of the expression fragment is *)
(* ===================================================================== *)

(** The attempts of a group on [s], longest first: the loop inside
    [matchAtoms], with the match of the atoms that follow as [cont]. *)
Fixpoint captureTry (cont : string → option (string * list string)) (s : string)
    (k : nat) : option (string * list string) :=
  match k with
  | 0 => None
  | S k' =>
      match cont (JS.substr_from s k) with
      | Some (m, caps) => Some (JS.take k s +:+ m, JS.take k s :: caps)
      | None => captureTry cont s k'
      end
  end.

(** [atomsMatch atoms s m caps]: the text [m] at the start of [s] is a way
    to match [atoms], with the groups capturing [caps]: a literal matches
    itself, a dot any character but a line terminator, and a group a
    non-empty text without slash. *)
Inductive atomsMatch : list atom → string → string → list string → Prop :=
  | match_nil s : atomsMatch [] s "" []
  | match_lit c rest s m caps :
      atomsMatch rest s m caps →
      atomsMatch (Lit c :: rest) (String c s) (String c m) caps
  | match_any d rest s m caps :
      isLineTerminator d = false → atomsMatch rest s m caps →
      atomsMatch (AnyChar :: rest) (String d s) (String d m) caps
  | match_capture seg rest s m caps :
      seg ≠ "" → hasChar "/" seg = false → atomsMatch rest s m caps →
      atomsMatch (Capture :: rest) (seg +:+ s) (seg +:+ m) (seg :: caps).

(** The number of groups of an expression. *)
Fixpoint groupCount (atoms : list atom) : nat :=
  match atoms with
  | [] => 0
  | Capture :: rest => S (groupCount rest)
  | _ :: rest => groupCount rest
  end.

(** A captured value: not empty, and without slash. *)
Definition segmentValue (v : string) : Prop := v ≠ "" ∧ hasChar "/" v = false.

(* ===================================================================== *)
(** * Plain patterns *)
(* ===================================================================== *)

(** The characters of a plain pattern: the dot, and every character that is
    not a syntax character of expressions. Colons, name characters, slashes
    and the marker character are among them. *)
Definition patternChar (c : ascii) : bool := negb (isSyntaxChar c) || Ascii.eqb c ".".

(** The pattern with every [:name] token replaced by the group, from left
    to right: what the loop of [_compileRoute] ends with. *)
Fixpoint expand (fuel : nat) (s : string) : string :=
  match fuel with
  | 0 => s
  | S fuel' =>
      match splitParam s with
      | Some (b, _, a) => b +:+ (captureGroup +:+ expand fuel' a)
      | None => s
      end
  end.

(** The atoms of a text of pattern characters. *)
Fixpoint plainAtoms (s : string) : list atom :=
  match s with
  | EmptyString => []
  | String c r => (if Ascii.eqb c "." then AnyChar else Lit c) :: plainAtoms r
  end.

(** The dispatch state of a route that was last dispatched on [loc]:
    active tells the match, and the arguments string is the one of the
    match. *)
Definition settledOn (loc : string) (r : Route) : Prop :=
  ∀ m, jsMatch loc (routeRegex r) = Ok m →
    active r = matched m ∧ s_args r = argsString r <$> m.

(** The state of a matching route after a dispatch that repeated the one
    before: active, and not changed. *)
Definition repeatedOn (loc : string) (r : Route) : Prop :=
  ∀ ms, jsMatch loc (routeRegex r) = Ok (Some ms) → active r = true ∧ changed r = false.

(* ===================================================================== *)
(** * Facts about the string primitives *)
(* ===================================================================== *)

Lemma append_nil_l s : "" +:+ s = s.
Proof. reflexivity. Qed.

Lemma append_cons a s t : String a s +:+ t = String a (s +:+ t).
Proof. reflexivity. Qed.

Lemma append_nil_r s : s +:+ "" = s.
Proof. induction s as [|a s IH]; [reflexivity|]. by rewrite append_cons, IH. Qed.

Lemma append_assoc s t u : (s +:+ t) +:+ u = s +:+ (t +:+ u).
Proof.
  induction s as [|a s IH]; [reflexivity|].
  by rewrite !append_cons, IH.
Qed.

Lemma length_append s t : String.length (s +:+ t) = String.length s + String.length t.
Proof.
  induction s as [|a s IH]; [reflexivity|].
  rewrite append_cons. simpl. by rewrite IH.
Qed.

Lemma substr_from_append pre rest :
  JS.substr_from (pre +:+ rest) (String.length pre) = rest.
Proof. induction pre as [|a pre IH]; [by destruct rest|]. by rewrite append_cons. Qed.

Lemma substr_from_0 s : JS.substr_from s 0 = s.
Proof. by destruct s. Qed.

Lemma substr_from_length s : JS.substr_from s (String.length s) = "".
Proof. induction s; simpl; auto. Qed.

Lemma substr_append_1 pre a rest :
  JS.substr (pre +:+ String a rest) (String.length pre) 1 = String a "".
Proof. unfold JS.substr. by rewrite substr_from_append. Qed.

Lemma string_eqb_neq s t : String.eqb s t = false ↔ s ≠ t.
Proof. apply String.eqb_neq. Qed.

(* ===================================================================== *)
(** * Reconciliation: evaluation, totality, fallbacks *)
(* ===================================================================== *)

(** C1. The two worked examples of reconciliation: template [*/5] against
    [users/3] gives [users/5], and template [*/edit] against [a/b/c] gives
    [a/edit]. *)
Theorem realLocation_examples :
  ∀ this_location,
    realLocation this_location "*/5" (Some "users/3") = Ok "users/5"
    ∧ realLocation this_location "*/edit" (Some "a/b/c") = Ok "a/edit".
Proof. intros loc. split; vm_compute; reflexivity. Qed.

Lemma rl_step_decreases c p v :
  rl_valid v → rl_continue c p v = true →
  rl_valid (rl_step c p v) ∧ rl_measure c (rl_step c p v) < rl_measure c v.
Proof.
  destruct v as [state i j r]. unfold rl_valid, rl_continue, rl_measure. simpl.
  intros Hv Hc.
  apply andb_true_iff in Hc as [Hc _]. apply andb_true_iff in Hc as [Hs Hi].
  apply Nat.ltb_lt in Hi.
  rewrite !elem_of_cons in Hv.
  destruct Hv as [->|[->|[->|[->|[->|Hv]]]]]; [..|by apply elem_of_nil in Hv]; simpl in *.
  - destruct (String.eqb _ star); simpl.
    + split; [set_solver|lia].
    + destruct (negb _); simpl; split; try set_solver; lia.
  - destruct (String.eqb _ star); simpl; split; try set_solver; lia.
  - destruct (JS.indexOf _ _ _); simpl; split; try set_solver; lia.
  - destruct (JS.lastIndexOf _ _); simpl; split; try set_solver; lia.
  - discriminate.
Qed.

Lemma rl_loop_total fuel : ∀ c p v,
  rl_valid v → rl_measure c v < fuel → is_Ok (rl_loop fuel c p v).
Proof.
  induction fuel as [|fuel IH]; intros c p v Hv Hm; [lia|].
  simpl. destruct (rl_continue c p v) eqn:Hc; [|by eexists].
  destruct (rl_step_decreases c p v Hv Hc) as [Hv' Hm'].
  apply IH; [done|lia].
Qed.

Lemma realLocation_total this_location c pLocation :
  is_Ok (realLocation this_location c pLocation).
Proof.
  unfold realLocation.
  destruct (rl_loop_total (rl_fuel c) c (rl_context this_location pLocation)
              (RlVars 0 0 0 "")) as [v Hv].
  - unfold rl_valid. simpl. set_solver.
  - unfold rl_measure, rl_fuel. simpl. lia.
  - rewrite Hv. by eexists.
Qed.

(** C8. Reconciliation always returns a string; a single wildcard whose
    anchor is not found at or after [j] appends the rest of the context and
    then the rest of the template and halts; a double wildcard whose anchor
    is nowhere in the context appends the rest of the template only and
    halts. *)
Theorem realLocation_never_fails (this_location c : string) (pLocation : option string)
    (i j : nat) (r : string) (fuel : nat) :
  let p := rl_context this_location pLocation in
  is_Ok (realLocation this_location c pLocation)
  ∧ (i < String.length c → j < String.length p →
     JS.indexOf (JS.substr c i 1) p j = None →
     let halted := RlVars (-1) i j (r +:+ (JS.substr_from p j +:+ JS.substr_from c i)) in
     rl_loop (S (S fuel)) c p (RlVars 2 i j r) = Ok halted
     ∧ rl_finish c halted = JS.trim (r +:+ (JS.substr_from p j +:+ JS.substr_from c i)))
  ∧ (i < String.length c → j < String.length p →
     JS.lastIndexOf (JS.substr c i 1) p = None →
     let halted := RlVars (-1) i j (r +:+ JS.substr_from c i) in
     rl_loop (S (S fuel)) c p (RlVars 3 i j r) = Ok halted
     ∧ rl_finish c halted = JS.trim (r +:+ JS.substr_from c i)).
Proof.
  intros p. split; [apply realLocation_total|].
  split; intros Hi Hj Hk halted.
  - split; [|reflexivity].
    cbn [rl_loop]. unfold rl_continue. cbn [rl_state rl_i rl_j].
    apply Nat.ltb_lt in Hi as ->. apply Nat.ltb_lt in Hj as ->.
    cbn [negb andb Z.eqb]. unfold rl_step. rewrite Hk. reflexivity.
  - split; [|reflexivity].
    cbn [rl_loop]. unfold rl_continue. cbn [rl_state rl_i rl_j].
    apply Nat.ltb_lt in Hi as ->. apply Nat.ltb_lt in Hj as ->.
    cbn [negb andb Z.eqb]. unfold rl_step. rewrite Hk. reflexivity.
Qed.

Lemma realLocation_never_fails_witness :
  (1 < String.length "*x" ∧ 0 < String.length "abc"
   ∧ JS.indexOf (JS.substr "*x" 1 1) "abc" 0 = None
   ∧ JS.lastIndexOf (JS.substr "*x" 1 1) "abc" = None)
  ∧ rl_loop 2 "*x" "abc" (RlVars 2 1 0 "") = Ok (RlVars (-1) 1 0 "abcx")
  ∧ rl_loop 2 "*x" "abc" (RlVars 3 1 0 "") = Ok (RlVars (-1) 1 0 "x")
  ∧ realLocation "" "*x" (Some "abc") = Ok "abcx"
  ∧ realLocation "" "**x" (Some "abc") = Ok "x".
Proof.
  pose proof (realLocation_never_fails "" "*x" (Some "abc") 1 0 "" 0) as H.
  simpl in H. destruct H as (_ & H2 & H3).
  assert (Hi : 1 < 2) by lia. assert (Hj : 0 < 3) by lia.
  split; [repeat split; first [simpl; lia | reflexivity]|].
  split; [apply (H2 Hi Hj eq_refl)|].
  split; [apply (H3 Hi Hj eq_refl)|].
  split; reflexivity.
Defined.

Lemma trimStart_id s :
  (∀ c, firstChar s = Some c → JS.isWhiteSpace c = false) → JS.trimStart s = s.
Proof.
  destruct s as [|a s]; [done|]. intros H. simpl. by rewrite (H a eq_refl).
Qed.

Lemma trimEnd_id s :
  (∀ c, lastChar s = Some c → JS.isWhiteSpace c = false) → JS.trimEnd s = s.
Proof.
  induction s as [|a s IH]; [done|]. intros H.
  destruct s as [|b s].
  - simpl. by rewrite (H a eq_refl).
  - change (JS.trimEnd (String a (String b s)))
      with (match JS.trimEnd (String b s) with
            | "" => if JS.isWhiteSpace a then "" else String a ""
            | r' => String a r'
            end).
    rewrite IH; [done|]. intros c Hc. by apply H.
Qed.

Lemma trim_trimmed s : trimmed s → JS.trim s = s.
Proof.
  intros [Hf Hl]. unfold JS.trim. rewrite (trimStart_id s Hf). by apply trimEnd_id.
Qed.

Lemma hasChar_star_eqb a rest :
  hasChar "*" (String a rest) = false → String.eqb (String a "") star = false.
Proof.
  cbn [hasChar]. intros H. apply orb_false_iff in H as [H _].
  apply String.eqb_neq. intros [= ->]. by rewrite Ascii.eqb_refl in H.
Qed.

(** Without a wildcard the automaton copies the template, whatever the
    context: it stays in state 0 until the template, the context or the
    common prefix ends. *)
Lemma rl_loop_copy c p : ∀ rest pre fuel,
  c = pre +:+ rest → hasChar "*" rest = false → String.length rest < fuel →
  ∃ v, rl_loop fuel c p (RlVars 0 (String.length pre) (String.length pre) pre) = Ok v
       ∧ rl_finish c v = JS.trim c.
Proof.
  induction rest as [|a rest IH]; intros pre fuel Hc Hstar Hfuel.
  - destruct fuel as [|fuel]; [simpl in Hfuel; lia|].
    rewrite append_nil_r in Hc. subst pre. simpl.
    unfold rl_continue. simpl. rewrite Nat.ltb_irrefl. simpl.
    eexists; split; [done|]. unfold rl_finish. simpl.
    by rewrite substr_from_length, append_nil_r.
  - destruct fuel as [|fuel]; [simpl in Hfuel; lia|].
    simpl in Hfuel. cbn [rl_loop].
    destruct (rl_continue c p _) eqn:Hcont.
    + unfold rl_step.
      assert (Hci : JS.substr c (String.length pre) 1 = String a "")
        by (subst c; apply substr_append_1).
      rewrite Hci, (hasChar_star_eqb a rest Hstar).
      replace (S (String.length pre) - 1) with (String.length pre) by lia.
      rewrite Hci.
      destruct (String.eqb (String a "") (JS.substr p (String.length pre) 1)) eqn:Heq; simpl.
      * apply String.eqb_eq in Heq. rewrite <- Heq.
        assert (Hlen : S (String.length pre) = String.length (pre +:+ String a ""))
          by (rewrite length_append; simpl; lia).
        rewrite Hlen. apply IH.
        -- by rewrite append_assoc.
        -- simpl in Hstar. by apply orb_false_iff in Hstar as [_ ?].
        -- lia.
      * destruct fuel as [|fuel]; [lia|]. simpl.
        eexists; split; [done|]. unfold rl_finish. simpl.
        subst c. by rewrite substr_from_append.
    + eexists; split; [done|]. unfold rl_finish. simpl.
      subst c. by rewrite substr_from_append.
Qed.

Lemma realLocation_star_free this_location c pLocation :
  hasChar "*" c = false →
  realLocation this_location c pLocation = Ok (JS.trim c).
Proof.
  intros Hstar. unfold realLocation.
  destruct (rl_loop_copy c (rl_context this_location pLocation) c "" (rl_fuel c))
    as (v & Hv & Hfin); [done|done|unfold rl_fuel; lia|].
  simpl in Hv. rewrite Hv. simpl. by rewrite Hfin.
Qed.

(** C10. A non-empty location without [*] and without white space at its
    ends is its own reconciliation, so a change notification for it commits
    it and never redirects. *)
Theorem self_reconciliation_fixed_point
    (script : handler → string → eventArgs → list action)
    (L : string) (fuel : nat) (st : Router) :
  L ≠ "" → hasChar "*" L = false → trimmed L →
  realLocation (location st) L (Some L) = Ok L
  ∧ onLocationChanged script fuel ("#" +:+ L) st =
      (let st1 := setLocation L (JS.split "/" L) st in
       if (0 <? ignoreHashchangeEvent st)%Z
       then Ok (setIgnore (ignoreHashchangeEvent st - 1)%Z st1)
       else dispatchLoop script fuel 0 st1).
Proof.
  intros _ Hstar Htrim. split.
  - rewrite realLocation_star_free by done. by rewrite trim_trimmed.
  - unfold onLocationChanged. rewrite append_cons, append_nil_l.
    change (JS.substr_from (String "#" L) 1) with (JS.substr_from L 0).
    rewrite substr_from_0.
    rewrite realLocation_star_free by done. rewrite trim_trimmed by done.
    simpl. by rewrite String.eqb_refl.
Qed.

Lemma self_reconciliation_fixed_point_witness :
  ("/a/5" ≠ "" ∧ hasChar "*" "/a/5" = false ∧ trimmed "/a/5")
  ∧ realLocation "/b" "/a/5" (Some "/a/5") = Ok "/a/5"
  ∧ location <$> onLocationChanged noScript 1 "#/a/5"
       (setLocation "/b" ["";"b"] emptyRouter) = Ok "/a/5".
Proof.
  assert (H1 : "/a/5" ≠ "") by discriminate.
  assert (H2 : hasChar "*" "/a/5" = false) by reflexivity.
  assert (H3 : trimmed "/a/5") by (split; intros c [= <-]; reflexivity).
  split; [done|].
  destruct (self_reconciliation_fixed_point noScript "/a/5" 1
              (setLocation "/b" ["";"b"] emptyRouter) H1 H2 H3) as [Ha Hb].
  split; [exact Ha|].
  change "#/a/5" with ("#" +:+ "/a/5"). rewrite Hb. reflexivity.
Defined.

(* ===================================================================== *)
(** * Compilation of route patterns *)
(* ===================================================================== *)

Lemma takeName_dropName s : takeName s +:+ dropName s = s.
Proof.
  induction s as [|c s IH]; [done|]. simpl.
  destruct (isNameChar c); [|done]. by rewrite append_cons, IH.
Qed.

Lemma takeName_nil_dropName s : takeName s = "" → dropName s = s.
Proof. destruct s as [|c s]; [done|]. simpl. by destruct (isNameChar c). Qed.

Lemma length_dropName s : String.length (dropName s) ≤ String.length s.
Proof.
  induction s as [|c s IH]; [done|]. simpl.
  destruct (isNameChar c); simpl; lia.
Qed.

Lemma takeName_allChars s : allChars isNameChar (takeName s) = true.
Proof.
  induction s as [|c s IH]; [done|]. simpl.
  destruct (isNameChar c) eqn:Hc; [|done]. simpl. by rewrite Hc.
Qed.

Lemma execParam_splitParam s :
  execParam s = (fun '(b, n, a) => (String ":" n, n)) <$> splitParam s.
Proof.
  induction s as [|c s IH]; [done|]. simpl.
  destruct (Ascii.eqb c ":"), (takeName s); simpl; rewrite ?IH;
    try done; by destruct (splitParam s) as [[[??]?]|].
Qed.

Lemma splitParam_eq s b n a :
  splitParam s = Some (b, n, a) → s = b +:+ String ":" (n +:+ a).
Proof.
  revert b. induction s as [|c s IH]; intros b; [done|]. simpl.
  destruct (Ascii.eqb c ":") eqn:Hc.
  - destruct (takeName s) eqn:Hn.
    + destruct (splitParam s) as [[[b' n'] a']|]; [|done].
      intros [= <- <- <-]. rewrite append_cons. f_equal. by apply IH.
    + intros [= <- <- <-]. apply Ascii.eqb_eq in Hc as ->.
      rewrite append_nil_l, <- Hn. by rewrite takeName_dropName.
  - destruct (splitParam s) as [[[b' n'] a']|]; [|by destruct (takeName s)].
    destruct (takeName s); intros [= <- <- <-];
      rewrite append_cons; f_equal; by apply IH.
Qed.

Lemma splitParam_name s b n a :
  splitParam s = Some (b, n, a) → ∃ c n', n = String c n' ∧ isNameChar c = true.
Proof.
  revert b. induction s as [|c s IH]; intros b; [done|]. simpl.
  destruct (Ascii.eqb c ":").
  - destruct (takeName s) as [|d n'] eqn:Hn.
    + destruct (splitParam s) as [[[b' n''] a']|]; [|done].
      intros [= <- <- <-]. by eapply IH.
    + intros [= <- <- <-]. exists d, n'. split; [done|].
      pose proof (takeName_allChars s) as H. rewrite Hn in H. simpl in H.
      by apply andb_true_iff in H as [? _].
  - destruct (splitParam s) as [[[b' n''] a']|]; [|by destruct (takeName s)].
    destruct (takeName s); intros [= <- <- <-]; by eapply IH.
Qed.

Lemma startsWith_append pre s : JS.startsWith pre (pre +:+ s) = true.
Proof.
  induction pre as [|c pre IH]; [done|].
  rewrite append_cons. simpl. by rewrite Ascii.eqb_refl.
Qed.

Lemma takeName_nil_startsWith r c n :
  takeName r = "" → isNameChar c = true → JS.startsWith (String c n) r = false.
Proof.
  destruct r as [|d r]; [done|]. simpl.
  destruct (isNameChar d) eqn:Hd; [done|]. intros _ Hc.
  destruct (Ascii.eqb c d) eqn:Hcd; [|done].
  apply Ascii.eqb_eq in Hcd as ->. congruence.
Qed.

Lemma find_cons search c r :
  JS.find search (String c r)
  = if JS.startsWith search (String c r) then Some 0 else S <$> JS.find search r.
Proof. reflexivity. Qed.

Lemma startsWith_cons a pre b s :
  JS.startsWith (String a pre) (String b s)
  = if Ascii.eqb a b then JS.startsWith pre s else false.
Proof. reflexivity. Qed.

(** The text [m[0]] occurs first where the expression matched, so replacing
    its first occurrence replaces the match. *)
Lemma find_splitParam s b n a :
  splitParam s = Some (b, n, a) → JS.find (String ":" n) s = Some (String.length b).
Proof.
  revert b. induction s as [|c s IH]; intros b; [done|].
  intros Hs. pose proof (splitParam_name _ _ _ _ Hs) as (d & n' & -> & Hd).
  revert Hs. cbn [splitParam]. rewrite find_cons, startsWith_cons.
  destruct (Ascii.eqb c ":") eqn:Hc.
  - apply Ascii.eqb_eq in Hc as ->. rewrite Ascii.eqb_refl.
    destruct (takeName s) eqn:Hn.
    + destruct (splitParam s) as [[[b' n''] a']|] eqn:Hs'; [|done].
      intros Hs; simpl in Hs; simplify_eq.
      rewrite (takeName_nil_startsWith s d n' Hn Hd).
      by rewrite (IH b' eq_refl).
    + intros Hs; simplify_eq.
      rewrite <- (takeName_dropName s) at 1. rewrite Hn.
      by rewrite startsWith_append.
  - rewrite Ascii.eqb_sym, Hc.
    destruct (splitParam s) as [[[b' n''] a']|] eqn:Hs'; [|by destruct (takeName s)].
    intros Hs.
    assert (Hb : b = String c b' ∧ n'' = String d n' ∧ a' = a)
      by (destruct (takeName s); simpl in Hs; simplify_eq; done).
    destruct Hb as (-> & -> & ->). by rewrite (IH b' eq_refl).
Qed.

Lemma take_append pre s : JS.take (String.length pre) (pre +:+ s) = pre.
Proof.
  induction pre as [|c pre IH]; [by destruct s|].
  rewrite append_cons. simpl. by rewrite IH.
Qed.

Lemma substr_from_add s n m :
  JS.substr_from s (n + m) = JS.substr_from (JS.substr_from s n) m.
Proof.
  revert s. induction n as [|n IH]; intros s; [by rewrite substr_from_0|].
  destruct s as [|c s]; simpl; [by destruct m|]. apply IH.
Qed.

Lemma replace_splitParam s b n a :
  splitParam s = Some (b, n, a) →
  JS.replace s (String ":" n) captureGroup = (b +:+ captureGroup) +:+ a.
Proof.
  intros Hs. unfold JS.replace. rewrite (find_splitParam _ _ _ _ Hs).
  rewrite (splitParam_eq _ _ _ _ Hs) at 1 2.
  rewrite take_append, substr_from_add, substr_from_append.
  change (String ":" (n +:+ a)) with (String ":" n +:+ a).
  rewrite substr_from_append. by rewrite append_assoc.
Qed.

Lemma takeName_nil_replaced r b n a x :
  splitParam r = Some (b, n, a) → takeName r = "" →
  takeName (b +:+ (captureGroup +:+ x)) = "".
Proof.
  intros Hs Hn. rewrite (splitParam_eq _ _ _ _ Hs) in Hn.
  destruct b as [|d b]; [done|].
  rewrite append_cons in Hn |- *. simpl in Hn |- *.
  by destruct (isNameChar d).
Qed.

Lemma splitParam_captureGroup x :
  splitParam (captureGroup +:+ x)
  = (fun '(b, n, a) => (captureGroup +:+ b, n, a)) <$> splitParam x.
Proof.
  unfold captureGroup. rewrite !append_cons, append_nil_l. cbn [splitParam].
  destruct (splitParam x) as [[[??]?]|]; reflexivity.
Qed.

Lemma splitParam_replaced s : ∀ b n a x,
  splitParam s = Some (b, n, a) →
  splitParam (b +:+ (captureGroup +:+ x))
  = (fun '(b', n', a') => (b +:+ (captureGroup +:+ b'), n', a')) <$> splitParam x.
Proof.
  induction s as [|c s IH]; intros b n a x; [done|]. cbn [splitParam].
  assert (Hrec : ∀ b',
    (fun '(b, n, a) => (String c b, n, a)) <$> splitParam s = Some (b, n, a) →
    (Ascii.eqb c ":" = true → takeName s = "") →
    b = String c b' →
    splitParam (b +:+ (captureGroup +:+ x))
    = (fun '(b', n', a') => (b +:+ (captureGroup +:+ b'), n', a')) <$> splitParam x).
  { intros b' Hs Hn ->.
    destruct (splitParam s) as [[[b'' n''] a'']|] eqn:Hs'; simpl in Hs; simplify_eq.
    rewrite append_cons. cbn [splitParam].
    rewrite (IH _ _ _ x eq_refl).
    destruct (Ascii.eqb c ":") eqn:Hc.
    - rewrite (takeName_nil_replaced _ _ _ _ x Hs' (Hn eq_refl)).
      by destruct (splitParam x) as [[[??]?]|].
    - by destruct (splitParam x) as [[[??]?]|]. }
  destruct (Ascii.eqb c ":") eqn:Hc.
  - destruct (takeName s) eqn:Hn.
    + intros Hs. destruct (splitParam s) as [[[b' ?] ?]|] eqn:Hs'; [|done].
      apply (Hrec b'); [exact Hs|done|simpl in Hs; congruence].
    + intros Hs; simplify_eq. rewrite append_nil_l.
      rewrite splitParam_captureGroup. by destruct (splitParam x) as [[[??]?]|].
  - intros Hs.
    assert (Hs2 : (fun '(b, n, a) => (String c b, n, a)) <$> splitParam s = Some (b, n, a))
      by (by destruct (takeName s)).
    destruct (splitParam s) as [[[b' ?] ?]|] eqn:Hs'; [|done].
    apply (Hrec b'); [exact Hs2|done|simpl in Hs2; congruence].
Qed.

Lemma inert_nil : inert "".
Proof. intros x. rewrite append_nil_l. by destruct (splitParam x) as [[[??]?]|]. Qed.

Lemma inert_replaced done rest b n a :
  inert done → splitParam rest = Some (b, n, a) →
  inert ((done +:+ b) +:+ captureGroup).
Proof.
  intros Hd Hs x. rewrite !append_assoc, Hd.
  rewrite (splitParam_replaced _ _ _ _ x Hs).
  destruct (splitParam x) as [[[b' n'] a']|]; simpl; [|done].
  by rewrite !append_assoc.
Qed.

(** ** The parameter list against the tokens of the pattern *)

Lemma tokensFrom_Some r : ∀ name,
  tokensFrom (Some name) r
  = tokenOf (name +:+ takeName r) ++ tokensFrom None (dropName r).
Proof.
  induction r as [|c r IH]; intros name.
  - simpl. by rewrite append_nil_r, app_nil_r.
  - cbn [tokensFrom takeName dropName]. destruct (isNameChar c) eqn:Hc.
    + rewrite IH. rewrite append_assoc. by rewrite append_cons, append_nil_l.
    + rewrite append_nil_r. cbn [tokensFrom]. by rewrite Hc.
Qed.

Lemma isNameChar_colon c : Ascii.eqb c ":" = true → isNameChar c = false.
Proof. intros ->%Ascii.eqb_eq. reflexivity. Qed.

Lemma paramTokens_cons c r :
  paramTokens (String c r)
  = if Ascii.eqb c ":"
    then tokenOf (takeName r) ++ paramTokens (dropName r)
    else paramTokens r.
Proof.
  unfold paramTokens. cbn [tokensFrom].
  destruct (Ascii.eqb c ":") eqn:Hc.
  - rewrite (isNameChar_colon c Hc). simpl. by rewrite tokensFrom_Some.
  - by destruct (isNameChar c).
Qed.

Lemma paramTokens_splitParam s :
  paramTokens s
  = match splitParam s with
    | Some (_, n, a) => n :: paramTokens a
    | None => []
    end.
Proof.
  induction s as [|c s IH]; [done|].
  rewrite paramTokens_cons. cbn [splitParam].
  destruct (Ascii.eqb c ":").
  - destruct (takeName s) eqn:Hn; [|done].
    simpl. rewrite (takeName_nil_dropName s Hn), IH.
    by destruct (splitParam s) as [[[??]?]|].
  - rewrite IH. by destruct (splitParam s) as [[[??]?]|].
Qed.

Lemma length_splitParam s b n a :
  splitParam s = Some (b, n, a) → String.length a < String.length s.
Proof.
  intros Hs. rewrite (splitParam_eq _ _ _ _ Hs).
  rewrite length_append. simpl. rewrite length_append. lia.
Qed.

(** The loop of [_compileRoute] from a route text [done +:+ rest] whose part
    [done] is settled: it ends, having pushed the tokens of [rest]. *)
Lemma compileLoop_spec fuel : ∀ rest done ps,
  inert done → String.length rest < fuel →
  ∃ route', compileLoop fuel (done +:+ rest) ps = Ok (route', ps ++ paramTokens rest).
Proof.
  induction fuel as [|fuel IH]; intros rest done ps Hd Hfuel; [lia|].
  cbn [compileLoop]. rewrite execParam_splitParam, Hd, paramTokens_splitParam.
  destruct (splitParam rest) as [[[b n] a]|] eqn:Hs; simpl.
  - assert (Hs' : splitParam (done +:+ rest) = Some (done +:+ b, n, a))
      by (by rewrite Hd, Hs).
    rewrite (replace_splitParam _ _ _ _ Hs').
    destruct (IH a ((done +:+ b) +:+ captureGroup) (ps ++ [n])) as [route' Hr].
    + by eapply inert_replaced.
    + pose proof (length_splitParam _ _ _ _ Hs). lia.
    + exists route'. rewrite Hr. by rewrite <- app_assoc.
  - eexists. by rewrite app_nil_r.
Qed.

Lemma _compileRoute_spec route :
  ∃ regex, _compileRoute route = Ok (paramTokens route, regex).
Proof.
  unfold _compileRoute.
  destruct (compileLoop_spec (S (String.length route)) route "" []) as [route' Hr];
    [apply inert_nil|lia|].
  rewrite append_nil_l in Hr. rewrite Hr. simpl. by eexists.
Qed.

Lemma newRoute_spec route :
  ∃ regex, newRoute route = Ok (MkRoute regex route (paramTokens route) None false false ∅).
Proof.
  unfold newRoute. destruct (_compileRoute_spec route) as [regex ->]. by eexists.
Qed.

(* ===================================================================== *)
(** * Stable sorting by compiled length *)
(* ===================================================================== *)

Lemma filter_none {A} (P : A → Prop) `{∀ x, Decision (P x)} (l : list A) :
  Forall (fun x => ¬ P x) l → filter P l = [].
Proof.
  induction 1 as [|x l Hx _ IH]; [done|]. by rewrite filter_cons_False.
Qed.

Section stable_sort.
Context {A : Type} (f : A → nat).

Lemma insertKey_Permutation x l : insertKey f x l ≡ₚ x :: l.
Proof.
  induction l as [|y l IH]; [done|]. simpl.
  destruct (f x <? f y); [done|]. rewrite IH. apply Permutation_swap.
Qed.

Lemma insertKey_elem_of x l y : y ∈ insertKey f x l ↔ y = x ∨ y ∈ l.
Proof. rewrite insertKey_Permutation. apply elem_of_cons. Qed.

Lemma insertKey_sorted x l :
  StronglySorted (leKey f) l → StronglySorted (leKey f) (insertKey f x l).
Proof.
  induction l as [|y l IH]; intros Hl; simpl.
  - repeat constructor.
  - apply StronglySorted_cons in Hl as [Hy Hl].
    destruct (f x <? f y) eqn:Hxy.
    + apply Nat.ltb_lt in Hxy. apply StronglySorted_cons. split.
      * constructor; [unfold leKey; lia|].
        eapply Forall_impl; [exact Hy|]. unfold leKey. intros; simpl in *; lia.
      * by apply StronglySorted_cons.
    + apply Nat.ltb_ge in Hxy. apply StronglySorted_cons. split; [|by apply IH].
      apply Forall_forall. intros z [->|Hz]%insertKey_elem_of; [done|].
      by eapply Forall_forall in Hy.
Qed.

(** Stability: among the elements of one key value, the new element comes
    last. *)
Lemma insertKey_filter n x l :
  StronglySorted (leKey f) l →
  filter (fun y => f y = n) (insertKey f x l) = filter (fun y => f y = n) (l ++ [x]).
Proof.
  induction l as [|y l IH]; intros Hl; [done|]. simpl.
  apply StronglySorted_cons in Hl as [Hy Hl].
  destruct (f x <? f y) eqn:Hxy.
  - apply Nat.ltb_lt in Hxy.
    rewrite (filter_cons _ x), (filter_cons _ y (l ++ [x])), filter_app.
    rewrite (filter_cons _ y l), (filter_cons _ x []), filter_nil.
    destruct (decide (f x = n)) as [Hx|Hx]; [|by rewrite app_nil_r].
    destruct (decide (f y = n)); [lia|].
    assert (Hnil : filter (fun y => f y = n) l = []).
    { apply filter_none, Forall_forall. intros z Hz.
      eapply Forall_forall in Hy; [|done]. unfold leKey in Hy. lia. }
    by rewrite Hnil.
  - rewrite !(filter_cons _ y), IH by done. by destruct (decide (f y = n)).
Qed.

(** Inserting a maximal element appends it. *)
Lemma insertKey_last x l : Forall (fun y => f y ≤ f x) l → insertKey f x l = l ++ [x].
Proof.
  induction 1 as [|y l Hy _ IH]; [done|]. simpl.
  destruct (f x <? f y) eqn:Hxy; [apply Nat.ltb_lt in Hxy; lia|]. by rewrite IH.
Qed.

Lemma sortKeys_snoc acc l x :
  sortKeys f acc (l ++ [x]) = insertKey f x (sortKeys f acc l).
Proof. unfold sortKeys. by rewrite foldl_app. Qed.

Lemma sortKeys_app acc l k :
  sortKeys f acc (l ++ k) = sortKeys f (sortKeys f acc l) k.
Proof. unfold sortKeys. by rewrite foldl_app. Qed.

Lemma sortKeys_Permutation l : ∀ acc, sortKeys f acc l ≡ₚ acc ++ l.
Proof.
  induction l as [|x l IH]; intros acc; simpl; [by rewrite app_nil_r|].
  change (sortKeys f acc (x :: l)) with (sortKeys f (insertKey f x acc) l).
  rewrite IH, insertKey_Permutation. simpl. apply Permutation_middle.
Qed.

Lemma sortKeys_sorted l : ∀ acc,
  StronglySorted (leKey f) acc → StronglySorted (leKey f) (sortKeys f acc l).
Proof.
  induction l as [|x l IH]; intros acc Hacc; [done|].
  apply IH. by apply insertKey_sorted.
Qed.

Lemma sortKeys_filter n l : ∀ acc,
  StronglySorted (leKey f) acc →
  filter (fun y => f y = n) (sortKeys f acc l) = filter (fun y => f y = n) (acc ++ l).
Proof.
  induction l as [|x l IH]; intros acc Hacc; [by rewrite app_nil_r|].
  change (sortKeys f acc (x :: l)) with (sortKeys f (insertKey f x acc) l).
  rewrite IH by (by apply insertKey_sorted).
  rewrite !filter_app, insertKey_filter by done.
  rewrite filter_app, <- app_assoc. f_equal.
  by rewrite <- filter_app.
Qed.

(** Sorting what is sorted changes nothing. *)
Lemma sortKeys_sorted_id l : ∀ acc,
  StronglySorted (leKey f) (acc ++ l) → sortKeys f acc l = acc ++ l.
Proof.
  induction l as [|x l IH]; intros acc Hs; [by rewrite app_nil_r|].
  change (sortKeys f acc (x :: l)) with (sortKeys f (insertKey f x acc) l).
  assert (Hacc : Forall (fun y => f y ≤ f x) acc).
  { apply Forall_forall. intros y Hy.
    apply (StronglySorted_app_1_elem_of _ _ _ y x Hs Hy). left. }
  rewrite insertKey_last by done.
  rewrite IH; rewrite <- app_assoc; done.
Qed.

End stable_sort.

Lemma insertKey_ext {A} (f g : A → nat) x l :
  (∀ y, y ∈ x :: l → f y = g y) → insertKey f x l = insertKey g x l.
Proof.
  induction l as [|y l IH]; intros H; [done|]. simpl.
  rewrite (H x) by left. rewrite (H y) by (right; left).
  rewrite IH; [done|]. intros z [->|Hz]%elem_of_cons; apply H; [left|by do 2 right].
Qed.

Lemma sortKeys_ext {A} (f g : A → nat) l : ∀ acc,
  (∀ y, y ∈ acc ++ l → f y = g y) → sortKeys f acc l = sortKeys g acc l.
Proof.
  induction l as [|x l IH]; intros acc H; [done|].
  change (sortKeys f (insertKey f x acc) l = sortKeys g (insertKey g x acc) l).
  rewrite (insertKey_ext f g).
  2:{ intros y Hy. apply H. rewrite elem_of_app.
      apply elem_of_cons in Hy as [->|Hy]; [right; left|by left]. }
  apply IH. intros y Hy. apply H.
  rewrite elem_of_app, insertKey_elem_of in Hy. rewrite elem_of_app, elem_of_cons.
  tauto.
Qed.

(** ** The comparator of the table *)

Lemma compareRoutes_Ok st a b :
  is_Some (routes st !! a) → is_Some (routes st !! b) →
  compareRoutes st a b
  = Ok (Z.of_nat (regexLength st a) - Z.of_nat (regexLength st b))%Z.
Proof.
  intros [ra Ha] [rb Hb]. unfold compareRoutes, regexLength. by rewrite Ha, Hb.
Qed.

Lemma sortInsert_compare st x l :
  (∀ y, y ∈ x :: l → is_Some (routes st !! y)) →
  sortInsert (compareRoutes st) x l = Ok (insertKey (regexLength st) x l).
Proof.
  induction l as [|y l IH]; intros H; [done|]. simpl.
  rewrite compareRoutes_Ok by (apply H; first [by right; left|by left]). simpl.
  replace (0 <? Z.of_nat (regexLength st y) - Z.of_nat (regexLength st x))%Z
    with (regexLength st x <? regexLength st y).
  2:{ destruct (Nat.ltb_spec (regexLength st x) (regexLength st y));
      symmetry; [apply Z.ltb_lt|apply Z.ltb_ge]; lia. }
  destruct (regexLength st x <? regexLength st y); [done|].
  rewrite IH; [done|].
  intros z [->|Hz]%elem_of_cons; apply H; [left|by do 2 right].
Qed.

Lemma sortInto_compare st l : ∀ acc,
  (∀ y, y ∈ acc ++ l → is_Some (routes st !! y)) →
  sortInto (compareRoutes st) acc l = Ok (sortKeys (regexLength st) acc l).
Proof.
  induction l as [|x l IH]; intros acc H; [done|]. simpl.
  rewrite sortInsert_compare.
  2:{ intros y Hy. apply H. rewrite elem_of_app.
      apply elem_of_cons in Hy as [->|Hy]; [right; left|by left]. }
  simpl. apply IH. intros y Hy. apply H.
  rewrite elem_of_app, insertKey_elem_of in Hy. rewrite elem_of_app, elem_of_cons.
  tauto.
Qed.

Lemma sortRoutes_Ok st :
  tableOk st →
  sortRoutes st
  = Ok (setSortedRoutes (sortKeys (regexLength st) [] (sortedRoutes st)) st).
Proof.
  intros H. unfold sortRoutes, jsSort.
  rewrite sortInto_compare; [done|]. intros y Hy. by apply H.
Qed.

(* ===================================================================== *)
(** * The route table: order and membership *)
(* ===================================================================== *)

Lemma onRoute_Ok key f st r :
  routes st !! key = Some r → onRoute key f st = Ok (setRoutes <[key := f r]> st).
Proof. intros H. unfold onRoute. by rewrite H. Qed.

Lemma keepsRegex_addHandler h u : keepsRegex (addHandler h u).
Proof. done. Qed.

Lemma keepsRegex_removeHandler h u : keepsRegex (removeHandler h u).
Proof. done. Qed.

Lemma regexLength_update key f st r k :
  routes st !! key = Some r → keepsRegex f →
  regexLength (setRoutes <[key := f r]> st) k = regexLength st k.
Proof.
  intros Hr Hf. unfold regexLength. simpl.
  destruct (decide (key = k)) as [->|Hne].
  - by rewrite lookup_insert_eq, Hr, Hf.
  - by rewrite lookup_insert_ne.
Qed.

Lemma is_Some_update key (f : Route → Route) (m : gmap string Route) r k :
  m !! key = Some r → is_Some (<[key := f r]> m !! k) ↔ is_Some (m !! k).
Proof.
  intros Hr. destruct (decide (key = k)) as [->|Hne].
  - rewrite lookup_insert_eq, Hr. split; eauto.
  - by rewrite lookup_insert_ne.
Qed.

(** Registering or removing a handler keeps the table as it is. *)
Lemma tablePending_update key f st r hist news :
  routes st !! key = Some r → keepsRegex f →
  tablePending st hist news →
  tablePending (setRoutes <[key := f r]> st) hist news.
Proof.
  intros Hr Hf [Hnd Hkeys Hord]. split; [done|..].
  - intros k. rewrite Hkeys. simpl. by rewrite is_Some_update.
  - simpl. rewrite Hord. f_equal. apply sortKeys_ext.
    intros y _. symmetry. by apply regexLength_update.
Qed.

Lemma regexLength_create route r st k :
  routes st !! route = None → is_Some (routes st !! k) →
  regexLength (setSortedRoutes (sortedRoutes st ++ [route])
                 (setRoutes <[route := r]> st)) k
  = regexLength st k.
Proof.
  intros Hnew [rk Hk]. unfold regexLength. simpl.
  rewrite lookup_insert_ne; [done|]. intros ->. congruence.
Qed.

(** Creating a route pushes it behind the pending ones. *)
Lemma createRoute_pending route st hist news :
  routes st !! route = None → tablePending st hist news →
  ∃ st', createRoute route st = Ok st'
         ∧ tablePending st' hist (news ++ [route]).
Proof.
  intros Hnew [Hnd Hkeys Hord]. unfold createRoute.
  destruct (newRoute_spec route) as [regex ->]. simpl.
  eexists; split; [done|].
  assert (Hfresh : route ∉ hist ++ news).
  { rewrite Hkeys, Hnew. by intros [? ?]. }
  split.
  - rewrite app_assoc. apply NoDup_app. split; [done|].
    split; [|apply NoDup_singleton].
    intros k Hk ->%list_elem_of_singleton. done.
  - intros k. simpl. rewrite app_assoc, elem_of_app, list_elem_of_singleton, Hkeys.
    destruct (decide (route = k)) as [->|Hne].
    + rewrite lookup_insert_eq. split; eauto.
    + rewrite lookup_insert_ne by done. split; [intros [?|?]; [done|congruence]|auto].
  - simpl. rewrite Hord, app_assoc. do 2 f_equal. apply sortKeys_ext.
    intros y Hy. symmetry. apply regexLength_create; [done|].
    apply Hkeys. rewrite elem_of_app. by left.
Qed.

Lemma tablePending_tableOk st hist news : tablePending st hist news → tableOk st.
Proof.
  intros [_ Hkeys Hord] k Hk. apply Hkeys. rewrite Hord in Hk.
  rewrite elem_of_app in Hk |- *.
  destruct Hk as [Hk|Hk]; [left|by right].
  by rewrite sortKeys_Permutation in Hk.
Qed.

(** The sort puts the pending routes in place. *)
Lemma sortRoutes_pending st hist news :
  tablePending st hist news →
  ∃ st', sortRoutes st = Ok st'
         ∧ routes st' = routes st
         ∧ tableInv st' (hist ++ news).
Proof.
  intros Hp. rewrite sortRoutes_Ok by (by eapply tablePending_tableOk).
  eexists; split; [done|]. split; [done|].
  destruct Hp as [Hnd Hkeys Hord]. split; rewrite ?app_nil_r; [done|done|].
  cbn [sortedRoutes setSortedRoutes]. rewrite Hord.
  change (regexLength (setSortedRoutes _ st)) with (regexLength st).
  rewrite sortKeys_app.
  rewrite (sortKeys_sorted_id _ (sortKeys _ [] hist) []).
  - simpl. by rewrite <- sortKeys_app.
  - apply sortKeys_sorted. constructor.
Qed.

Lemma tablePending_ext st st' hist news :
  routes st' = routes st → sortedRoutes st' = sortedRoutes st →
  tablePending st hist news → tablePending st' hist news.
Proof.
  intros Hr Ho [Hnd Hkeys Hord]. split; [done|..].
  - intros k. by rewrite Hr.
  - rewrite Ho, Hord. f_equal. apply sortKeys_ext.
    intros y _. unfold regexLength. by rewrite Hr.
Qed.

Lemma onRoute_pending key f st hist news :
  key ∈ hist ++ news → keepsRegex f → tablePending st hist news →
  ∃ st', onRoute key f st = Ok st' ∧ tablePending st' hist news.
Proof.
  intros Hk Hf Hp. destruct (proj1 (pending_keys _ _ _ Hp key) Hk) as [r Hr].
  rewrite (onRoute_Ok _ _ _ _ Hr). eexists; split; [done|].
  by apply tablePending_update.
Qed.

Lemma firstSeen_app seen l k :
  firstSeen seen (l ++ k) = firstSeen (firstSeen seen l) k.
Proof. unfold firstSeen. by rewrite foldl_app. Qed.

Lemma firstSeen_cons seen k l :
  firstSeen seen (k :: l)
  = firstSeen (if decide (k ∈ seen) then seen else seen ++ [k]) l.
Proof. reflexivity. Qed.

Lemma hasRoute_Some st k r : routes st !! k = Some r → hasRoute st k = true.
Proof. intros H. unfold hasRoute. by rewrite H. Qed.

Lemma hasRoute_None st k : routes st !! k = None → hasRoute st k = inheritedKey k.
Proof. intros H. unfold hasRoute. by rewrite H. Qed.

Lemma hasRoute_false st key :
  hasRoute st key = false → routes st !! key = None ∧ inheritedKey key = false.
Proof. unfold hasRoute. by destruct (routes st !! key). Qed.

Lemma own_keys_cons i (h : handler) l :
  forallb (fun kh : string * handler => negb (inheritedKey kh.1)) ((i, h) :: l) = true →
  inheritedKey i = false
  ∧ forallb (fun kh : string * handler => negb (inheritedKey kh.1)) l = true.
Proof.
  cbn [forallb fst]. intros [H1 H2]%andb_true_iff. by apply negb_true_iff in H1.
Qed.

Lemma addRoute_handlers route h (u : option handler) st hist :
  route ∈ hist → tableInv st hist →
  ∃ st', match u with
         | Some u' =>
             st2 ← onRoute route (addHandler h false) st;
             onRoute route (addHandler u' true) st2
         | None => onRoute route (addHandler h false) st
         end = Ok st'
         ∧ tableInv st' hist.
Proof.
  intros Hin Hinv.
  assert (Hin' : route ∈ hist ++ []) by (by rewrite app_nil_r).
  destruct u as [u|].
  - destruct (onRoute_pending route (addHandler h false) st _ [] Hin'
                (keepsRegex_addHandler _ _) Hinv) as (st2 & -> & Hinv2).
    cbn [mbind result_bind].
    exact (onRoute_pending route (addHandler u true) st2 _ [] Hin'
             (keepsRegex_addHandler _ _) Hinv2).
  - exact (onRoute_pending route (addHandler h false) st _ [] Hin'
             (keepsRegex_addHandler _ _) Hinv).
Qed.

Lemma addRoute_inv route h u st hist :
  inheritedKey route = false → tableInv st hist →
  ∃ st', addRoute route h u st = Ok st' ∧ tableInv st' (firstSeen hist [route]).
Proof.
  intros Hown Hinv. unfold addRoute. rewrite firstSeen_cons. cbn [firstSeen foldl].
  pose proof (pending_keys _ _ _ Hinv route) as Hk. rewrite app_nil_r in Hk.
  destruct (routes st !! route) as [r|] eqn:Hr.
  - rewrite (hasRoute_Some _ _ _ Hr).
    rewrite decide_True by (apply Hk; eauto). cbn [mbind result_bind].
    apply addRoute_handlers; [apply Hk; eauto|done].
  - rewrite (hasRoute_None _ _ Hr), Hown.
    rewrite decide_False by (rewrite Hk; by intros [? ?]).
    destruct (createRoute_pending route st hist [] Hr Hinv) as (st1 & -> & Hp).
    cbn [mbind result_bind].
    destruct (sortRoutes_pending _ _ _ Hp) as (st2 & -> & _ & Hinv2).
    cbn [mbind result_bind].
    apply addRoute_handlers; [|done].
    rewrite elem_of_app, list_elem_of_singleton. by right.
Qed.

Lemma addRoutesLoop_pending hist l : ∀ st news,
  forallb (fun kh => negb (inheritedKey kh.1)) l = true →
  tablePending st hist news →
  ∃ st' news', addRoutesLoop l st = Ok st'
    ∧ firstSeen (hist ++ news) l.*1 = hist ++ news'
    ∧ tablePending st' hist news'.
Proof.
  induction l as [|[i h] l IH]; intros st news Hown Hp.
  - exists st, news. by split.
  - apply own_keys_cons in Hown as [Hi Hown].
    cbn [addRoutesLoop fmap list_fmap fst]. rewrite firstSeen_cons.
    pose proof (pending_keys _ _ _ Hp i) as Hk.
    destruct (routes st !! i) as [r|] eqn:Hr.
    + rewrite (hasRoute_Some _ _ _ Hr).
      rewrite decide_True by (apply Hk; eauto). cbn [mbind result_bind].
      destruct (onRoute_pending i (addHandler h false) st hist news)
        as (st2 & -> & Hp2); [apply Hk; eauto|done|done|].
      cbn [mbind result_bind]. by apply IH.
    + rewrite (hasRoute_None _ _ Hr), Hi.
      rewrite decide_False by (rewrite Hk; by intros [? ?]).
      destruct (createRoute_pending i st hist news Hr Hp) as (st1 & -> & Hp1).
      cbn [mbind result_bind].
      destruct (onRoute_pending i (addHandler h false) st1 hist (news ++ [i]))
        as (st2 & -> & Hp2); [|done|done|].
      { rewrite !elem_of_app, list_elem_of_singleton. auto. }
      cbn [mbind result_bind]. rewrite <- app_assoc. by apply IH.
Qed.

Lemma addRoutes_inv l st hist :
  forallb (fun kh => negb (inheritedKey kh.1)) l = true →
  tableInv st hist →
  ∃ st', addRoutes l st = Ok st' ∧ tableInv st' (firstSeen hist l.*1).
Proof.
  intros Hown Hinv. unfold addRoutes.
  destruct (addRoutesLoop_pending hist l st [] Hown Hinv)
    as (st1 & news & -> & Hseen & Hp).
  rewrite app_nil_r in Hseen. rewrite Hseen. cbn [mbind result_bind].
  destruct (sortRoutes_pending _ _ _ Hp) as (st2 & -> & _ & Hinv2). eauto.
Qed.

Lemma removeRoute_pending route h u st hist news :
  inheritedKey route = false ∨ is_Some (routes st !! route) →
  tablePending st hist news →
  ∃ st', removeRoute route h u st = Ok st' ∧ tablePending st' hist news.
Proof.
  intros Hown Hp. unfold removeRoute.
  destruct (routes st !! route) as [r|] eqn:Hr.
  2:{ rewrite (hasRoute_None _ _ Hr). destruct Hown as [->|[? ?]]; [eauto|done]. }
  rewrite (hasRoute_Some _ _ _ Hr).
  assert (Hin : route ∈ hist ++ news) by (apply (pending_keys _ _ _ Hp); eauto).
  destruct u as [u|].
  - destruct (onRoute_pending route (removeHandler h false) st hist news)
      as (st1 & -> & Hp1); [done..|].
    cbn [mbind result_bind]. by apply onRoute_pending.
  - by apply onRoute_pending.
Qed.

Lemma removeRoutes_pending hist news l : ∀ st,
  forallb (fun kh => negb (inheritedKey kh.1)) l = true →
  tablePending st hist news →
  ∃ st', removeRoutes l st = Ok st' ∧ tablePending st' hist news.
Proof.
  induction l as [|[i h] l IH]; intros st Hown Hp; [by exists st|].
  apply own_keys_cons in Hown as [Hi Hown].
  cbn [removeRoutes]. destruct (routes st !! i) as [r|] eqn:Hr.
  2:{ rewrite (hasRoute_None _ _ Hr), Hi. by apply IH. }
  rewrite (hasRoute_Some _ _ _ Hr).
  destruct (onRoute_pending i (removeHandler h false) st hist news)
    as (st1 & -> & Hp1); [apply (pending_keys _ _ _ Hp); eauto|done|done|].
  cbn [mbind result_bind]. by apply IH.
Qed.

Lemma setRoute_table route silent st :
  ∃ st', setRoute route silent st = Ok st'
    ∧ routes st' = routes st ∧ sortedRoutes st' = sortedRoutes st
    ∧ location st' = location st.
Proof.
  unfold setRoute.
  destruct (realLocation_total (location st) route None) as [loc ->].
  cbn [mbind result_bind].
  destruct (String.eqb loc (location st)); [by eexists|].
  eexists; split; [done|]. by destruct silent.
Qed.

Lemma runAction_inv a st hist :
  tableInv st hist →
  ∃ st', runAction a st = Ok st' ∧ tableInv st' (firstSeen hist (namedRoutes a)).
Proof.
  intros Hinv. destruct a as [route own h u|l own|route own h u|l own|route silent]; simpl.
  - by apply addRoute_inv.
  - by apply addRoutes_inv.
  - apply removeRoute_pending; [by left|done].
  - by apply removeRoutes_pending.
  - destruct (setRoute_table route silent st) as (st' & -> & Hr & Ho & _).
    eexists; split; [done|]. by eapply tablePending_ext.
Qed.

Lemma runActions_inv calls : ∀ st hist,
  tableInv st hist →
  ∃ st', runActions calls st = Ok st'
    ∧ tableInv st' (firstSeen hist (calls ≫= namedRoutes)).
Proof.
  induction calls as [|a calls IH]; intros st hist Hinv; [by exists st|].
  cbn [runActions]. destruct (runAction_inv a st hist Hinv) as (st1 & -> & Hinv1).
  cbn [mbind result_bind]. rewrite bind_cons, firstSeen_app. by apply IH.
Qed.

Lemma tableInv_empty : tableInv emptyRouter [].
Proof.
  split; simpl.
  - constructor.
  - intros k. rewrite lookup_empty. split; [by intros ?%elem_of_nil|by intros [? ?]].
  - done.
Qed.

(** Removing handlers touches neither the order sequence nor the keys. *)
Lemma onRoute_keeps key f st st' :
  onRoute key f st = Ok st' →
  sortedRoutes st' = sortedRoutes st ∧ dom (routes st') = dom (routes st).
Proof.
  unfold onRoute. destruct (routes st !! key) as [r|] eqn:Hr; [|done].
  intros [= <-]. split; [done|]. simpl. apply dom_insert_lookup_L. eauto.
Qed.

Lemma removeRoute_keeps route h u st :
  inheritedKey route = false ∨ is_Some (routes st !! route) →
  ∃ st', removeRoute route h u st = Ok st'
    ∧ sortedRoutes st' = sortedRoutes st ∧ dom (routes st') = dom (routes st).
Proof.
  intros Hown. unfold removeRoute. destruct (routes st !! route) as [r|] eqn:Hr.
  2:{ rewrite (hasRoute_None _ _ Hr). destruct Hown as [->|[? ?]]; [by eexists|done]. }
  rewrite (hasRoute_Some _ _ _ Hr), (onRoute_Ok _ _ _ _ Hr).
  assert (Hdom : dom (<[route := removeHandler h false r]> (routes st)) = dom (routes st)).
  { apply dom_insert_lookup_L. eauto. }
  destruct u as [u|]; [|by eexists].
  cbn [mbind result_bind].
  erewrite onRoute_Ok by (simpl; apply lookup_insert_eq).
  eexists; split; [done|]. split; [done|]. simpl.
  rewrite insert_insert_eq. apply dom_insert_lookup_L. eauto.
Qed.

Lemma removeRoutes_keeps l : ∀ st,
  forallb (fun kh => negb (inheritedKey kh.1)) l = true →
  ∃ st', removeRoutes l st = Ok st'
    ∧ sortedRoutes st' = sortedRoutes st ∧ dom (routes st') = dom (routes st).
Proof.
  induction l as [|[i h] l IH]; intros st Hown; [by eexists|].
  apply own_keys_cons in Hown as [Hi Hown].
  cbn [removeRoutes]. destruct (routes st !! i) as [r|] eqn:Hr.
  2:{ rewrite (hasRoute_None _ _ Hr), Hi. by apply IH. }
  rewrite (hasRoute_Some _ _ _ Hr), (onRoute_Ok _ _ _ _ Hr). cbn [mbind result_bind].
  destruct (IH (setRoutes <[i := removeHandler h false r]> st) Hown)
    as (st' & -> & Ho & Hd).
  eexists; split; [done|]. split; [done|]. rewrite Hd. simpl.
  apply dom_insert_lookup_L. eauto.
Qed.

(** C5 (as amended). After any sequence of [addRoute], [addRoutes],
    [removeRoute] and [removeRoutes] calls on an empty table that names no
    member inherited from [Object.prototype] as a route, every call has
    returned and the order sequence is a permutation of the keys of the
    route map, ascending in compiled length, with routes of equal length in
    order of creation; and removing handlers under such keys returns and
    keeps every key and every slot of the order sequence, whatever is left
    of the handler lists. *)
Theorem table_order_invariant (calls : list action) :
  (∃ st, runActions calls emptyRouter = Ok st
     ∧ sortedRoutes st ≡ₚ elements (dom (routes st))
     ∧ StronglySorted (shorterEq st) (sortedRoutes st)
     ∧ ∀ n, filter (fun k => regexLength st k = n) (sortedRoutes st)
            = filter (fun k => regexLength st k = n) (insertionOrder calls))
  ∧ (∀ st route h u, inheritedKey route = false →
       ∃ st', removeRoute route h u st = Ok st'
         ∧ sortedRoutes st' = sortedRoutes st ∧ dom (routes st') = dom (routes st))
  ∧ (∀ st l, forallb (fun kh => negb (inheritedKey kh.1)) l = true →
       ∃ st', removeRoutes l st = Ok st'
         ∧ sortedRoutes st' = sortedRoutes st ∧ dom (routes st') = dom (routes st)).
Proof.
  split; [|split; [intros; apply removeRoute_keeps; by left
                  |intros; by apply removeRoutes_keeps]].
  destruct (runActions_inv calls emptyRouter [] tableInv_empty) as (st & Hrun & Hinv).
  exists st. split; [done|].
  destruct Hinv as [Hnd Hkeys Hord]. rewrite app_nil_r in *.
  fold (insertionOrder calls) in *.
  split; [|split].
  - rewrite Hord, sortKeys_Permutation. simpl.
    apply NoDup_Permutation; [done|apply NoDup_elements|].
    intros k. by rewrite Hkeys, elem_of_elements, elem_of_dom.
  - rewrite Hord. apply (sortKeys_sorted (regexLength st)). constructor.
  - intros n. rewrite Hord.
    by rewrite (sortKeys_filter (regexLength st)) by constructor.
Qed.

Lemma table_order_invariant_witness :
  (∃ st', runActions [CallAddRoute "/abc" 1 None; CallAddRoutes [("/", 2); ("/b", 3)];
                      CallRemoveRoute "/" 2 None] emptyRouter = Ok st'
     ∧ sortedRoutes st' ≡ₚ elements (dom (routes st')))
  ∧ inheritedKey "/abc" = false
  ∧ ∃ st', removeRoute "/abc" 1 None (builtBy [CallAddRoute "/abc" 1 None]) = Ok st'
      ∧ sortedRoutes st' = sortedRoutes (builtBy [CallAddRoute "/abc" 1 None]).
Proof.
  destruct (table_order_invariant
              [CallAddRoute "/abc" 1 None; CallAddRoutes [("/", 2); ("/b", 3)];
               CallRemoveRoute "/" 2 None]) as [(st' & Hrun & Hperm & _) [Hrem _]].
  split; [by exists st'|]. split; [reflexivity|].
  destruct (Hrem (builtBy [CallAddRoute "/abc" 1 None]) "/abc" 1 None eq_refl)
    as (st1 & Hrun1 & Hord1 & _).
  by exists st1.
Defined.

(** The table of C5 as stated, on a key that the route map inherits from
    [Object.prototype]: [addRoute] and [removeRoute] with the route
    [constructor] raise; [addRoutes] with the map [/abc], [/],
    [constructor] raises at its third key, after the loop has pushed
    [/abc] and [/] in that order, the longer expression first, and before
    the sort. *)
Lemma table_order_inherited_key :
  addRoute "constructor" 1 None emptyRouter = Err TypeError
  ∧ removeRoute "constructor" 1 None emptyRouter = Err TypeError
  ∧ addRoutes [("/abc", 1); ("/", 2); ("constructor", 3)] emptyRouter = Err TypeError
  ∧ ∃ st, addRoutesLoop [("/abc", 1); ("/", 2)] emptyRouter = Ok st
      ∧ addRoutesLoop [("constructor", 3)] st = Err TypeError
      ∧ sortedRoutes st = ["/abc"; "/"]
      ∧ regexLength st "/" < regexLength st "/abc"
      ∧ ¬ StronglySorted (shorterEq st) (sortedRoutes st).
Proof.
  split; [vm_compute; reflexivity|].
  split; [vm_compute; reflexivity|].
  split; [vm_compute; reflexivity|].
  eexists. split; [vm_compute; reflexivity|].
  split; [vm_compute; reflexivity|].
  split; [vm_compute; reflexivity|].
  split; [vm_compute; lia|].
  intros H. inversion H as [|x l _ Hall]; subst.
  apply Forall_cons in Hall as [Hle _]. vm_compute in Hle. lia.
Qed.

(* ===================================================================== *)
(** * What handlers can change *)
(* ===================================================================== *)

Lemma sameCore_refl r : sameCore r r.
Proof. by repeat split. Qed.

Lemma sameCore_trans r1 r2 r3 : sameCore r1 r2 → sameCore r2 r3 → sameCore r1 r3.
Proof. unfold sameCore. intros (?&?&?&?&?&?) (?&?&?&?&?&?). repeat split; congruence. Qed.

Lemma handlerStep_refl st : handlerStep st st.
Proof.
  split; [done|]. split.
  - intros k r Hr. exists r. split; [done|apply sameCore_refl].
  - exists []. by rewrite app_nil_r.
Qed.

Lemma handlerStep_same st st' :
  routes st' = routes st → location st' = location st → trace st' = trace st →
  handlerStep st st'.
Proof.
  intros Hr Hl Ht. split; [done|]. split.
  - intros k r Hk. exists r. rewrite Hr. split; [done|apply sameCore_refl].
  - exists []. by rewrite app_nil_r.
Qed.

Lemma handlerStep_trans st1 st2 st3 :
  handlerStep st1 st2 → handlerStep st2 st3 → handlerStep st1 st3.
Proof.
  intros (Hl1 & Hr1 & t1 & Ht1 & Hn1) (Hl2 & Hr2 & t2 & Ht2 & Hn2).
  split; [congruence|]. split.
  - intros k r Hr. destruct (Hr1 k r Hr) as (r' & Hr' & Hc).
    destruct (Hr2 k r' Hr') as (r'' & Hr'' & Hc').
    exists r''. split; [done|]. by eapply sameCore_trans.
  - exists (t1 ++ t2). rewrite Ht2, Ht1, app_assoc. split; [done|].
    by apply Forall_app.
Qed.

Lemma handlerStep_emit e st : notDispatched e → handlerStep st (emit e st).
Proof.
  intros He. split; [done|]. split.
  - intros k r Hr. exists r. split; [done|apply sameCore_refl].
  - exists [e]. split; [done|]. by constructor.
Qed.

Lemma handlerStep_onRoute key f st st' :
  (∀ r, sameCore r (f r)) → onRoute key f st = Ok st' → handlerStep st st'.
Proof.
  intros Hf. unfold onRoute. destruct (routes st !! key) as [r|] eqn:Hr; [|done].
  intros [= <-]. split; [done|]. split.
  - intros k rk Hk. simpl. destruct (decide (key = k)) as [->|Hne].
    + rewrite lookup_insert_eq. exists (f r). split; [done|].
      rewrite Hr in Hk. injection Hk as <-. apply Hf.
    + rewrite lookup_insert_ne by done. exists rk. split; [done|apply sameCore_refl].
  - exists []. by rewrite app_nil_r.
Qed.

Lemma sameCore_addHandler h u r : sameCore r (addHandler h u r).
Proof. by repeat split. Qed.

Lemma sameCore_removeHandler h u r : sameCore r (removeHandler h u r).
Proof. by repeat split. Qed.

Lemma handlerStep_createRoute route st st' :
  routes st !! route = None → createRoute route st = Ok st' → handlerStep st st'.
Proof.
  intros Hnew. unfold createRoute. destruct (newRoute route) as [r|]; [|done].
  intros [= <-]. split; [done|]. split.
  - intros k rk Hk. simpl. exists rk. split; [|apply sameCore_refl].
    rewrite lookup_insert_ne; [done|]. intros ->. congruence.
  - exists []. by rewrite app_nil_r.
Qed.

Lemma handlerStep_sortRoutes st st' : sortRoutes st = Ok st' → handlerStep st st'.
Proof.
  unfold sortRoutes. destruct (jsSort _ _) as [l|]; [|done].
  intros [= <-]. by apply handlerStep_same.
Qed.

Lemma handlerStep_addRoute route h u st st' :
  addRoute route h u st = Ok st' → handlerStep st st'.
Proof.
  unfold addRoute. intros H. bind_inv H.
  assert (H1 : handlerStep st st0).
  { destruct (hasRoute st route) eqn:Hh.
    - injection E as <-. apply handlerStep_refl.
    - apply hasRoute_false in Hh as [Hr _].
      bind_inv E. eapply handlerStep_trans.
      + by eapply handlerStep_createRoute.
      + by eapply handlerStep_sortRoutes. }
  eapply handlerStep_trans; [exact H1|].
  destruct u as [u|].
  - bind_inv H. eapply handlerStep_trans;
      eapply handlerStep_onRoute; eauto using sameCore_addHandler.
  - eapply handlerStep_onRoute; eauto using sameCore_addHandler.
Qed.

Lemma handlerStep_addRoutesLoop l : ∀ st st',
  addRoutesLoop l st = Ok st' → handlerStep st st'.
Proof.
  induction l as [|[i h] l IH]; intros st st' H.
  - injection H as <-. apply handlerStep_refl.
  - cbn [addRoutesLoop] in H. bind_inv H. bind_inv H.
    eapply handlerStep_trans; [|eapply handlerStep_trans; [|by eapply IH]].
    + destruct (hasRoute st i) eqn:Hh.
      * injection E as <-. apply handlerStep_refl.
      * apply hasRoute_false in Hh as [Hr _]. by eapply handlerStep_createRoute.
    + eapply handlerStep_onRoute; eauto using sameCore_addHandler.
Qed.

Lemma handlerStep_addRoutes l st st' : addRoutes l st = Ok st' → handlerStep st st'.
Proof.
  unfold addRoutes. intros H. bind_inv H.
  eapply handlerStep_trans; [by eapply handlerStep_addRoutesLoop|].
  by eapply handlerStep_sortRoutes.
Qed.

Lemma handlerStep_removeRoute route h u st st' :
  removeRoute route h u st = Ok st' → handlerStep st st'.
Proof.
  unfold removeRoute. destruct (hasRoute st route).
  - destruct u as [u|]; intros H.
    + bind_inv H. eapply handlerStep_trans;
        eapply handlerStep_onRoute; eauto using sameCore_removeHandler.
    + eapply handlerStep_onRoute; eauto using sameCore_removeHandler.
  - intros [= <-]. apply handlerStep_refl.
Qed.

Lemma handlerStep_removeRoutes l : ∀ st st',
  removeRoutes l st = Ok st' → handlerStep st st'.
Proof.
  induction l as [|[i h] l IH]; intros st st' H.
  - injection H as <-. apply handlerStep_refl.
  - cbn [removeRoutes] in H. destruct (hasRoute st i); [|by apply IH].
    bind_inv H. eapply handlerStep_trans; [|by eapply IH].
    eapply handlerStep_onRoute; eauto using sameCore_removeHandler.
Qed.

Lemma handlerStep_setRoute route silent st st' :
  setRoute route silent st = Ok st' → handlerStep st st'.
Proof.
  unfold setRoute. intros H. bind_inv H.
  destruct (String.eqb st0 (location st)).
  - injection H as <-. apply handlerStep_refl.
  - injection H as <-. split; [by destruct silent|]. split.
    + intros k r Hr. exists r. split; [by destruct silent|apply sameCore_refl].
    + exists [HashAssigned st0]. split; [by destruct silent|]. by constructor.
Qed.

Lemma handlerStep_runAction a st st' : runAction a st = Ok st' → handlerStep st st'.
Proof.
  destruct a; simpl;
    eauto using handlerStep_addRoute, handlerStep_addRoutes, handlerStep_removeRoute,
      handlerStep_removeRoutes, handlerStep_setRoute.
Qed.

Lemma handlerStep_runActions l : ∀ st st',
  runActions l st = Ok st' → handlerStep st st'.
Proof.
  induction l as [|a l IH]; intros st st' H.
  - injection H as <-. apply handlerStep_refl.
  - cbn [runActions] in H. bind_inv H.
    eapply handlerStep_trans; [by eapply handlerStep_runAction|by eapply IH].
Qed.

Lemma routeStep_handlerStep key st st' : handlerStep st st' → routeStep key st st'.
Proof.
  intros (Hl & Hr & Ht). split; [done|]. split; [|done].
  intros k r Hk. destruct (Hr k r Hk) as (r' & Hr' & Hc).
  exists r'. split; [done|]. destruct Hc as (?&?&?&?&?&?).
  repeat split; auto.
Qed.

Lemma routeStep_trans key st1 st2 st3 :
  routeStep key st1 st2 → routeStep key st2 st3 → routeStep key st1 st3.
Proof.
  intros (Hl1 & Hr1 & t1 & Ht1 & Hn1) (Hl2 & Hr2 & t2 & Ht2 & Hn2).
  split; [congruence|]. split.
  - intros k r Hr. destruct (Hr1 k r Hr) as (r' & Hr' & Hx & Hp & Hc).
    destruct (Hr2 k r' Hr') as (r'' & Hr'' & Hx' & Hp' & Hc').
    exists r''. split; [done|]. split; [congruence|]. split; [congruence|].
    intros Hne. eapply sameCore_trans; eauto.
  - exists (t1 ++ t2). rewrite Ht2, Ht1, app_assoc. split; [done|].
    by apply Forall_app.
Qed.

Lemma routeStep_assign key f st : keepsPattern f → routeStep key st (assign key f st).
Proof.
  intros Hf. split; [done|]. split.
  - intros k r Hk. simpl. destruct (decide (key = k)) as [->|Hne].
    + rewrite lookup_alter_eq, Hk. exists (f r). split; [done|].
      destruct (Hf r) as (? & ? & _). by repeat split.
    + rewrite lookup_alter_ne by done. exists r.
      split; [done|]. split; [done|]. split; [done|]. intros _. apply sameCore_refl.
  - exists []. by rewrite app_nil_r.
Qed.

Lemma assign_lookup key f st r :
  routes st !! key = Some r → routes (assign key f st) !! key = Some (f r).
Proof. intros Hr. simpl. by rewrite lookup_alter_eq, Hr. Qed.

Lemma tablePending_assign key f st hist news :
  keepsPattern f → tablePending st hist news →
  tablePending (assign key f st) hist news.
Proof.
  intros Hf [Hnd Hkeys Hord]. split; [done|..].
  - intros k. rewrite Hkeys. simpl. by rewrite lookup_alter_is_Some.
  - simpl. rewrite Hord. f_equal. apply sortKeys_ext.
    intros y _. unfold regexLength. simpl.
    destruct (decide (key = y)) as [->|Hne].
    + rewrite lookup_alter_eq. destruct (routes st !! y) as [r|]; [|done].
      simpl. by destruct (Hf r) as (-> & _).
    + by rewrite lookup_alter_ne.
Qed.

Lemma keepsPattern_setSArgs s : keepsPattern (setSArgs s).
Proof. done. Qed.

Lemma keepsPattern_setActive b : keepsPattern (setActive b).
Proof. done. Qed.

Lemma keepsPattern_setChanged b : keepsPattern (setChanged b).
Proof. done. Qed.

Lemma keepsKeys_routeStep key st st' : routeStep key st st' → keepsKeys st st'.
Proof.
  intros (_ & Hr & _) k [r Hk]. destruct (Hr k r Hk) as (r' & -> & _). eauto.
Qed.

Lemma quietScript_keepsKeys script st st' :
  keepsKeys st st' → quietScript script st → quietScript script st'.
Proof. intros Hk Hq h name a k Hin. apply Hk. by eapply Hq. Qed.

Lemma firstSeen_id seen l : (∀ k, k ∈ l → k ∈ seen) → firstSeen seen l = seen.
Proof.
  induction l as [|k l IH]; intros H; [done|].
  rewrite firstSeen_cons, decide_True by (apply H; left).
  apply IH. intros k' Hk'. apply H. by right.
Qed.

Lemma tableInv_keys st hist k :
  tableInv st hist → k ∈ hist ↔ is_Some (routes st !! k).
Proof. intros H. rewrite <- (pending_keys _ _ _ H). by rewrite app_nil_r. Qed.

Lemma firstSeen_prefix l : ∀ seen, seen `prefix_of` firstSeen seen l.
Proof.
  induction l as [|k l IH]; intros seen; [done|].
  rewrite firstSeen_cons. destruct (decide (k ∈ seen)); [apply IH|].
  etrans; [|apply IH]. by apply prefix_app_r.
Qed.

Section dispatch_facts.
Variable script : handler → string → eventArgs → list action.

(** Calling the listeners of a channel succeeds on a table at rest, keeps it
    at rest, and calls each listener with the arguments record. *)
Lemma callListeners_inv name a hs : ∀ st hist,
  tableInv st hist →
  ∃ st' hist', callListeners script hs name a st = Ok st'
    ∧ tableInv st' hist'
    ∧ handlerStep st st'
    ∧ (∀ h, h ∈ hs → Invoked h name a ∈ trace st')
    ∧ (quietScript script st → hist' = hist)
    ∧ hist `prefix_of` hist'.
Proof.
  induction hs as [|h hs IH]; intros st hist Hinv.
  - exists st, hist. split; [done|]. split; [done|].
    split; [apply handlerStep_refl|]. split; [by intros ? ?%elem_of_nil|done].
  - cbn [callListeners].
    assert (Hinv1 : tableInv (emit (Invoked h name a) st) hist)
      by (by apply (tablePending_ext st)).
    destruct (runActions_inv (script h name a) _ _ Hinv1) as (st1 & Hrun & Hinv2).
    rewrite Hrun. cbn [mbind result_bind].
    pose proof (handlerStep_runActions _ _ _ Hrun) as Hs1.
    assert (Hs01 : handlerStep st st1).
    { eapply handlerStep_trans; [|exact Hs1]. by apply handlerStep_emit. }
    destruct (IH st1 _ Hinv2) as (st' & hist' & Hcall & Hinv' & Hs2 & Htr & Hq & Hpre).
    exists st', hist'. split; [done|]. split; [done|].
    split; [exact (handlerStep_trans _ _ _ Hs01 Hs2)|]. split; [|split].
    + intros h' [->|Hh']%elem_of_cons; [|by apply Htr].
      destruct Hs1 as (_ & _ & t1 & Ht1 & _). destruct Hs2 as (_ & _ & t2 & Ht2 & _).
      rewrite Ht2, Ht1. simpl. rewrite !elem_of_app, list_elem_of_singleton. auto.
    + intros Hquiet. rewrite Hq.
      * apply firstSeen_id. intros k Hk.
        apply (tableInv_keys _ _ _ Hinv). by eapply Hquiet.
      * eapply quietScript_keepsKeys; [|exact Hquiet].
        eapply keepsKeys_routeStep, (routeStep_handlerStep ""), Hs01.
    + etrans; [apply firstSeen_prefix|exact Hpre].
Qed.

Lemma dispatchEvent_inv key name a st hist this :
  tableInv st hist → routes st !! key = Some this →
  ∃ st' hist', dispatchEvent script key name a st = Ok st'
    ∧ tableInv st' hist'
    ∧ handlerStep st st'
    ∧ (∀ h, h ∈ default [] (listeners this !! name) → Invoked h name a ∈ trace st')
    ∧ (quietScript script st → hist' = hist)
    ∧ hist `prefix_of` hist'.
Proof.
  intros Hinv Hr. unfold dispatchEvent. rewrite Hr. by apply callListeners_inv.
Qed.

End dispatch_facts.

Lemma argsLoop_snd ps : ∀ i ms a a' str,
  (argsLoop ps i ms a str).2 = (argsLoop ps i ms a' str).2.
Proof. induction ps as [|p ps IH]; intros; simpl; [done|apply IH]. Qed.

Section dispatch_route.
Variable script : handler → string → eventArgs → list action.

(** A dispatch on a stored route of a table at rest returns the match
    result, leaves the table at rest, and updates the route as the source
    says. *)
Lemma dispatch_inv key loc st0 hist this m :
  tableInv st0 hist → routes st0 !! key = Some this →
  jsMatch loc (routeRegex this) = Ok m →
  ∃ st' hist' r',
    dispatch script key loc st0 = Ok (matched m, st')
    ∧ tableInv st' hist'
    ∧ (quietScript script st0 → hist' = hist)
    ∧ routeStep key (emit (Dispatched key loc) st0) st'
    ∧ routes st' !! key = Some r'
    ∧ active r' = matched m
    ∧ s_args r' = argsString this <$> m
    ∧ changed r' = match m with
                   | Some ms => differs (argsString this ms) (s_args this)
                   | None => changed this
                   end
    ∧ (∀ ms h, m = Some ms → h ∈ default [] (listeners this !! "routed") →
         Invoked h "routed" (argsRecord key this ms) ∈ trace st')
    ∧ hist `prefix_of` hist'.
Proof.
  intros Hinv Hr Hm. unfold dispatch.
  set (st := emit (Dispatched key loc) st0).
  assert (Hinvs : tableInv st hist) by (by apply (tablePending_ext st0)).
  change (routes st !! key) with (routes st0 !! key). rewrite Hr, Hm.
  cbn [mbind result_bind].
  assert (Hq0 : ∀ f, quietScript script st0 → quietScript script (assign key f st)).
  { intros f. apply quietScript_keepsKeys. intros k. simpl.
    by rewrite lookup_alter_is_Some. }
  destruct m as [ms|].
  - destruct (argsLoop (params this) 0 ms {[ "route" := VRoute key ]} "")
      as [a str] eqn:Hargs.
    assert (Hstr : argsString this ms = str).
    { unfold argsString.
      rewrite (argsLoop_snd _ _ _ _ {[ "route" := VRoute key ]}). by rewrite Hargs. }
    assert (Harec : argsRecord key this ms = a)
      by (unfold argsRecord; by rewrite Hargs).
    rewrite Hstr.
    set (c := differs str (s_args this)).
    set (st1 := assign key (setChanged c) st).
    assert (Hinv1 : tableInv st1 hist) by (by apply tablePending_assign).
    assert (Hr1 : routes st1 !! key = Some (setChanged c this))
      by (by apply assign_lookup).
    destruct (dispatchEvent_inv script key "routed" a st1 hist _ Hinv1 Hr1)
      as (st2 & hist' & -> & Hinv2 & Hs & Htr & Hq & Hpre).
    cbn [mbind result_bind].
    destruct Hs as (Hl & Hk & t & Ht & Hnd).
    destruct (Hk _ _ Hr1) as (r2 & Hr2 & _ & _ & _ & _ & _ & Hch).
    eexists _, hist', _. split; [done|].
    split; [apply tablePending_assign; [done|]; by apply tablePending_assign|].
    split; [intros Hquiet; apply Hq; by apply Hq0|].
    split.
    { eapply routeStep_trans; [apply (routeStep_assign key (setChanged c)); done|].
      eapply routeStep_trans;
        [apply routeStep_handlerStep; by split; [exact Hl|split; [exact Hk|eauto]]|].
      eapply routeStep_trans; apply routeStep_assign; done. }
    split; [apply assign_lookup, assign_lookup, Hr2|].
    split; [done|]. split; [simpl; by rewrite Hstr|]. split; [exact Hch|].
    split; [|exact Hpre].
    intros ms' h [= <-] Hh. rewrite Harec. simpl. by apply Htr.
  - set (st1 := assign key (setSArgs None) st).
    assert (Hinv1 : tableInv st1 hist) by (by apply tablePending_assign).
    assert (Hr1 : routes st1 !! key = Some (setSArgs None this))
      by (by apply assign_lookup).
    assert (Hev : ∃ st2 hist',
      (if active this
       then dispatchEvent script key "unrouted" {[ "route" := VRoute key ]} st1
       else Ok st1) = Ok st2
      ∧ tableInv st2 hist' ∧ handlerStep st1 st2
      ∧ (quietScript script st1 → hist' = hist)
      ∧ hist `prefix_of` hist').
    { destruct (active this).
      - destruct (dispatchEvent_inv script key "unrouted" {[ "route" := VRoute key ]}
                    st1 hist _ Hinv1 Hr1) as (st2 & hist' & ? & ? & ? & _ & ? & ?).
        by exists st2, hist'.
      - exists st1, hist. split; [done|]. split; [done|].
        split; [apply handlerStep_refl|done]. }
    destruct Hev as (st2 & hist' & -> & Hinv2 & Hs & Hq & Hpre).
    cbn [mbind result_bind].
    destruct Hs as (Hl & Hk & t & Ht & Hnd).
    destruct (Hk _ _ Hr1) as (r2 & Hr2 & _ & _ & _ & Hsa & _ & Hch).
    eexists _, hist', _. split; [done|].
    split; [by apply tablePending_assign|].
    split; [intros Hquiet; apply Hq; by apply Hq0|].
    split.
    { eapply routeStep_trans; [apply (routeStep_assign key (setSArgs None)); done|].
      eapply routeStep_trans;
        [apply routeStep_handlerStep; by split; [exact Hl|split; [exact Hk|eauto]]|].
      apply routeStep_assign; done. }
    split; [apply assign_lookup, Hr2|].
    split; [done|]. split; [exact Hsa|]. split; [exact Hch|]. done.
Qed.

Lemma dispatch_Err key loc st this e :
  routes st !! key = Some this → jsMatch loc (routeRegex this) = Err e →
  dispatch script key loc st = Err e.
Proof.
  intros Hr Hm. unfold dispatch.
  change (routes (emit (Dispatched key loc) st) !! key) with (routes st !! key).
  by rewrite Hr, Hm.
Qed.

End dispatch_route.

(* ===================================================================== *)
(** * The dispatch pass over all routes *)
(* ===================================================================== *)

Lemma dispatchCalls_cons e t :
  dispatchCalls (e :: t)
  = match e with
    | Dispatched k route => (k, route) :: dispatchCalls t
    | _ => dispatchCalls t
    end.
Proof. by destruct e. Qed.

Lemma dispatchCalls_notDispatched t : Forall notDispatched t → dispatchCalls t = [].
Proof.
  induction 1 as [|e t He _ IH]; [done|].
  rewrite dispatchCalls_cons, IH. by destruct e.
Qed.

Lemma dispatchCalls_app t1 t2 :
  dispatchCalls (t1 ++ t2) = dispatchCalls t1 ++ dispatchCalls t2.
Proof. apply omap_app. Qed.

Lemma tableInv_order_eq st st' hist :
  tableInv st hist → tableInv st' hist →
  (∀ k r, routes st !! k = Some r →
     ∃ r', routes st' !! k = Some r' ∧ routeRegex r' = routeRegex r) →
  sortedRoutes st' = sortedRoutes st.
Proof.
  intros H H' Hr. rewrite (pending_order _ _ _ H), (pending_order _ _ _ H').
  f_equal. apply sortKeys_ext. intros k Hk. simpl in Hk.
  apply (tableInv_keys _ _ _ H) in Hk as [r Hk].
  destruct (Hr k r Hk) as (r' & Hk' & Heq).
  unfold regexLength. by rewrite Hk, Hk', Heq.
Qed.

Section dispatch_pass.
Variable script : handler → string → eventArgs → list action.

(** The pass from index [i] when no handler creates a route: it ends, the
    order sequence stays the one it started with, [dispatch] is called once
    on each slot from [i] on, in order, and each of these routes ends with
    [active] telling its own match. *)
Lemma dispatchLoop_quiet hist fuel : ∀ i st,
  tableInv st hist → quietScript script st → matchable (location st) st →
  length (sortedRoutes st) - i < fuel →
  ∃ st', dispatchLoop script fuel i st = Ok st'
    ∧ tableInv st' hist
    ∧ sortedRoutes st' = sortedRoutes st
    ∧ location st' = location st
    ∧ (∃ t, trace st' = trace st ++ t
          ∧ dispatchCalls t = (fun k => (k, location st)) <$> drop i (sortedRoutes st))
    ∧ (∀ k r, routes st !! k = Some r →
         ∃ r', routes st' !! k = Some r'
           ∧ routeRegex r' = routeRegex r
           ∧ (k ∉ drop i (sortedRoutes st) → sameCore r r')
           ∧ (k ∈ drop i (sortedRoutes st) →
              ∀ m, jsMatch (location st) (routeRegex r) = Ok m → active r' = matched m)).
Proof.
  induction fuel as [|fuel IH]; intros i st Hinv Hquiet Hm Hfuel; [lia|].
  cbn [dispatchLoop].
  destruct (Nat.ltb_spec i (length (sortedRoutes st))) as [Hi|Hi].
  2:{ exists st. rewrite drop_ge by lia. split; [done|]. split; [done|].
      split; [done|]. split; [done|]. split.
      - exists []. by rewrite app_nil_r.
      - intros k r Hk. exists r. split; [done|]. split; [done|].
        split; [intros _; apply sameCore_refl|by intros ?%elem_of_nil]. }
  destruct (lookup_lt_is_Some_2 _ _ Hi) as [key Hkey]. rewrite Hkey.
  destruct (Hm key (list_elem_of_lookup_2 _ _ _ Hkey)) as (this & m & Hthis & Hmatch).
  destruct (dispatch_inv script key (location st) st hist this m Hinv Hthis Hmatch)
    as (st1 & hist' & r1 & -> & Hinv1 & Hq & Hstep & Hr1 & Hact & _).
  cbn [mbind result_bind].
  rewrite (Hq Hquiet) in Hinv1. clear Hq.
  destruct Hstep as (Hloc & Hroutes & t1 & Ht1 & Hnd1). simpl in Hloc, Hroutes, Ht1.
  assert (Hord : sortedRoutes st1 = sortedRoutes st).
  { apply (tableInv_order_eq st st1 hist); [done..|].
    intros k r Hk. destruct (Hroutes k r Hk) as (r' & ? & ? & _). eauto. }
  destruct (IH (S i) st1) as (st' & Hrun & Hinv' & Hord' & Hloc' & (t2 & Ht2 & Hc2) & Hfin).
  - done.
  - eapply quietScript_keepsKeys; [|exact Hquiet].
    intros k [r Hk]. destruct (Hroutes k r Hk) as (r' & -> & _). eauto.
  - unfold matchable. rewrite Hloc, Hord. intros k Hk.
    destruct (Hm k Hk) as (r & m' & Hr & Hm').
    destruct (Hroutes k r Hr) as (r' & Hr' & Hre & _).
    exists r', m'. by rewrite Hre.
  - rewrite Hord. lia.
  - rewrite Hloc, Hord in *. exists st'. split; [done|]. split; [done|].
    split; [done|]. split; [done|].
    rewrite (drop_S _ _ _ Hkey). split.
    + exists (Dispatched key (location st) :: t1 ++ t2). split.
      * rewrite Ht2, Ht1, <- !app_assoc. done.
      * change (Dispatched key (location st) :: t1 ++ t2)
          with ([Dispatched key (location st)] ++ t1 ++ t2).
        rewrite !dispatchCalls_app, (dispatchCalls_notDispatched t1 Hnd1), Hc2.
        done.
    + intros k r Hk.
      destruct (Hroutes k r Hk) as (r' & Hk' & Hre & _ & Hsame).
      destruct (Hfin k r' Hk') as (r'' & Hk'' & Hre' & Hout & Hin).
      exists r''. split; [done|]. split; [congruence|]. split.
      * intros Hnot. rewrite not_elem_of_cons in Hnot. destruct Hnot as [Hne Hnot].
        eapply sameCore_trans; [by apply Hsame|by apply Hout].
      * intros Hslot m' Hm'.
        destruct (decide (k ∈ drop (S i) (sortedRoutes st))) as [Hlater|Hlater].
        -- apply Hin; [done|]. by rewrite Hre.
        -- destruct (Hout Hlater) as (_ & _ & _ & _ & -> & _).
           apply elem_of_cons in Hslot as [->|?]; [|done].
           rewrite Hr1 in Hk'. injection Hk' as <-.
           rewrite Hthis in Hk. injection Hk as <-.
           rewrite Hmatch in Hm'. by injection Hm' as <-.
Qed.

End dispatch_pass.

(** ** Handlers that create routes: what the pass still guarantees *)

Lemma sublist_drop_S {A} (l : list A) : ∀ n, drop (S n) l `sublist_of` drop n l.
Proof.
  induction l as [|x l IH]; intros n; [by destruct n|].
  destruct n as [|n]; [by constructor|apply IH].
Qed.

Lemma sublist_drop_mono {A} (l1 l2 : list A) :
  l1 `sublist_of` l2 → ∀ n, drop n l1 `sublist_of` drop n l2.
Proof.
  induction 1 as [|x l1 l2 Hs IH|x l1 l2 Hs IH]; intros n.
  - done.
  - destruct n as [|n]; [by constructor|apply IH].
  - destruct n as [|n]; [by constructor|]. simpl.
    etrans; [apply sublist_drop_S|apply IH].
Qed.

Lemma sublist_insertKey {A} (f : A → nat) x l : l `sublist_of` insertKey f x l.
Proof.
  induction l as [|y l IH]; simpl; [by constructor|].
  destruct (f x <? f y); by constructor.
Qed.

Lemma sublist_sortKeys {A} (f : A → nat) l : ∀ acc, acc `sublist_of` sortKeys f acc l.
Proof.
  induction l as [|x l IH]; intros acc; [done|].
  etrans; [apply (sublist_insertKey f x)|apply IH].
Qed.

(** Creating routes only inserts slots into the order sequence. *)
Lemma tableInv_order_sublist st st' hist hist' :
  tableInv st hist → tableInv st' hist' → hist `prefix_of` hist' →
  (∀ k r, routes st !! k = Some r →
     ∃ r', routes st' !! k = Some r' ∧ routeRegex r' = routeRegex r) →
  sortedRoutes st `sublist_of` sortedRoutes st'.
Proof.
  intros H H' [news ->] Hr.
  rewrite (pending_order _ _ _ H), (pending_order _ _ _ H'), !app_nil_r.
  rewrite sortKeys_app.
  rewrite (sortKeys_ext (regexLength st) (regexLength st') hist []).
  - apply sublist_sortKeys.
  - intros k Hk. simpl in Hk.
    apply (tableInv_keys _ _ _ H) in Hk as [r Hk].
    destruct (Hr k r Hk) as (r' & Hk' & Heq).
    unfold regexLength. by rewrite Hk, Hk', Heq.
Qed.

Section dispatch_pass_general.
Variable script : handler → string → eventArgs → list action.

(** The pass from index [i], whatever the handlers do: when it ends, every
    route that stood at or after slot [i] at the start has been dispatched
    against the location, and every route that was dispatched ends with
    [active] telling its own match; the others keep their dispatch state. *)
Lemma dispatchLoop_general fuel : ∀ i st hist st',
  tableInv st hist → dispatchLoop script fuel i st = Ok st' →
  location st' = location st
  ∧ (∃ hist', tableInv st' hist')
  ∧ ∃ t, trace st' = trace st ++ t
     ∧ (∀ k, k ∈ drop i (sortedRoutes st) → (k, location st) ∈ dispatchCalls t)
     ∧ (∀ k r, routes st !! k = Some r →
          ∃ r', routes st' !! k = Some r'
            ∧ routeRegex r' = routeRegex r
            ∧ ((k, location st) ∉ dispatchCalls t → sameCore r r')
            ∧ ((k, location st) ∈ dispatchCalls t →
               ∀ m, jsMatch (location st) (routeRegex r) = Ok m → active r' = matched m)).
Proof.
  induction fuel as [|fuel IH]; intros i st hist st' Hinv Hrun; [done|].
  cbn [dispatchLoop] in Hrun.
  destruct (Nat.ltb_spec i (length (sortedRoutes st))) as [Hi|Hi].
  2:{ injection Hrun as <-. rewrite drop_ge by lia.
      split; [done|]. split; [by exists hist|]. exists [].
      split; [by rewrite app_nil_r|]. split; [by intros ? ?%elem_of_nil|].
      intros k r Hk. exists r. split; [done|]. split; [done|].
      split; [intros _; apply sameCore_refl|by intros ?%elem_of_nil]. }
  destruct (lookup_lt_is_Some_2 _ _ Hi) as [key Hkey]. rewrite Hkey in Hrun.
  pose proof (list_elem_of_lookup_2 _ _ _ Hkey) as Hin.
  destruct (tablePending_tableOk _ _ _ Hinv key Hin) as [this Hthis].
  destruct (jsMatch (location st) (routeRegex this)) as [m|e] eqn:Hmatch.
  2:{ by rewrite (dispatch_Err script _ _ _ _ e Hthis Hmatch) in Hrun. }
  destruct (dispatch_inv script key (location st) st hist this m Hinv Hthis Hmatch)
    as (st1 & hist1 & r1 & Hd & Hinv1 & _ & Hstep & Hr1 & Hact & _ & _ & _ & Hpre).
  rewrite Hd in Hrun. cbn [mbind result_bind] in Hrun.
  destruct Hstep as (Hloc & Hroutes & t1 & Ht1 & Hnd1). simpl in Hloc, Hroutes, Ht1.
  destruct (IH (S i) st1 hist1 st' Hinv1 Hrun)
    as (Hloc' & Hinv' & t2 & Ht2 & Hcalls & Hfin).
  rewrite Hloc in *.
  split; [done|]. split; [done|].
  exists (Dispatched key (location st) :: t1 ++ t2).
  assert (Hdc : dispatchCalls (Dispatched key (location st) :: t1 ++ t2)
                = (key, location st) :: dispatchCalls t2).
  { rewrite dispatchCalls_cons, dispatchCalls_app.
    by rewrite (dispatchCalls_notDispatched t1 Hnd1). }
  rewrite Hdc. split; [by rewrite Ht2, Ht1, <- !app_assoc|]. split.
  - rewrite (drop_S _ _ _ Hkey). intros k [->|Hk]%elem_of_cons; [left|right].
    apply Hcalls. eapply sublist_subseteq; [|exact Hk].
    apply sublist_drop_mono. apply (tableInv_order_sublist st st1 hist hist1); [done..|].
    intros k' r Hk'. destruct (Hroutes k' r Hk') as (r' & ? & ? & _). eauto.
  - intros k r Hk.
    destruct (Hroutes k r Hk) as (r' & Hk' & Hre & _ & Hsame).
    destruct (Hfin k r' Hk') as (r'' & Hk'' & Hre' & Hout & Hlater).
    exists r''. split; [done|]. split; [congruence|]. split.
    + intros Hnot. rewrite not_elem_of_cons in Hnot. destruct Hnot as [Hne Hnot].
      eapply sameCore_trans; [apply Hsame; congruence|by apply Hout].
    + intros Hcalled m' Hm'.
      destruct (decide ((k, location st) ∈ dispatchCalls t2)) as [Hl|Hl].
      * apply Hlater; [done|]. by rewrite Hre.
      * destruct (Hout Hl) as (_ & _ & _ & _ & -> & _).
        apply elem_of_cons in Hcalled as [[= ->]|?]; [|done].
        rewrite Hr1 in Hk'. injection Hk' as <-.
        rewrite Hthis in Hk. injection Hk as <-.
        rewrite Hmatch in Hm'. by injection Hm' as <-.
Qed.

End dispatch_pass_general.

Lemma tableInv_builtBy calls : tableInv (builtBy calls) (insertionOrder calls).
Proof.
  destruct (runActions_inv calls emptyRouter [] tableInv_empty) as (st & Hrun & Hinv).
  unfold builtBy. by rewrite Hrun.
Qed.

Lemma tableInv_setLocation loc a st hist :
  tableInv st hist → tableInv (setLocation loc a st) hist.
Proof. by apply tablePending_ext. Qed.

Lemma quietScript_noScript st : quietScript noScript st.
Proof. by intros h name a k ?%elem_of_nil. Qed.







(* ===================================================================== *)
(** * Silent navigation *)
(* ===================================================================== *)

(** C7. [setRoute (t, true)] towards a target other than the current
    location adds exactly one to [ignoreHashchangeEvent]; the next committed
    notification updates [location] and [args], takes the one back and
    dispatches nothing; with the counter back at 0 the notification after it
    runs the dispatch pass on the committed location: when it returns,
    every route of the order sequence has been dispatched on that location,
    and when no handler creates a route it returns with the calls of
    [dispatch] being exactly the order sequence, in order. *)
Theorem silent_setRoute_suppresses_once
    (script : handler → string → eventArgs → list action)
    (t target : string) (st : Router) (fuel : nat) (hash1 hash2 : string) :
  realLocation (location st) t None = Ok target →
  target ≠ location st →
  (0 ≤ ignoreHashchangeEvent st)%Z →
  realLocation (location st) (JS.substr_from hash1 1) None = Ok (JS.substr_from hash1 1) →
  ∃ st1 st2,
    setRoute t true st = Ok st1
    ∧ ignoreHashchangeEvent st1 = (ignoreHashchangeEvent st + 1)%Z
    ∧ trace st1 = trace st ++ [HashAssigned target]
    ∧ onLocationChanged script fuel hash1 st1 = Ok st2
    ∧ location st2 = JS.substr_from hash1 1
    ∧ args st2 = JS.split "/" (JS.substr_from hash1 1)
    ∧ ignoreHashchangeEvent st2 = ignoreHashchangeEvent st
    ∧ routes st2 = routes st ∧ sortedRoutes st2 = sortedRoutes st
    ∧ trace st2 = trace st1
    ∧ (ignoreHashchangeEvent st = 0%Z →
       realLocation (location st2) (JS.substr_from hash2 1) None
         = Ok (JS.substr_from hash2 1) →
       onLocationChanged script fuel hash2 st2
       = dispatchLoop script fuel 0
           (setLocation (JS.substr_from hash2 1)
              (JS.split "/" (JS.substr_from hash2 1)) st2)
       ∧ ∀ hist, tableInv st hist →
           (∀ st3, onLocationChanged script fuel hash2 st2 = Ok st3 →
              location st3 = JS.substr_from hash2 1
              ∧ ∃ t3, trace st3 = trace st2 ++ t3
                  ∧ ∀ k, k ∈ sortedRoutes st →
                      (k, JS.substr_from hash2 1) ∈ dispatchCalls t3)
           ∧ (quietScript script st → matchable (JS.substr_from hash2 1) st →
              length (sortedRoutes st) < fuel →
              ∃ st3, onLocationChanged script fuel hash2 st2 = Ok st3
                ∧ ∃ t3, trace st3 = trace st2 ++ t3
                    ∧ dispatchCalls t3
                      = (fun k => (k, JS.substr_from hash2 1)) <$> sortedRoutes st)).
Proof.
  intros Ht Hne Hn Hc1.
  exists (emit (HashAssigned target) (setIgnore (ignoreHashchangeEvent st + 1)%Z st)).
  eexists. split.
  { unfold setRoute. rewrite Ht. cbn [mbind result_bind].
    by apply String.eqb_neq in Hne as ->. }
  split; [done|]. split; [done|]. split.
  { unfold onLocationChanged. cbn [location emit setIgnore].
    rewrite Hc1. cbn [mbind result_bind]. rewrite String.eqb_refl.
    cbn [negb ignoreHashchangeEvent setLocation emit setIgnore].
    destruct (Z.ltb_spec 0 (ignoreHashchangeEvent st + 1)); [done|lia]. }
  cbn [location args ignoreHashchangeEvent routes sortedRoutes trace
       setIgnore setLocation emit].
  split; [done|]. split; [done|]. split; [lia|].
  split; [done|]. split; [done|]. split; [done|].
  intros H0 Hc2.
  set (c2 := JS.substr_from hash2 1) in *.
  match goal with
  | |- onLocationChanged _ _ _ ?s2 = _ ∧ _ => set (st2 := s2) in *
  end.
  set (st2c := setLocation c2 (JS.split "/" c2) st2).
  assert (Hpass : onLocationChanged script fuel hash2 st2 = dispatchLoop script fuel 0 st2c).
  { unfold onLocationChanged. fold c2.
    cbn [location setIgnore setLocation emit] in Hc2.
    change (location st2) with (JS.substr_from hash1 1).
    rewrite Hc2. cbn [mbind result_bind]. rewrite String.eqb_refl. cbn [negb].
    change (ignoreHashchangeEvent (setLocation c2 (JS.split "/" c2) st2))
      with (ignoreHashchangeEvent st + 1 - 1)%Z.
    rewrite H0. reflexivity. }
  split; [exact Hpass|]. intros hist Hinv.
  assert (Hinvc : tableInv st2c hist) by (by apply (tablePending_ext st)).
  rewrite Hpass. split.
  - intros st3 Hrun.
    destruct (dispatchLoop_general script fuel 0 st2c hist st3 Hinvc Hrun)
      as (Hloc & _ & t3 & Ht3 & Hcalls & _).
    split; [exact Hloc|]. exists t3. split; [exact Ht3|exact Hcalls].
  - intros Hq Hm Hfuel.
    destruct (dispatchLoop_quiet script hist fuel 0 st2c Hinvc Hq Hm)
      as (st3 & Hrun & _ & _ & _ & Htr & _); [simpl; lia|].
    exists st3. split; [exact Hrun|exact Htr].
Qed.

Lemma silent_setRoute_suppresses_once_witness :
  (realLocation (location exampleTable) "/a/7" None = Ok "/a/7"
   ∧ "/a/7" ≠ location exampleTable
   ∧ (0 ≤ ignoreHashchangeEvent exampleTable)%Z
   ∧ realLocation (location exampleTable) (JS.substr_from "#/a/7" 1) None
     = Ok (JS.substr_from "#/a/7" 1))
  ∧ sortedRoutes exampleTable = ["/"; "/a"; "/a/:id"]
  ∧ ∃ st1 st2 st3,
      setRoute "/a/7" true exampleTable = Ok st1
      ∧ ignoreHashchangeEvent st1 = 1%Z
      ∧ onLocationChanged noScript 4 "#/a/7" st1 = Ok st2
      ∧ location st2 = "/a/7" ∧ ignoreHashchangeEvent st2 = 0%Z
      ∧ trace st2 = [HashAssigned "/a/7"]
      ∧ onLocationChanged noScript 4 "#/a/8" st2 = Ok st3
      ∧ ∃ t3, trace st3 = trace st2 ++ t3
          ∧ dispatchCalls t3 = [("/", "/a/8"); ("/a", "/a/8"); ("/a/:id", "/a/8")].
Proof.
  assert (H1 : realLocation (location exampleTable) "/a/7" None = Ok "/a/7")
    by (vm_compute; reflexivity).
  assert (H2 : "/a/7" ≠ location exampleTable) by discriminate.
  assert (H3 : (0 ≤ ignoreHashchangeEvent exampleTable)%Z) by (vm_compute; discriminate).
  assert (H4 : realLocation (location exampleTable) (JS.substr_from "#/a/7" 1) None
               = Ok (JS.substr_from "#/a/7" 1)) by (vm_compute; reflexivity).
  assert (Hord : sortedRoutes exampleTable = ["/"; "/a"; "/a/:id"])
    by (vm_compute; reflexivity).
  split; [done|]. split; [exact Hord|].
  destruct (silent_setRoute_suppresses_once noScript "/a/7" "/a/7" exampleTable 4
              "#/a/7" "#/a/8" H1 H2 H3 H4)
    as (st1 & st2 & Hs & Hi & Ht & Hn & Hl & _ & Hi2 & _ & _ & Ht2 & Hnext).
  assert (H5 : realLocation (location st2) (JS.substr_from "#/a/8" 1) None
               = Ok (JS.substr_from "#/a/8" 1)) by (rewrite Hl; vm_compute; reflexivity).
  destruct (Hnext eq_refl H5) as [_ Hpass].
  assert (Hinv : tableInv exampleTable ["/"; "/a"; "/a/:id"])
    by apply tableInv_setLocation, (tableInv_builtBy exampleCalls).
  assert (Hm : matchable (JS.substr_from "#/a/8" 1) exampleTable).
  { unfold matchable. rewrite Hord. intros k Hk.
    repeat (apply elem_of_cons in Hk as [->|Hk]);
      [..|by apply elem_of_nil in Hk];
      (eexists _, _; split; vm_compute; reflexivity). }
  assert (Hlen : length (sortedRoutes exampleTable) < 4) by (rewrite Hord; simpl; lia).
  destruct (Hpass _ Hinv) as [_ Hquiet].
  destruct (Hquiet (quietScript_noScript _) Hm Hlen) as (st3 & Hrun & t3 & Ht3 & Hcalls).
  exists st1, st2, st3. split; [done|]. split; [by rewrite Hi|].
  split; [done|]. split; [by rewrite Hl|]. split; [by rewrite Hi2|].
  split; [by rewrite Ht2, Ht|]. split; [done|].
  exists t3. split; [done|]. by rewrite Hcalls, Hord.
Defined.

(* ===================================================================== *)
(** * The [changed] flag *)
(* ===================================================================== *)

(** C2. The separator of the arguments string occurs in captured values:
    route [/:x/:y] dispatched on [/a_b/c] and then on [/a/b_c] captures
    [a_b], [c] and then [a], [b_c], builds the string [_a_b_c] both times,
    and leaves [changed] false after the second dispatch. *)
Theorem changed_flag_separator_collision :
  (routeRegex <$> routes collisionTable !! "/:x/:y") = Some "^/([^/]+)/([^/]+)"
  ∧ jsMatch "/a_b/c" "^/([^/]+)/([^/]+)" = Ok (Some ["/a_b/c"; "a_b"; "c"])
  ∧ jsMatch "/a/b_c" "^/([^/]+)/([^/]+)" = Ok (Some ["/a/b_c"; "a"; "b_c"])
  ∧ ∃ st1 st2,
      dispatch noScript "/:x/:y" "/a_b/c" collisionTable = Ok (true, st1)
      ∧ dispatch noScript "/:x/:y" "/a/b_c" st1 = Ok (true, st2)
      ∧ (s_args <$> routes st1 !! "/:x/:y") = Some (Some "_a_b_c")
      ∧ (s_args <$> routes st2 !! "/:x/:y") = Some (Some "_a_b_c")
      ∧ (changed <$> routes st1 !! "/:x/:y") = Some true
      ∧ (changed <$> routes st2 !! "/:x/:y") = Some false.
Proof.
  split; [vm_compute; reflexivity|].
  split; [vm_compute; reflexivity|].
  split; [vm_compute; reflexivity|].
  eexists _, _.
  split; [vm_compute; reflexivity|].
  split; [vm_compute; reflexivity|].
  repeat split; vm_compute; reflexivity.
Qed.

(** What does hold of [changed]: it compares arguments strings, so a second
    dispatch on the same matching location leaves it false. *)
Lemma dispatch_twice_same_location
    (script : handler → string → eventArgs → list action)
    (key loc : string) (st : Router) (hist : list string)
    (this : Route) (ms : list string) :
  tableInv st hist → routes st !! key = Some this →
  jsMatch loc (routeRegex this) = Ok (Some ms) →
  ∃ st1 st2 r2,
    dispatch script key loc st = Ok (true, st1)
    ∧ dispatch script key loc st1 = Ok (true, st2)
    ∧ routes st2 !! key = Some r2
    ∧ changed r2 = false.
Proof.
  intros Hinv Hr Hm.
  destruct (dispatch_inv script key loc st hist this (Some ms) Hinv Hr Hm)
    as (st1 & hist1 & r1 & Hd1 & Hinv1 & _ & Hstep & Hr1 & _ & Hs1 & _).
  destruct Hstep as (_ & Hroutes & _).
  destruct (Hroutes key this Hr) as (r1' & Hr1' & Hre & Hps & _).
  rewrite Hr1 in Hr1'. injection Hr1' as <-.
  assert (Hm1 : jsMatch loc (routeRegex r1) = Ok (Some ms)) by (by rewrite Hre).
  destruct (dispatch_inv script key loc st1 hist1 r1 (Some ms) Hinv1 Hr1 Hm1)
    as (st2 & _ & r2 & Hd2 & _ & _ & _ & Hr2 & _ & _ & Hch & _).
  exists st1, st2, r2. split; [done|]. split; [done|]. split; [done|].
  rewrite Hch, Hs1. simpl. unfold argsString. rewrite Hps.
  by rewrite String.eqb_refl.
Qed.

(* ===================================================================== *)
(** * Parameters and the arguments record *)
(* ===================================================================== *)

(** A name assigned several times keeps the last value. *)
Lemma argsLoop_lookup ps : ∀ i ms (a : eventArgs) str name,
  name ≠ "__proto__" →
  (argsLoop ps i ms a str).1 !! name
  = match lastPosition name ps with
    | Some k => Some (jsOfOption (ms !! S (i + k)))
    | None => a !! name
    end.
Proof.
  induction ps as [|p ps IH]; intros i ms a str name Hname; [done|].
  cbn [argsLoop lastPosition]. rewrite IH by done.
  destruct (lastPosition name ps) as [k|].
  - do 3 f_equal. lia.
  - destruct (decide (p = name)) as [->|Hne].
    + apply String.eqb_neq in Hname as ->.
      rewrite lookup_insert_eq. do 3 f_equal. lia.
    + destruct (String.eqb p "__proto__"); [done|]. by rewrite lookup_insert_ne.
Qed.

(** The assignment to [__proto__] stores nothing. *)
Lemma argsLoop_proto ps : ∀ i ms (a : eventArgs) str,
  (argsLoop ps i ms a str).1 !! "__proto__" = a !! "__proto__".
Proof.
  induction ps as [|p ps IH]; intros i ms a str; [done|].
  cbn [argsLoop]. rewrite IH.
  destruct (String.eqb p "__proto__") eqn:E; [done|].
  apply String.eqb_neq in E. by rewrite lookup_insert_ne.
Qed.

(** C9 (as amended). The parameter list of a compiled pattern is the list
    of its [:name] tokens from left to right, whatever the names; a match
    handler is called with the arguments record of the dispatch, which maps
    every parameter name other than [__proto__] to the capture at the last
    position of that name in the list, leaves the other properties as they
    were, and never has a property [__proto__]. *)
Theorem params_follow_pattern_order
    (script : handler → string → eventArgs → list action)
    (pattern key loc : string) (st : Router) (hist : list string)
    (this : Route) (ms : list string) (h : handler) :
  tableInv st hist → routes st !! key = Some this →
  params this = paramTokens pattern →
  jsMatch loc (routeRegex this) = Ok (Some ms) →
  h ∈ default [] (listeners this !! "routed") →
  (∃ regex, _compileRoute pattern = Ok (paramTokens pattern, regex))
  ∧ (∃ st', dispatch script key loc st = Ok (true, st')
       ∧ Invoked h "routed" (argsRecord key this ms) ∈ trace st')
  ∧ (∀ name, name ≠ "__proto__" →
       argsRecord key this ms !! name
       = match lastPosition name (paramTokens pattern) with
         | Some k => Some (jsOfOption (ms !! S k))
         | None => ({[ "route" := VRoute key ]} : eventArgs) !! name
         end)
  ∧ argsRecord key this ms !! "__proto__" = None.
Proof.
  intros Hinv Hr Hps Hm Hh. split; [apply _compileRoute_spec|]. split; [|split].
  - destruct (dispatch_inv script key loc st hist this (Some ms) Hinv Hr Hm)
      as (st' & _ & _ & Hd & _ & _ & _ & _ & _ & _ & _ & Htr & _).
    exists st'. split; [exact Hd|]. by apply Htr.
  - intros name Hname. unfold argsRecord. rewrite argsLoop_lookup, Hps; done.
  - unfold argsRecord. by rewrite argsLoop_proto.
Qed.

Lemma params_follow_pattern_order_witness :
  ∃ this,
    (tableInv exampleTable ["/"; "/a"; "/a/:id"]
     ∧ routes exampleTable !! "/a/:id" = Some this
     ∧ params this = paramTokens "/a/:id"
     ∧ jsMatch "/a/5" (routeRegex this) = Ok (Some ["/a/5"; "5"])
     ∧ 3 ∈ default [] (listeners this !! "routed"))
    ∧ paramTokens "/a/:id" = ["id"]
    ∧ argsRecord "/a/:id" this ["/a/5"; "5"] !! "id" = Some (VString "5")
    ∧ argsRecord "/a/:id" this ["/a/5"; "5"] !! "route" = Some (VRoute "/a/:id")
    ∧ ∃ st', dispatch noScript "/a/:id" "/a/5" exampleTable = Ok (true, st')
        ∧ Invoked 3 "routed" (argsRecord "/a/:id" this ["/a/5"; "5"]) ∈ trace st'.
Proof.
  assert (Hinv : tableInv exampleTable ["/"; "/a"; "/a/:id"])
    by apply tableInv_setLocation, (tableInv_builtBy exampleCalls).
  destruct (routes exampleTable !! "/a/:id") as [this|] eqn:Hr;
    [|vm_compute in Hr; discriminate Hr].
  exists this.
  assert (Hthis : this = MkRoute "^/a/([^/]+)" "/a/:id" ["id"] None false false
                           {[ "routed" := [3] ]}).
  { vm_compute in Hr. injection Hr as <-. vm_compute. reflexivity. }
  assert (Hps : params this = paramTokens "/a/:id") by (by rewrite Hthis).
  assert (Hm : jsMatch "/a/5" (routeRegex this) = Ok (Some ["/a/5"; "5"]))
    by (by rewrite Hthis).
  assert (Hh : 3 ∈ default [] (listeners this !! "routed")).
  { rewrite Hthis. cbn [listeners]. rewrite lookup_singleton_eq. simpl. left. }
  split; [done|].
  destruct (params_follow_pattern_order noScript "/a/:id" "/a/:id" "/a/5"
              exampleTable _ this ["/a/5"; "5"] 3 Hinv Hr Hps Hm Hh)
    as (_ & Hd & Hrec & _).
  split; [reflexivity|].
  split; [by rewrite Hrec|]. split; [by rewrite Hrec|]. exact Hd.
Defined.

(** The arguments record of C9 as stated, on a repeated name: pattern
    [/:id/:id] dispatched on [/1/2] captures [1] at position 0 and [2] at
    position 1, and the record handed to the handler maps [id] to [2]. *)
Lemma args_record_repeated_name :
  _compileRoute "/:id/:id" = Ok (["id"; "id"], "^/([^/]+)/([^/]+)")
  ∧ jsMatch "/1/2" "^/([^/]+)/([^/]+)" = Ok (Some ["/1/2"; "1"; "2"])
  ∧ ∃ st' a,
      dispatch noScript "/:id/:id" "/1/2" duplicateTable = Ok (true, st')
      ∧ trace st' = [Dispatched "/:id/:id" "/1/2"; Invoked 1 "routed" a]
      ∧ a !! "id" = Some (VString "2")
      ∧ a !! "id" ≠ Some (VString "1").
Proof.
  split; [vm_compute; reflexivity|].
  split; [vm_compute; reflexivity|].
  eexists _, _.
  split; [vm_compute; reflexivity|].
  split; [reflexivity|].
  split; [vm_compute; reflexivity|].
  vm_compute. discriminate.
Qed.

(** A parameter may be named [__proto__]: pattern [/:__proto__] compiles
    with that name in its list and captures [5] on [/5], and the record
    handed to the handler has no such property. *)
Lemma args_record_proto_name :
  _compileRoute "/:__proto__" = Ok (["__proto__"], "^/([^/]+)")
  ∧ jsMatch "/5" "^/([^/]+)" = Ok (Some ["/5"; "5"])
  ∧ ∃ st' a,
      dispatch noScript "/:__proto__" "/5" protoTable = Ok (true, st')
      ∧ trace st' = [Dispatched "/:__proto__" "/5"; Invoked 1 "routed" a]
      ∧ a !! "__proto__" = None
      ∧ a !! "route" = Some (VRoute "/:__proto__").
Proof.
  split; [vm_compute; reflexivity|].
  split; [vm_compute; reflexivity|].
  eexists _, _.
  split; [vm_compute; reflexivity|].
  split; [reflexivity|].
  split; vm_compute; reflexivity.
Qed.

(* ===================================================================== *)
(** * Literal patterns *)
(* ===================================================================== *)

Lemma paramTokens_nil_splitParam P : paramTokens P = [] → splitParam P = None.
Proof.
  rewrite paramTokens_splitParam. by destruct (splitParam P) as [[[??]?]|].
Qed.

Lemma _compileRoute_literal P :
  paramTokens P = [] → _compileRoute P = Ok ([], "^" +:+ JS.stripMarkers P).
Proof.
  intros Hs%paramTokens_nil_splitParam. unfold _compileRoute. cbn [compileLoop].
  by rewrite execParam_splitParam, Hs.
Qed.

Lemma stripMarkers_cons c r :
  JS.stripMarkers (String c r)
  = if JS.startsWith "##" (String c r)
    then JS.stripMarkers (JS.substr_from r 1)
    else String c (JS.stripMarkers r).
Proof.
  destruct c as [[] [] [] [] [] [] [] []]; try reflexivity.
  destruct r as [|d r]; [reflexivity|].
  destruct d as [[] [] [] [] [] [] [] []]; try reflexivity.
  by destruct r.
Qed.

Lemma stripMarkers_none P : JS.find "##" P = None → JS.stripMarkers P = P.
Proof.
  induction P as [|c P IH]; [done|]. rewrite find_cons, stripMarkers_cons.
  destruct (JS.startsWith "##" (String c P)); [done|].
  destruct (JS.find "##" P); [done|]. intros _. by rewrite IH.
Qed.

Lemma length_substr_from s n : String.length (JS.substr_from s n) ≤ String.length s.
Proof.
  revert s. induction n as [|n IH]; intros s; [by rewrite substr_from_0|].
  destruct s as [|c s]; [done|]. simpl. specialize (IH s). lia.
Qed.

(** The fuel of [parseRegExp] never runs out: every turn of the parser
    consumes a character. *)
Lemma parseAtoms_fuel fuel : ∀ fuel' src,
  String.length src < fuel → String.length src < fuel' →
  parseAtoms fuel src = parseAtoms fuel' src.
Proof.
  induction fuel as [|fuel IH]; intros fuel' src H H'; [lia|].
  destruct fuel' as [|fuel']; [lia|].
  destruct src as [|c r]; [done|]. simpl in H, H'. cbn [parseAtoms].
  assert (Hcap : String.length (JS.substr_from (String c r) (String.length captureGroup))
                 ≤ String.length r).
  { change (JS.substr_from (String c r) (String.length captureGroup))
      with (JS.substr_from r 6). apply length_substr_from. }
  rewrite (IH fuel' r) by lia.
  rewrite (IH fuel' (JS.substr_from (String c r) (String.length captureGroup))) by lia.
  done.
Qed.

Lemma ordinaryChar_tests c :
  ordinaryChar c = true →
  Ascii.eqb "(" c = false ∧ Ascii.eqb c "." = false ∧ isSyntaxChar c = false.
Proof.
  unfold ordinaryChar. intros H%negb_true_iff. split; [|split; [|done]].
  - destruct (Ascii.eqb "(" c) eqn:E; [|done].
    apply Ascii.eqb_eq in E as <-. discriminate.
  - destruct (Ascii.eqb c ".") eqn:E; [|done].
    apply Ascii.eqb_eq in E as ->. discriminate.
Qed.

Lemma parseAtoms_literal P : ∀ fuel,
  allChars ordinaryChar P = true → String.length P < fuel →
  parseAtoms fuel P = Some (literalAtoms P).
Proof.
  induction P as [|c P IH]; intros fuel Hall Hfuel.
  - destruct fuel; [simpl in Hfuel; lia|done].
  - destruct fuel as [|fuel]; [lia|]. simpl in Hfuel.
    cbn [allChars] in Hall. apply andb_true_iff in Hall as [Hc Hall].
    destruct (ordinaryChar_tests c Hc) as (H1 & H2 & H3).
    cbn [parseAtoms literalAtoms]. unfold captureGroup.
    rewrite startsWith_cons, H1, H2, H3. rewrite IH by (done || lia). done.
Qed.

Lemma parseRegExp_literal P :
  allChars ordinaryChar P = true → parseRegExp ("^" +:+ P) = Some (literalAtoms P).
Proof.
  intros Hall. rewrite append_cons, append_nil_l. cbn [parseRegExp].
  apply parseAtoms_literal; [done|lia].
Qed.

Lemma matchAtoms_literal P : ∀ L,
  matchAtoms (literalAtoms P) L
  = if JS.startsWith P L then Some (P, []) else None.
Proof.
  induction P as [|c P IH]; intros L; [by destruct L|].
  cbn [literalAtoms matchAtoms]. destruct L as [|d L]; [done|].
  rewrite startsWith_cons. destruct (Ascii.eqb c d) eqn:E; [|done].
  apply Ascii.eqb_eq in E as <-. rewrite IH.
  by destruct (JS.startsWith P L).
Qed.

Lemma jsMatch_literal P L :
  allChars ordinaryChar P = true →
  jsMatch L ("^" +:+ P) = Ok (if JS.startsWith P L then Some [P] else None).
Proof.
  intros Hall. unfold jsMatch. rewrite (parseRegExp_literal P Hall), matchAtoms_literal.
  by destruct (JS.startsWith P L).
Qed.

Lemma startsWith_prefix P : ∀ L,
  JS.startsWith P L = true ↔ ∃ rest, L = P +:+ rest.
Proof.
  induction P as [|c P IH]; intros L.
  - split; [intros _; by exists L|done].
  - destruct L as [|d L].
    + split; [done|]. intros [rest H]. by rewrite append_cons in H.
    + rewrite startsWith_cons. destruct (Ascii.eqb c d) eqn:E.
      * apply Ascii.eqb_eq in E as <-. rewrite IH.
        split; intros [rest H]; exists rest.
        -- by rewrite append_cons, H.
        -- rewrite append_cons in H. by injection H.
      * split; [done|]. intros [rest H]. rewrite append_cons in H.
        injection H as -> _. by rewrite Ascii.eqb_refl in E.
Qed.

(** C3 (as amended). Compiling a pattern never raises. For a pattern
    without [:name] token, without [##] marker and without RegExp syntax
    character, a dispatch on the route compiled from it matches exactly the
    locations that start with the pattern. *)
Theorem literal_pattern_prefix_match
    (script : handler → string → eventArgs → list action)
    (P L key : string) (st : Router) (hist : list string) (this : Route) :
  paramTokens P = [] → JS.find "##" P = None → allChars ordinaryChar P = true →
  tableInv st hist → routes st !! key = Some this →
  _compileRoute P = Ok (params this, routeRegex this) →
  (∀ pattern, is_Ok (_compileRoute pattern))
  ∧ (∃ st', dispatch script key L st = Ok (JS.startsWith P L, st')
       ∧ (active <$> routes st' !! key) = Some (JS.startsWith P L))
  ∧ (JS.startsWith P L = true ↔ ∃ rest, L = P +:+ rest).
Proof.
  intros Htok Hmark Hord Hinv Hr Hcomp.
  split; [intros pattern; destruct (_compileRoute_spec pattern) as [? ->]; by eexists|].
  split; [|apply startsWith_prefix].
  rewrite (_compileRoute_literal P Htok), (stripMarkers_none P Hmark) in Hcomp.
  injection Hcomp as _ Hre.
  pose proof (jsMatch_literal P L Hord) as Hm. rewrite Hre in Hm.
  destruct (dispatch_inv script key L st hist this _ Hinv Hr Hm)
    as (st' & _ & r' & Hd & _ & _ & _ & Hr' & Hact & _).
  exists st'. split.
  - rewrite Hd. by destruct (JS.startsWith P L).
  - rewrite Hr'. simpl. rewrite Hact. by destruct (JS.startsWith P L).
Qed.

Lemma literal_pattern_prefix_match_witness :
  ∃ this,
    (paramTokens "/a" = [] ∧ JS.find "##" "/a" = None
     ∧ allChars ordinaryChar "/a" = true
     ∧ tableInv exampleTable ["/"; "/a"; "/a/:id"]
     ∧ routes exampleTable !! "/a" = Some this
     ∧ _compileRoute "/a" = Ok (params this, routeRegex this))
    ∧ ∃ st', dispatch noScript "/a" "/a/5" exampleTable = Ok (true, st')
        ∧ (active <$> routes st' !! "/a") = Some true.
Proof.
  assert (Hinv : tableInv exampleTable ["/"; "/a"; "/a/:id"])
    by apply tableInv_setLocation, (tableInv_builtBy exampleCalls).
  destruct (routes exampleTable !! "/a") as [this|] eqn:Hr;
    [|vm_compute in Hr; discriminate Hr].
  exists this.
  assert (Hthis : this = MkRoute "^/a" "/a" [] None false false {[ "routed" := [2] ]}).
  { vm_compute in Hr. injection Hr as <-. vm_compute. reflexivity. }
  assert (Hc : _compileRoute "/a" = Ok (params this, routeRegex this))
    by (by rewrite Hthis).
  split; [done|].
  destruct (literal_pattern_prefix_match noScript "/a" "/a/5" "/a" exampleTable _ this
              eq_refl eq_refl eq_refl Hinv Hr Hc) as (_ & Hd & _).
  exact Hd.
Defined.

(** The matching of C3 as stated, on two patterns without [:name] token:
    [a##b] loses its marker and matches [ab], and the dot of [a.c] matches
    the [b] of [abc]; neither location starts with its pattern. *)
Lemma literal_pattern_not_prefix :
  (paramTokens "a##b" = []
   ∧ (routeRegex <$> routes markerTable !! "a##b") = Some "^ab"
   ∧ (∃ st', dispatch noScript "a##b" "ab" markerTable = Ok (true, st'))
   ∧ JS.startsWith "a##b" "ab" = false)
  ∧ (paramTokens "a.c" = []
     ∧ (routeRegex <$> routes dotTable !! "a.c") = Some "^a.c"
     ∧ (∃ st', dispatch noScript "a.c" "abc" dotTable = Ok (true, st'))
     ∧ JS.startsWith "a.c" "abc" = false).
Proof.
  split; (split; [reflexivity|]); (split; [vm_compute; reflexivity|]);
    (split; [|reflexivity]); eexists; vm_compute; reflexivity.
Qed.

(* ===================================================================== *)
(** * Evaluations *)
(* ===================================================================== *)

Lemma compile_example :
  _compileRoute "/a/:id/:x-y::z/##q"
  = Ok (["id"; "x-y"; "z"], "^/a/([^/]+)/([^/]+):([^/]+)/q").
Proof. vm_compute. reflexivity. Qed.

Lemma match_backtracks :
  jsMatch "banana/x" "^([^/]+)a" = Ok (Some ["banana"; "banan"])
  ∧ jsMatch "abc" "^([^/]+)([^/]+)" = Ok (Some ["abc"; "ab"; "c"])
  ∧ jsMatch "/b" "^/a" = Ok None.
Proof. repeat split; vm_compute; reflexivity. Qed.

Lemma reconcile_double_wildcard :
  realLocation "" "a**/x" (Some "a/b/c/d") = Ok "a/b/c/x"
  ∧ realLocation "users/3" "*/5" None = Ok "users/5"
  ∧ realLocation "" "  x " None = Ok "x".
Proof. repeat split; vm_compute; reflexivity. Qed.

Lemma order_ties_example :
  sortedRoutes
    (builtBy [CallAddRoute "/b" 1 None; CallAddRoute "/a/:id" 2 (Some 3);
              CallAddRoute "/a" 4 None; CallAddRoutes [("/", 5); ("/c", 6)];
              CallRemoveRoute "/b" 1 None])
  = ["/"; "/b"; "/a"; "/c"; "/a/:id"].
Proof. vm_compute. reflexivity. Qed.

(* ===================================================================== *)
(** * Reconciliation: wildcards, mismatches, white space *)
(* ===================================================================== *)

Lemma rl_loop_mono c p fuel : ∀ v v' fuel',
  rl_loop fuel c p v = Ok v' → fuel ≤ fuel' → rl_loop fuel' c p v = Ok v'.
Proof.
  induction fuel as [|fuel IH]; intros v v' fuel' H Hle; [done|].
  destruct fuel' as [|fuel']; [lia|]. cbn [rl_loop] in H |- *.
  destruct (rl_continue c p v); [|done]. apply IH; [done|lia].
Qed.

Lemma rl_loop_step c p fuel v :
  rl_continue c p v = true →
  rl_loop (S fuel) c p v = rl_loop fuel c p (rl_step c p v).
Proof. intros H. cbn [rl_loop]. by rewrite H. Qed.

Lemma rl_continue_true c p state i j r :
  state ≠ (-1)%Z → i < String.length c → j < String.length p →
  rl_continue c p (RlVars state i j r) = true.
Proof.
  intros Hs Hi Hj. unfold rl_continue. cbn [rl_state rl_i rl_j].
  apply Nat.ltb_lt in Hi as ->. apply Nat.ltb_lt in Hj as ->.
  apply Z.eqb_neq in Hs as ->. done.
Qed.

Lemma hasChar_head c a s : hasChar c (String a s) = false → String a "" ≠ String c "".
Proof.
  cbn [hasChar]. intros H%orb_false_iff. destruct H as [H _].
  intros [= ->]. by rewrite Ascii.eqb_refl in H.
Qed.

Lemma hasChar_append c s t : hasChar c (s +:+ t) = hasChar c s || hasChar c t.
Proof.
  induction s as [|a s IH]; [done|]. rewrite append_cons. cbn [hasChar].
  by rewrite IH, orb_assoc.
Qed.

(** State 0 on a stretch [mid] that template and context share: it is
    copied, one turn a character. *)
Lemma rl_copy_common c p : ∀ mid pre r fuel X Y,
  c = pre +:+ (mid +:+ X) → p = pre +:+ (mid +:+ Y) →
  hasChar "*" mid = false →
  rl_loop (String.length mid + fuel) c p
    (RlVars 0 (String.length pre) (String.length pre) r)
  = rl_loop fuel c p
      (RlVars 0 (String.length (pre +:+ mid)) (String.length (pre +:+ mid)) (r +:+ mid)).
Proof.
  induction mid as [|a mid IH]; intros pre r fuel X Y Hc Hp Hstar.
  - by rewrite !append_nil_r.
  - cbn [String.length Nat.add]. rewrite rl_loop_step.
    2:{ apply rl_continue_true; [done|..]; subst;
        rewrite length_append, append_cons; cbn [String.length]; lia. }
    unfold rl_step.
    assert (Hci : JS.substr c (String.length pre) 1 = String a "")
      by (subst c; rewrite append_cons; apply substr_append_1).
    assert (Hpi : JS.substr p (String.length pre) 1 = String a "")
      by (subst p; rewrite append_cons; apply substr_append_1).
    rewrite Hci, (hasChar_star_eqb a mid Hstar).
    replace (S (String.length pre) - 1) with (String.length pre) by lia.
    rewrite Hci, Hpi, String.eqb_refl. cbn [negb].
    assert (Hlen : S (String.length pre) = String.length (pre +:+ String a ""))
      by (rewrite length_append; simpl; lia).
    rewrite Hlen, (IH (pre +:+ String a "") (r +:+ String a "") fuel X Y).
    + by rewrite !append_assoc.
    + by rewrite Hc, append_assoc.
    + by rewrite Hp, append_assoc.
    + cbn [hasChar] in Hstar. by apply orb_false_iff in Hstar as [_ ?].
Qed.

(** State 0 on a template rest without wildcard, from any position of the
    context and with any result so far: the rest of the template is what
    gets appended. *)
Lemma rl_copy_rest c p : ∀ rest pre j r fuel,
  c = pre +:+ rest → hasChar "*" rest = false → String.length rest < fuel →
  ∃ v, rl_loop fuel c p (RlVars 0 (String.length pre) j r) = Ok v
       ∧ rl_finish c v = JS.trim (r +:+ rest).
Proof.
  induction rest as [|a rest IH]; intros pre j r fuel Hc Hstar Hfuel.
  - destruct fuel as [|fuel]; [simpl in Hfuel; lia|].
    rewrite append_nil_r in Hc. subst pre. cbn [rl_loop].
    unfold rl_continue. cbn [rl_state rl_i rl_j]. rewrite Nat.ltb_irrefl.
    cbn [Z.eqb negb andb].
    eexists; split; [done|]. unfold rl_finish. cbn [rl_state rl_i rl_rLocation Z.eqb negb].
    by rewrite substr_from_length.
  - destruct fuel as [|fuel]; [simpl in Hfuel; lia|].
    simpl in Hfuel. cbn [rl_loop].
    destruct (rl_continue c p _) eqn:Hcont.
    + unfold rl_step.
      assert (Hci : JS.substr c (String.length pre) 1 = String a "")
        by (subst c; apply substr_append_1).
      rewrite Hci, (hasChar_star_eqb a rest Hstar).
      replace (S (String.length pre) - 1) with (String.length pre) by lia.
      replace (S j - 1) with j by lia.
      rewrite Hci.
      destruct (String.eqb (String a "") (JS.substr p j 1)) eqn:Heq; simpl.
      * apply String.eqb_eq in Heq. rewrite <- Heq.
        assert (Hlen : S (String.length pre) = String.length (pre +:+ String a ""))
          by (rewrite length_append; simpl; lia).
        rewrite Hlen.
        destruct (IH (pre +:+ String a "") (S j) (r +:+ String a "") fuel)
          as (v & Hv & Hfin).
        -- by rewrite append_assoc.
        -- simpl in Hstar. by apply orb_false_iff in Hstar as [_ ?].
        -- lia.
        -- exists v. split; [done|]. by rewrite Hfin, append_assoc.
      * destruct fuel as [|fuel]; [lia|]. simpl.
        eexists; split; [done|]. unfold rl_finish. simpl.
        subst c. by rewrite substr_from_append.
    + eexists; split; [done|]. unfold rl_finish. simpl.
      subst c. by rewrite substr_from_append.
Qed.

Lemma rl_context_Some loc p : p ≠ "" → rl_context loc (Some p) = p.
Proof. by destruct p. Qed.

Lemma realLocation_from_loop loc c p fuel v :
  p ≠ "" → rl_loop fuel c p (RlVars 0 0 0 "") = Ok v → fuel ≤ rl_fuel c →
  realLocation loc c (Some p) = Ok (rl_finish c v).
Proof.
  intros Hp Hv Hle. unfold realLocation. rewrite (rl_context_Some loc p Hp).
  by rewrite (rl_loop_mono c p fuel _ v (rl_fuel c) Hv Hle).
Qed.

Lemma append_eq_nil s t : s +:+ t = "" → s = "" ∧ t = "".
Proof. destruct s; [by rewrite append_nil_l|by rewrite append_cons]. Qed.

Lemma find_absent a seg :
  hasChar a seg = false → JS.find (String a "") seg = None.
Proof.
  induction seg as [|b seg IH]; [done|]. cbn [hasChar].
  intros [Hb Hseg]%orb_false_iff. rewrite find_cons, startsWith_cons, Hb.
  by rewrite IH.
Qed.

Lemma find_first a seg tail :
  hasChar a seg = false →
  JS.find (String a "") (seg +:+ String a tail) = Some (String.length seg).
Proof.
  induction seg as [|b seg IH].
  - intros _. rewrite append_nil_l, find_cons, startsWith_cons.
    by rewrite Ascii.eqb_refl.
  - cbn [hasChar]. intros [Hb Hseg]%orb_false_iff.
    rewrite append_cons, find_cons, startsWith_cons, Hb. by rewrite IH.
Qed.

Lemma indexOf_append search pre z :
  JS.indexOf search (pre +:+ z) (String.length pre)
  = (fun k => String.length pre + k) <$> JS.find search z.
Proof.
  unfold JS.indexOf. rewrite length_append.
  replace (String.length pre `min` (String.length pre + String.length z))
    with (String.length pre) by lia.
  by rewrite substr_from_append.
Qed.

Lemma rl_loop_halted c p fuel i j r :
  rl_loop (S fuel) c p (RlVars (-1) i j r) = Ok (RlVars (-1) i j r).
Proof. reflexivity. Qed.

(** X1. A single wildcard stands for the context from where the template
    stopped matching up to the next occurrence of the character that follows
    the wildcard, or up to the end of the context when there is none. *)
Theorem single_wildcard_keeps_segment (loc pre seg tail : string) (a : ascii) (s : string) :
  hasChar "*" pre = false → hasChar "*" (String a s) = false →
  hasChar a seg = false → tail = "" ∨ firstChar tail = Some a →
  seg +:+ tail ≠ "" →
  realLocation loc (pre +:+ ("*" +:+ String a s)) (Some (pre +:+ (seg +:+ tail)))
  = Ok (JS.trim (pre +:+ (seg +:+ String a s))).
Proof.
  intros Hpre Hsuf Hseg Htail Hne.
  set (c := pre +:+ ("*" +:+ String a s)). set (p := pre +:+ (seg +:+ tail)).
  assert (Hp : p ≠ "").
  { intros [_ H]%append_eq_nil. done. }
  assert (Hlc : String.length c = String.length pre + S (S (String.length s)))
    by (unfold c; rewrite length_append; reflexivity).
  assert (Hlp : String.length pre < String.length p).
  { unfold p. rewrite length_append.
    destruct (seg +:+ tail) eqn:E; [done|]. simpl. lia. }
  assert (Hc0 : JS.substr c (String.length pre) 1 = star)
    by (unfold c; rewrite append_cons; apply substr_append_1).
  assert (Hc1 : JS.substr c (S (String.length pre)) 1 = String a "").
  { unfold c. rewrite append_cons, append_nil_l.
    change (pre +:+ String "*" (String a s)) with (pre +:+ (String "*" "" +:+ String a s)).
    rewrite <- append_assoc.
    replace (S (String.length pre)) with (String.length (pre +:+ String "*" ""))
      by (rewrite length_append; simpl; lia).
    apply substr_append_1. }
  assert (Hc2 : JS.substr_from c (S (String.length pre)) = String a s).
  { unfold c. rewrite append_cons, append_nil_l.
    change (pre +:+ String "*" (String a s)) with (pre +:+ (String "*" "" +:+ String a s)).
    rewrite <- append_assoc.
    replace (S (String.length pre)) with (String.length (pre +:+ String "*" ""))
      by (rewrite length_append; simpl; lia).
    apply substr_from_append. }
  assert (Hloop : ∃ v,
    rl_loop (String.length pre + S (S (S (S (S (String.length s)))))) c p (RlVars 0 0 0 "")
    = Ok v ∧ rl_finish c v = JS.trim (pre +:+ (seg +:+ String a s))).
  { change (RlVars 0 0 0 "") with (RlVars 0 (String.length "") (String.length "") "").
    rewrite (rl_copy_common c p pre "" "" _ ("*" +:+ String a s) (seg +:+ tail));
      [|done|done|done].
    rewrite !append_nil_l.
    rewrite rl_loop_step by (apply rl_continue_true; [done|lia|lia]).
    unfold rl_step at 1. rewrite Hc0, String.eqb_refl.
    rewrite rl_loop_step by (apply rl_continue_true; [done|lia|lia]).
    unfold rl_step at 1. rewrite Hc1.
    destruct (String.eqb (String a "") star) eqn:E.
    { apply String.eqb_eq in E. by apply hasChar_head in Hsuf. }
    rewrite rl_loop_step by (apply rl_continue_true; [done|lia|lia]).
    unfold rl_step at 1. rewrite Hc1.
    assert (Hidx : JS.indexOf (String a "") p (String.length pre)
                   = (fun k => String.length pre + k) <$> JS.find (String a "") (seg +:+ tail))
      by apply indexOf_append.
    rewrite Hidx. clear Hidx.
    destruct Htail as [->|Htail].
    - rewrite append_nil_r, (find_absent a seg Hseg). cbn [fmap option_fmap option_map].
      rewrite rl_loop_halted. eexists; split; [done|].
      unfold rl_finish. cbn [rl_state rl_rLocation Z.eqb negb].
      rewrite Hc2. unfold p. by rewrite append_nil_r, substr_from_append.
    - destruct tail as [|b tail]; [done|]. injection Htail as ->.
      rewrite (find_first a seg tail Hseg). cbn [fmap option_fmap option_map].
      assert (Hsub : JS.substr p (String.length pre)
                       (Z.of_nat (String.length pre + String.length seg)
                        - Z.of_nat (String.length pre)) = seg).
      { unfold JS.substr, p. rewrite substr_from_append.
        replace (Z.to_nat _) with (String.length seg) by lia. apply take_append. }
      rewrite Hsub.
      destruct (rl_copy_rest c p (String a s) (pre +:+ String "*" "")
                  (String.length pre + String.length seg) (pre +:+ seg)
                  (S (S (String.length s)))) as (v & Hv & Hfin).
      + unfold c. by rewrite append_assoc.
      + done.
      + simpl. lia.
      + replace (String.length (pre +:+ String "*" "")) with (S (String.length pre)) in Hv
          by (rewrite length_append; simpl; lia).
        exists v. split; [done|]. by rewrite Hfin, append_assoc. }
  destruct Hloop as (v & Hv & Hfin).
  rewrite <- Hfin. apply (realLocation_from_loop loc c p _ v Hp Hv).
  unfold rl_fuel. lia.
Qed.

Lemma single_wildcard_keeps_segment_witness :
  (hasChar "*" "" = false ∧ hasChar "*" "/edit" = false ∧ hasChar "/" "a" = false
   ∧ ("/b/c" = "" ∨ firstChar "/b/c" = Some "/"%char) ∧ "a" +:+ "/b/c" ≠ "")
  ∧ realLocation "" "*/edit" (Some "a/b/c") = Ok "a/edit".
Proof.
  assert (H : "a" +:+ "/b/c" ≠ "") by discriminate.
  split; [repeat split; first [reflexivity | by right | done]|].
  exact (single_wildcard_keeps_segment "" "" "a" "/b/c" "/" "edit"
           eq_refl eq_refl eq_refl (or_intror eq_refl) H).
Defined.

Lemma single_position pre x rest :
  JS.substr (pre +:+ String x rest) (String.length pre) 1 = String x ""
  ∧ JS.substr_from (pre +:+ String x rest) (String.length pre) = String x rest.
Proof. split; [apply substr_append_1|apply substr_from_append]. Qed.

(** X2. A double wildcard stands for the context from where the template
    stopped matching up to the last occurrence, anywhere in the context, of
    the character that follows the wildcard; for nothing when that
    occurrence lies before, or when there is none. *)
Theorem double_wildcard_jumps_to_last (loc pre Y : string) (a : ascii) (s : string) :
  hasChar "*" pre = false → hasChar "*" (String a s) = false → Y ≠ "" →
  realLocation loc (pre +:+ ("**" +:+ String a s)) (Some (pre +:+ Y))
  = Ok (JS.trim
          (pre +:+
           (match JS.lastIndexOf (String a "") (pre +:+ Y) with
            | Some k => JS.substr (pre +:+ Y) (String.length pre)
                          (Z.of_nat k - Z.of_nat (String.length pre))
            | None => ""
            end +:+ String a s))).
Proof.
  intros Hpre Hsuf HY.
  set (c := pre +:+ ("**" +:+ String a s)). set (p := pre +:+ Y).
  assert (Hp : p ≠ "") by (by intros [_ H]%append_eq_nil).
  assert (Hlc : String.length c = String.length pre + S (S (S (String.length s))))
    by (unfold c; rewrite length_append; reflexivity).
  assert (Hlp : String.length pre < String.length p).
  { unfold p. rewrite length_append. destruct Y; [done|]. simpl. lia. }
  assert (Hc0 : JS.substr c (String.length pre) 1 = star)
    by (unfold c; rewrite !append_cons; apply substr_append_1).
  assert (Hlen1 : S (String.length pre) = String.length (pre +:+ String "*" ""))
    by (rewrite length_append; simpl; lia).
  assert (Hlen2 : S (S (String.length pre)) = String.length (pre +:+ String "*" (String "*" "")))
    by (rewrite length_append; simpl; lia).
  assert (Hcs1 : c = (pre +:+ String "*" "") +:+ String "*" (String a s))
    by (unfold c; by rewrite append_assoc).
  assert (Hcs2 : c = (pre +:+ String "*" (String "*" "")) +:+ String a s)
    by (unfold c; by rewrite append_assoc).
  assert (Hc1 : JS.substr c (S (String.length pre)) 1 = star)
    by (rewrite Hlen1, Hcs1; apply substr_append_1).
  assert (Hc2 : JS.substr c (S (S (String.length pre))) 1 = String a "")
    by (rewrite Hlen2, Hcs2; apply substr_append_1).
  assert (Hc3 : JS.substr_from c (S (S (String.length pre))) = String a s)
    by (rewrite Hlen2, Hcs2; apply substr_from_append).
  assert (Hloop : ∃ v,
    rl_loop (String.length pre + S (S (S (S (S (String.length s)))))) c p (RlVars 0 0 0 "")
    = Ok v
    ∧ rl_finish c v
      = JS.trim (pre +:+
                 (match JS.lastIndexOf (String a "") p with
                  | Some k => JS.substr p (String.length pre)
                                (Z.of_nat k - Z.of_nat (String.length pre))
                  | None => ""
                  end +:+ String a s))).
  { change (RlVars 0 0 0 "") with (RlVars 0 (String.length "") (String.length "") "").
    rewrite (rl_copy_common c p pre "" "" _ ("**" +:+ String a s) Y); [|done|done|done].
    rewrite !append_nil_l.
    rewrite rl_loop_step by (apply rl_continue_true; [done|lia|lia]).
    unfold rl_step at 1. rewrite Hc0, String.eqb_refl.
    rewrite rl_loop_step by (apply rl_continue_true; [done|lia|lia]).
    unfold rl_step at 1. rewrite Hc1, String.eqb_refl.
    rewrite rl_loop_step by (apply rl_continue_true; [done|lia|lia]).
    unfold rl_step at 1. rewrite Hc2.
    destruct (JS.lastIndexOf (String a "") p) as [k|].
    - destruct (rl_copy_rest c p (String a s) (pre +:+ String "*" (String "*" "")) k
                  (pre +:+ JS.substr p (String.length pre)
                             (Z.of_nat k - Z.of_nat (String.length pre)))
                  (S (S (String.length s)))) as (v & Hv & Hfin);
        [done|done|simpl; lia|].
      rewrite <- Hlen2 in Hv. exists v. split; [done|].
      by rewrite Hfin, append_assoc.
    - rewrite rl_loop_halted. eexists; split; [done|].
      unfold rl_finish. cbn [rl_state rl_rLocation Z.eqb negb].
      by rewrite Hc3, append_nil_l. }
  destruct Hloop as (v & Hv & Hfin).
  rewrite <- Hfin. apply (realLocation_from_loop loc c p _ v Hp Hv).
  unfold rl_fuel. lia.
Qed.

Lemma double_wildcard_jumps_to_last_witness :
  (hasChar "*" "a" = false ∧ hasChar "*" "/x" = false ∧ "/b/c/d" ≠ "")
  ∧ realLocation "" "a**/x" (Some "a/b/c/d") = Ok "a/b/c/x".
Proof.
  assert (H : "/b/c/d" ≠ "") by discriminate.
  split; [done|].
  exact (double_wildcard_jumps_to_last "" "a" "/b/c/d" "/" "x" eq_refl eq_refl H).
Defined.

(** X3. A literal of the template that differs from the context ends the
    reconciliation: the template is the result as it is written, wildcards
    after the mismatch included. *)
Theorem literal_mismatch_keeps_template (loc pre rest tail : string) (a b : ascii) :
  hasChar "*" pre = false → a ≠ "*"%char → a ≠ b →
  realLocation loc (pre +:+ String a rest) (Some (pre +:+ String b tail))
  = Ok (JS.trim (pre +:+ String a rest)).
Proof.
  intros Hpre Ha Hab.
  set (c := pre +:+ String a rest). set (p := pre +:+ String b tail).
  assert (Hp : p ≠ "") by (by intros [_ H]%append_eq_nil).
  assert (Hlc : String.length pre < String.length c)
    by (unfold c; rewrite length_append; simpl; lia).
  assert (Hlp : String.length pre < String.length p)
    by (unfold p; rewrite length_append; simpl; lia).
  destruct (single_position pre a rest) as [Hc0 Hc1].
  destruct (single_position pre b tail) as [Hp0 _].
  assert (Hloop : rl_loop (String.length pre + 2) c p (RlVars 0 0 0 "")
                  = Ok (RlVars (-1) (S (String.length pre)) (S (String.length pre)) c)).
  { change (RlVars 0 0 0 "") with (RlVars 0 (String.length "") (String.length "") "").
    rewrite (rl_copy_common c p pre "" "" _ (String a rest) (String b tail));
      [|done|done|done].
    rewrite !append_nil_l.
    rewrite rl_loop_step by (apply rl_continue_true; [done|lia|lia]).
    unfold rl_step. fold c p in Hc0, Hc1, Hp0.
    replace (S (String.length pre) - 1) with (String.length pre) by lia.
    rewrite Hc0, Hp0, Hc1.
    assert (E1 : String.eqb (String a "") star = false)
      by (apply String.eqb_neq; intros [= ->]; done).
    assert (E2 : String.eqb (String a "") (String b "") = false)
      by (apply String.eqb_neq; intros [= ->]; done).
    rewrite E1, E2. cbn [negb]. by rewrite rl_loop_halted. }
  rewrite (realLocation_from_loop loc c p _ _ Hp Hloop); [done|].
  unfold rl_fuel. lia.
Qed.

Lemma literal_mismatch_keeps_template_witness :
  (hasChar "*" "/" = false ∧ "x"%char ≠ "*"%char ∧ "x"%char ≠ "y"%char)
  ∧ realLocation "" "/x/*" (Some "/y/z") = Ok "/x/*".
Proof.
  assert (H1 : "x"%char ≠ "*"%char) by discriminate.
  assert (H2 : "x"%char ≠ "y"%char) by discriminate.
  split; [done|].
  exact (literal_mismatch_keeps_template "" "/" "/*" "/z" "x" "y" eq_refl H1 H2).
Defined.

(** X4. A template that goes on after the whole context has matched is the
    result as it is written: a wildcard met when the context is used up is
    kept as a character. *)
Theorem template_beyond_context (loc p rest : string) :
  p ≠ "" → hasChar "*" p = false →
  realLocation loc (p +:+ rest) (Some p) = Ok (JS.trim (p +:+ rest)).
Proof.
  intros Hp Hstar. set (c := p +:+ rest).
  assert (Hloop : rl_loop (String.length p + 1) c p (RlVars 0 0 0 "")
                  = Ok (RlVars 0 (String.length p) (String.length p) p)).
  { change (RlVars 0 0 0 "") with (RlVars 0 (String.length "") (String.length "") "").
    rewrite (rl_copy_common c p p "" "" _ rest ""); [|done|by rewrite append_nil_r|done].
    rewrite !append_nil_l. cbn [rl_loop]. unfold rl_continue.
    cbn [rl_state rl_i rl_j]. by rewrite Nat.ltb_irrefl, andb_false_r. }
  rewrite (realLocation_from_loop loc c p _ _ Hp Hloop).
  - unfold rl_finish. cbn [rl_state rl_i rl_rLocation Z.eqb negb].
    unfold c. by rewrite substr_from_append.
  - unfold rl_fuel, c. rewrite length_append. lia.
Qed.

Lemma template_beyond_context_witness :
  ("a" ≠ "" ∧ hasChar "*" "a" = false)
  ∧ realLocation "" "a/*/b" (Some "a") = Ok "a/*/b".
Proof.
  assert (H : "a" ≠ "") by discriminate.
  split; [done|]. exact (template_beyond_context "" "a" "/*/b" H eq_refl).
Defined.

(* ===================================================================== *)
(** * Canonical locations and redirects *)
(* ===================================================================== *)

Lemma trimStart_first s c :
  firstChar (JS.trimStart s) = Some c → JS.isWhiteSpace c = false.
Proof.
  induction s as [|a s IH]; [done|]. cbn [JS.trimStart].
  destruct (JS.isWhiteSpace a) eqn:Ha; [done|]. by intros [= <-].
Qed.

Lemma trimEnd_cons a s :
  JS.trimEnd (String a s)
  = match JS.trimEnd s with
    | EmptyString => if JS.isWhiteSpace a then "" else String a ""
    | r' => String a r'
    end.
Proof. done. Qed.

Lemma trimEnd_first s c : firstChar (JS.trimEnd s) = Some c → firstChar s = Some c.
Proof.
  destruct s as [|a s]; [done|]. rewrite trimEnd_cons.
  destruct (JS.trimEnd s); [destruct (JS.isWhiteSpace a)|]; done.
Qed.

Lemma trimEnd_last s : ∀ c, lastChar (JS.trimEnd s) = Some c → JS.isWhiteSpace c = false.
Proof.
  induction s as [|a s IH]; intros c; [done|]. rewrite trimEnd_cons.
  destruct (JS.trimEnd s) as [|b r] eqn:E.
  - destruct (JS.isWhiteSpace a) eqn:Ha; [done|]. by intros [= <-].
  - intros H. by apply IH.
Qed.

Lemma trimmed_trim s : trimmed (JS.trim s).
Proof.
  split; intros c H.
  - apply (trimStart_first s). by apply trimEnd_first.
  - by apply (trimEnd_last (JS.trimStart s)).
Qed.

Lemma trim_idempotent s : JS.trim (JS.trim s) = JS.trim s.
Proof. apply trim_trimmed, trimmed_trim. Qed.

Lemma hasChar_trimStart c s : hasChar c s = false → hasChar c (JS.trimStart s) = false.
Proof.
  induction s as [|a s IH]; [done|]. intros H. cbn [JS.trimStart].
  destruct (JS.isWhiteSpace a); [|done].
  cbn [hasChar] in H. apply orb_false_iff in H as [_ H]. by apply IH.
Qed.

Lemma hasChar_trimEnd c s : hasChar c s = false → hasChar c (JS.trimEnd s) = false.
Proof.
  induction s as [|a s IH]; [done|]. intros H. rewrite trimEnd_cons.
  cbn [hasChar] in H. apply orb_false_iff in H as [Ha H]. specialize (IH H).
  destruct (JS.trimEnd s) as [|b r].
  - destruct (JS.isWhiteSpace a); [done|]. cbn [hasChar]. by rewrite Ha.
  - cbn [hasChar] in *. by rewrite Ha, IH.
Qed.

Lemma hasChar_trim c s : hasChar c s = false → hasChar c (JS.trim s) = false.
Proof. intros H. by apply hasChar_trimEnd, hasChar_trimStart. Qed.

Lemma realLocation_trimmed loc c p r : realLocation loc c p = Ok r → trimmed r.
Proof.
  unfold realLocation. intros H. bind_inv H. injection H as <-.
  unfold rl_finish. apply trimmed_trim.
Qed.

(** X5. A notification whose hash, without wildcard, has white space at an end
    is answered by one redirect to the trimmed hash and changes nothing
    else: the counter of silenced notifications is not touched. The
    notification for the trimmed hash is not redirected again: it commits
    the trimmed text as the location. *)
Theorem untrimmed_hash_redirects_once
    (script : handler → string → eventArgs → list action)
    (fuel fuel' : nat) (hash : string) (st : Router) :
  hasChar "*" (JS.substr_from hash 1) = false →
  JS.trim (JS.substr_from hash 1) ≠ JS.substr_from hash 1 →
  onLocationChanged script fuel hash st
  = Ok (emit (LocationReplaced ("#" +:+ JS.trim (JS.substr_from hash 1))) st)
  ∧ onLocationChanged script fuel' ("#" +:+ JS.trim (JS.substr_from hash 1))
      (emit (LocationReplaced ("#" +:+ JS.trim (JS.substr_from hash 1))) st)
    = if (0 <? ignoreHashchangeEvent st)%Z
      then Ok (setIgnore (ignoreHashchangeEvent st - 1)%Z
                 (setLocation (JS.trim (JS.substr_from hash 1))
                    (JS.split "/" (JS.trim (JS.substr_from hash 1)))
                    (emit (LocationReplaced ("#" +:+ JS.trim (JS.substr_from hash 1))) st)))
      else dispatchLoop script fuel' 0
             (setLocation (JS.trim (JS.substr_from hash 1))
                (JS.split "/" (JS.trim (JS.substr_from hash 1)))
                (emit (LocationReplaced ("#" +:+ JS.trim (JS.substr_from hash 1))) st)).
Proof.
  set (c := JS.substr_from hash 1). intros Hstar Hne. split.
  - unfold onLocationChanged. fold c.
    rewrite (realLocation_star_free _ c None Hstar). cbn [mbind result_bind].
    destruct (String.eqb c (JS.trim c)) eqn:E; [|done].
    apply String.eqb_eq in E. by destruct Hne.
  - unfold onLocationChanged.
    change (JS.substr_from ("#" +:+ JS.trim c) 1) with (JS.substr_from (JS.trim c) 0).
    rewrite substr_from_0.
    rewrite (realLocation_star_free _ (JS.trim c) None (hasChar_trim _ _ Hstar)).
    cbn [mbind result_bind]. rewrite trim_idempotent, String.eqb_refl. done.
Qed.

Lemma untrimmed_hash_redirects_once_witness :
  (hasChar "*" (JS.substr_from "#/a " 1) = false
   ∧ JS.trim (JS.substr_from "#/a " 1) ≠ JS.substr_from "#/a " 1)
  ∧ onLocationChanged noScript 1 "#/a " emptyRouter
    = Ok (emit (LocationReplaced "#/a") emptyRouter)
  ∧ ∃ st', onLocationChanged noScript 1 "#/a" (emit (LocationReplaced "#/a") emptyRouter)
           = Ok st'
      ∧ location st' = "/a" ∧ trace st' = [LocationReplaced "#/a"].
Proof.
  assert (H : JS.trim (JS.substr_from "#/a " 1) ≠ JS.substr_from "#/a " 1) by discriminate.
  split; [done|].
  destruct (untrimmed_hash_redirects_once noScript 1 1 "#/a " emptyRouter eq_refl H)
    as [H1 H2].
  split; [exact H1|].
  eexists. split; [exact H2|]. done.
Defined.

(* ===================================================================== *)
(** * What calls and dispatches leave alone *)
(* ===================================================================== *)

Lemma freshRoute_sameCore k r r' : freshRoute k r → sameCore r r' → freshRoute k r'.
Proof.
  unfold freshRoute, sameCore. intros (?&?&?&?&?) (?&?&?&?&?&?).
  repeat split; congruence.
Qed.

Section call_step.

Variable P : effect → Prop.

Lemma callStep_refl st : callStep P st st.
Proof.
  split; [done|]. split; [done|]. split; [lia|]. split; [|split].
  - intros k r Hr. exists r. split; [done|apply sameCore_refl].
  - intros k r' Hr' Hn. congruence.
  - exists []. by rewrite app_nil_r.
Qed.

Lemma callStep_trans st1 st2 st3 :
  callStep P st1 st2 → callStep P st2 st3 → callStep P st1 st3.
Proof.
  intros (Hl1 & Ha1 & Hi1 & Hr1 & Hn1 & t1 & Ht1 & Hp1)
         (Hl2 & Ha2 & Hi2 & Hr2 & Hn2 & t2 & Ht2 & Hp2).
  split; [congruence|]. split; [congruence|]. split; [lia|]. split; [|split].
  - intros k r Hr. destruct (Hr1 k r Hr) as (r' & Hr' & Hc).
    destruct (Hr2 k r' Hr') as (r'' & Hr'' & Hc').
    exists r''. split; [done|]. by eapply sameCore_trans.
  - intros k r3 Hr3 Hnone. destruct (routes st2 !! k) as [r2|] eqn:E2.
    + destruct (Hr2 k r2 E2) as (r3' & Hr3' & Hc).
      assert (r3' = r3) as -> by congruence.
      eapply freshRoute_sameCore; [|exact Hc]. by eapply Hn1.
    + by apply Hn2.
  - exists (t1 ++ t2). rewrite Ht2, Ht1, app_assoc. split; [done|].
    by apply Forall_app.
Qed.

Lemma callStep_same st st' :
  routes st' = routes st → location st' = location st → args st' = args st →
  ignoreHashchangeEvent st' = ignoreHashchangeEvent st → trace st' = trace st →
  callStep P st st'.
Proof.
  intros Hr Hl Ha Hi Ht.
  split; [done|]. split; [done|]. split; [lia|]. split; [|split].
  - intros k r Hk. exists r. rewrite Hr. split; [done|apply sameCore_refl].
  - intros k r' Hr' Hn. congruence.
  - exists []. by rewrite app_nil_r.
Qed.

Lemma callStep_emit e st : P e → callStep P st (emit e st).
Proof.
  intros He. split; [done|]. split; [done|]. split; [simpl; lia|]. split; [|split].
  - intros k r Hr. exists r. split; [done|apply sameCore_refl].
  - intros k r' Hr' Hn. simpl in Hr'. congruence.
  - exists [e]. split; [done|]. by constructor.
Qed.

Lemma callStep_onRoute key f st st' :
  (∀ r, sameCore r (f r)) → onRoute key f st = Ok st' → callStep P st st'.
Proof.
  intros Hf. unfold onRoute. destruct (routes st !! key) as [r|] eqn:Hr; [|done].
  intros [= <-]. split; [done|]. split; [done|]. split; [simpl; lia|]. split; [|split].
  - intros k rk Hk. simpl. destruct (decide (key = k)) as [->|Hne].
    + rewrite lookup_insert_eq. exists (f r). split; [done|].
      rewrite Hr in Hk. injection Hk as <-. apply Hf.
    + rewrite lookup_insert_ne by done. exists rk. split; [done|apply sameCore_refl].
  - intros k r' Hr' Hn. simpl in Hr'. destruct (decide (key = k)) as [->|Hne].
    + congruence.
    + rewrite lookup_insert_ne in Hr' by done. congruence.
  - exists []. by rewrite app_nil_r.
Qed.

Lemma callStep_createRoute route st st' :
  routes st !! route = None → createRoute route st = Ok st' → callStep P st st'.
Proof.
  intros Hnew. unfold createRoute, newRoute.
  destruct (_compileRoute route) as [[ps re]|] eqn:Hc; [|done].
  cbn [mbind result_bind]. intros [= <-].
  split; [done|]. split; [done|]. split; [simpl; lia|]. split; [|split].
  - intros k rk Hk. simpl. exists rk. split; [|apply sameCore_refl].
    rewrite lookup_insert_ne; [done|]. intros ->. congruence.
  - intros k r' Hr' Hn. simpl in Hr'. destruct (decide (route = k)) as [->|Hne].
    + rewrite lookup_insert_eq in Hr'. injection Hr' as <-. by repeat split.
    + rewrite lookup_insert_ne in Hr' by done. congruence.
  - exists []. by rewrite app_nil_r.
Qed.

Lemma callStep_sortRoutes st st' : sortRoutes st = Ok st' → callStep P st st'.
Proof.
  unfold sortRoutes. destruct (jsSort _ _) as [l|]; [|done].
  intros [= <-]. by apply callStep_same.
Qed.

Lemma callStep_addRoute route h u st st' :
  addRoute route h u st = Ok st' → callStep P st st'.
Proof.
  unfold addRoute. intros H. bind_inv H.
  assert (H1 : callStep P st st0).
  { destruct (hasRoute st route) eqn:Hh.
    - injection E as <-. apply callStep_refl.
    - apply hasRoute_false in Hh as [Hr _].
      bind_inv E. eapply callStep_trans.
      + by eapply callStep_createRoute.
      + by eapply callStep_sortRoutes. }
  eapply callStep_trans; [exact H1|].
  destruct u as [u|].
  - bind_inv H. eapply callStep_trans;
      eapply callStep_onRoute; eauto using sameCore_addHandler.
  - eapply callStep_onRoute; eauto using sameCore_addHandler.
Qed.

Lemma callStep_addRoutesLoop l : ∀ st st',
  addRoutesLoop l st = Ok st' → callStep P st st'.
Proof.
  induction l as [|[i h] l IH]; intros st st' H.
  - injection H as <-. apply callStep_refl.
  - cbn [addRoutesLoop] in H. bind_inv H. bind_inv H.
    eapply callStep_trans; [|eapply callStep_trans; [|by eapply IH]].
    + destruct (hasRoute st i) eqn:Hh.
      * injection E as <-. apply callStep_refl.
      * apply hasRoute_false in Hh as [Hr _]. by eapply callStep_createRoute.
    + eapply callStep_onRoute; eauto using sameCore_addHandler.
Qed.

Lemma callStep_addRoutes l st st' : addRoutes l st = Ok st' → callStep P st st'.
Proof.
  unfold addRoutes. intros H. bind_inv H.
  eapply callStep_trans; [by eapply callStep_addRoutesLoop|].
  by eapply callStep_sortRoutes.
Qed.

Lemma callStep_removeRoute route h u st st' :
  removeRoute route h u st = Ok st' → callStep P st st'.
Proof.
  unfold removeRoute. destruct (hasRoute st route).
  - destruct u as [u|]; intros H.
    + bind_inv H. eapply callStep_trans;
        eapply callStep_onRoute; eauto using sameCore_removeHandler.
    + eapply callStep_onRoute; eauto using sameCore_removeHandler.
  - intros [= <-]. apply callStep_refl.
Qed.

Lemma callStep_removeRoutes l : ∀ st st',
  removeRoutes l st = Ok st' → callStep P st st'.
Proof.
  induction l as [|[i h] l IH]; intros st st' H.
  - injection H as <-. apply callStep_refl.
  - cbn [removeRoutes] in H. destruct (hasRoute st i); [|by apply IH].
    bind_inv H. eapply callStep_trans; [|by eapply IH].
    eapply callStep_onRoute; eauto using sameCore_removeHandler.
Qed.

Hypothesis P_assign : ∀ hash, P (HashAssigned hash).

Lemma callStep_setRoute route silent st st' :
  setRoute route silent st = Ok st' → callStep P st st'.
Proof.
  unfold setRoute. intros H. bind_inv H.
  destruct (String.eqb st0 (location st)).
  - injection H as <-. apply callStep_refl.
  - injection H as <-.
    split; [by destruct silent|]. split; [by destruct silent|].
    split; [destruct silent; simpl; lia|]. split; [|split].
    + intros k r Hr. exists r. split; [by destruct silent|apply sameCore_refl].
    + intros k r' Hr' Hn. destruct silent; simpl in Hr'; congruence.
    + exists [HashAssigned st0]. split; [by destruct silent|]. by constructor.
Qed.

Lemma callStep_runAction a st st' : runAction a st = Ok st' → callStep P st st'.
Proof.
  destruct a; simpl;
    eauto using callStep_addRoute, callStep_addRoutes, callStep_removeRoute,
      callStep_removeRoutes, callStep_setRoute.
Qed.

Lemma callStep_runActions l : ∀ st st',
  runActions l st = Ok st' → callStep P st st'.
Proof.
  induction l as [|a l IH]; intros st st' H.
  - injection H as <-. apply callStep_refl.
  - cbn [runActions] in H. bind_inv H.
    eapply callStep_trans; [by eapply callStep_runAction|by eapply IH].
Qed.

End call_step.

Section listeners_step.

Variable script : handler → string → eventArgs → list action.

Lemma callStep_callListeners name a hs : ∀ st st',
  callListeners script hs name a st = Ok st' → callStep assignsOrInvokes st st'.
Proof.
  induction hs as [|h hs IH]; intros st st' H.
  - injection H as <-. apply callStep_refl.
  - cbn [callListeners] in H. bind_inv H.
    eapply callStep_trans; [by apply (callStep_emit _ (Invoked h name a))|].
    eapply callStep_trans; [|by eapply IH].
    by eapply callStep_runActions.
Qed.

Lemma callStep_dispatchEvent key name a st st' :
  dispatchEvent script key name a st = Ok st' → callStep assignsOrInvokes st st'.
Proof.
  unfold dispatchEvent. destruct (routes st !! key); [|done].
  apply callStep_callListeners.
Qed.

End listeners_step.

Lemma dispatchStep_sandwich P key f g st st2 this :
  routes st !! key = Some this → keepsCompiled f → keepsCompiled g →
  callStep P (assign key f st) st2 →
  (∀ r, sameCore (f this) r → restState (g r)) →
  dispatchStep key st (assign key g st2).
Proof.
  intros Hthis Hf Hg (Hl & Ha & Hi & Hr & Hn & _) Hrest.
  split; [done|]. split; [done|]. split; [done|]. split.
  - intros k r Hk. destruct (decide (k = key)) as [->|Hne].
    + assert (r = this) as -> by congruence.
      destruct (Hr key (f this)) as (r2 & Hr2 & Hc); [by apply assign_lookup|].
      exists (g r2). split; [by apply assign_lookup|].
      pose proof (Hrest r2 Hc) as Hrest2.
      destruct (Hg r2) as (-> & -> & ->). destruct Hc as (-> & -> & -> & _).
      destruct (Hf this) as (-> & -> & ->).
      split; [done|]. split; [done|]. split; [done|]. split; [|done].
      intros _. exact Hrest2.
    + destruct (Hr k r) as (r2 & Hr2 & Hc).
      { simpl. by rewrite lookup_alter_ne. }
      exists r2. split; [simpl; by rewrite lookup_alter_ne|].
      destruct Hc as (? & ? & ? & ? & ? & ?).
      split; [done|]. split; [done|]. split; [done|]. split; [done|].
      intros _. by repeat split.
  - intros k r' Hr' Hnone.
    assert (Hne : key ≠ k) by (intros ->; congruence).
    simpl in Hr'. rewrite lookup_alter_ne in Hr' by done.
    apply Hn; [done|]. simpl. by rewrite lookup_alter_ne.
Qed.

Lemma assign_assign key f g st :
  assign key g (assign key f st) = assign key (g ∘ f) st.
Proof. unfold assign, setRoutes. simpl. by rewrite alter_alter_eq. Qed.

Section dispatch_step.

Variable script : handler → string → eventArgs → list action.

Lemma dispatch_step key loc st0 b st' :
  dispatch script key loc st0 = Ok (b, st') → dispatchStep key st0 st'.
Proof.
  unfold dispatch. cbn zeta.
  change (dispatchStep key st0 st') with (dispatchStep key (emit (Dispatched key loc) st0) st').
  set (st := emit (Dispatched key loc) st0).
  destruct (routes st !! key) as [this|] eqn:Hthis; [|done].
  intros H. bind_inv H. destruct st1 as [ms|].
  - destruct (argsLoop (params this) 0 ms {[ "route" := VRoute key ]} "")
      as [a str] eqn:Ea.
    bind_inv H. injection H as <- <-. rewrite assign_assign.
    eapply (dispatchStep_sandwich assignsOrInvokes key
              (setChanged (differs str (s_args this)))); [done|done|done| |].
    + by eapply callStep_dispatchEvent.
    + intros r (_ & _ & Hpa & _). split; [done|]. intros _. exists ms. simpl.
      unfold argsString. simpl. simpl in Hpa. rewrite Hpa.
      rewrite (argsLoop_snd _ _ _ _ {[ "route" := VRoute key ]}). by rewrite Ea.
  - bind_inv H. injection H as <- <-.
    eapply (dispatchStep_sandwich assignsOrInvokes key (setSArgs None));
      [done|done|done| |].
    + destruct (active this).
      * by eapply callStep_dispatchEvent.
      * injection E0 as <-. apply callStep_refl.
    + intros r (_ & _ & _ & Hs & _). split; [|done]. intros _. simpl. by rewrite Hs.
Qed.

Lemma dispatch_lookup key loc st b st' :
  dispatch script key loc st = Ok (b, st') →
  ∃ this m, routes st !! key = Some this ∧ jsMatch loc (routeRegex this) = Ok m.
Proof.
  unfold dispatch. cbn zeta. simpl.
  destruct (routes st !! key) as [this|]; [|done].
  destruct (jsMatch loc (routeRegex this)) as [m|] eqn:Em; [|done]. eauto.
Qed.

End dispatch_step.

Lemma restState_sameCore r r' : sameCore r r' → restState r → restState r'.
Proof.
  intros (_ & _ & Hpa & Hsa & Hac & _) [H1 H2]. unfold restState.
  rewrite Hsa, Hac. split; [done|]. intros Ha. destruct (H2 Ha) as [ms Hms].
  exists ms. rewrite Hms. unfold argsString. by rewrite Hpa.
Qed.

Lemma restState_fresh k r : freshRoute k r → restState r.
Proof.
  intros (_ & _ & Hs & Ha & _). split; [done|]. by rewrite Ha.
Qed.

Lemma routesOk_callStep P st st' :
  (∀ k r, routes st !! k = Some r → routeOk k r) → callStep P st st' →
  ∀ k r, routes st' !! k = Some r → routeOk k r.
Proof.
  intros Hok (_ & _ & _ & Hr & Hn & _) k r' Hr'.
  destruct (routes st !! k) as [r|] eqn:E.
  - destruct (Hr k r E) as (r'' & Hr'' & Hc). assert (r'' = r') as -> by congruence.
    destruct (Hok k r E) as (Hv & Hcomp & Hs).
    pose proof (restState_sameCore _ _ Hc Hs) as Hs'.
    destruct Hc as (Hc1 & Hc2 & Hc3 & _).
    unfold routeOk. rewrite Hc1, Hc2, Hc3. done.
  - pose proof (restState_fresh _ _ (Hn k r' Hr' E)) as Hs'.
    destruct (Hn k r' Hr' E) as (? & ? & _). by split.
Qed.

Lemma routesOk_dispatchStep key st st' :
  (∀ k r, routes st !! k = Some r → routeOk k r) → dispatchStep key st st' →
  ∀ k r, routes st' !! k = Some r → routeOk k r.
Proof.
  intros Hok (_ & _ & _ & Hr & Hn) k r' Hr'.
  destruct (routes st !! k) as [r|] eqn:E.
  - destruct (Hr k r E) as (r'' & Hr'' & Hc1 & Hc2 & Hc3 & Hkey & Hother).
    assert (r'' = r') as -> by congruence.
    destruct (Hok k r E) as (Hv & Hcomp & Hs).
    unfold routeOk. rewrite Hc1, Hc2, Hc3. split; [done|]. split; [done|].
    destruct (decide (k = key)) as [Hk|Hk]; [by apply Hkey|].
    by eapply restState_sameCore; [apply Hother|].
  - pose proof (restState_fresh _ _ (Hn k r' Hr' E)) as Hs'.
    destruct (Hn k r' Hr' E) as (? & ? & _). by split.
Qed.

Lemma routerOk_frame st st' :
  routerOk st →
  location st' = location st → args st' = args st →
  (ignoreHashchangeEvent st ≤ ignoreHashchangeEvent st')%Z →
  (∃ hist, tableInv st' hist) →
  (∀ k r, routes st' !! k = Some r → routeOk k r) →
  routerOk st'.
Proof.
  intros [Ht Hr Hc Hl Ha] El Ea Hi Ht' Hr'.
  split; [done|done|lia|by rewrite El|by rewrite Ea, El].
Qed.

Lemma routerOk_empty : routerOk emptyRouter.
Proof.
  split.
  - exists []. apply tableInv_empty.
  - intros k r Hr. simpl in Hr. by rewrite lookup_empty in Hr.
  - done.
  - by split.
  - by left.
Qed.

Lemma runAction_ok a st st' : routerOk st → runAction a st = Ok st' → routerOk st'.
Proof.
  intros Hok Hrun.
  pose proof (callStep_runAction assignsHash (fun _ => I) a st st' Hrun) as Hstep.
  destruct (ok_table st Hok) as [hist Hinv].
  destruct (runAction_inv a st hist Hinv) as (st'' & Hrun' & Hinv').
  assert (st'' = st') as -> by congruence.
  pose proof Hstep as (Hl & Ha & Hi & _).
  apply (routerOk_frame st); [done|done|done|done|by eexists|].
  eapply (routesOk_callStep assignsHash st); [by apply ok_routes|exact Hstep].
Qed.

Section pass_ok.

Variable script : handler → string → eventArgs → list action.

Lemma dispatch_ok key loc st b st' :
  routerOk st → dispatch script key loc st = Ok (b, st') → routerOk st'.
Proof.
  intros Hok Hd.
  destruct (dispatch_lookup script key loc st b st' Hd) as (this & m & Hthis & Hm).
  destruct (ok_table st Hok) as [hist Hinv].
  destruct (dispatch_inv script key loc st hist this m Hinv Hthis Hm)
    as (st'' & hist' & r' & Hd' & Hinv' & _).
  assert (st'' = st') as -> by congruence.
  pose proof (dispatch_step script key loc st b st' Hd) as Hstep.
  pose proof Hstep as (Hl & Ha & Hi & _).
  apply (routerOk_frame st); [done|done|done|done|by eexists|].
  eapply routesOk_dispatchStep; [by apply ok_routes|exact Hstep].
Qed.

Lemma dispatchLoop_ok fuel : ∀ i st st',
  routerOk st → dispatchLoop script fuel i st = Ok st' →
  routerOk st'
  ∧ location st' = location st ∧ args st' = args st
  ∧ (ignoreHashchangeEvent st ≤ ignoreHashchangeEvent st')%Z.
Proof.
  induction fuel as [|fuel IH]; intros i st st' Hok H; [done|].
  cbn [dispatchLoop] in H. destruct (i <? length (sortedRoutes st)).
  - destruct (sortedRoutes st !! i) as [key|]; [|done].
    bind_inv H. destruct st0 as [b st1]. cbn beta iota in H.
    pose proof (dispatch_step script _ _ _ _ _ E) as (Hl & Ha & Hi & _).
    destruct (IH (S i) st1 st' (dispatch_ok _ _ _ _ _ Hok E) H) as (Hok' & Hl' & Ha' & Hi').
    split; [done|]. split; [congruence|]. split; [congruence|lia].
  - injection H as <-. split; [done|]. split; [done|]. split; [done|lia].
Qed.

Lemma onLocationChanged_ok fuel hash st st' :
  routerOk st → onLocationChanged script fuel hash st = Ok st' → routerOk st'.
Proof.
  intros Hok. unfold onLocationChanged. cbn zeta.
  set (c := JS.substr_from hash 1). intros H. bind_inv H.
  destruct (String.eqb c st0) eqn:Heq; cbn [negb] in H.
  - apply String.eqb_eq in Heq. subst st0.
    assert (Hok1 : routerOk (setLocation c (JS.split "/" c) st)).
    { destruct Hok as [[hist Ht] Hr Hc Hl Ha]. split; simpl.
      - exists hist. by apply tableInv_setLocation.
      - done.
      - done.
      - by eapply realLocation_trimmed.
      - by right. }
    destruct (0 <? ignoreHashchangeEvent (setLocation c (JS.split "/" c) st))%Z eqn:Hpos.
    + injection H as <-. apply Z.ltb_lt in Hpos. simpl in Hpos.
      destruct Hok1 as [[hist Ht] Hr Hc Hl Ha]. split; simpl; [|done|lia|done|done].
      exists hist. by apply (tablePending_ext (setLocation c (JS.split "/" c) st)).
    + by eapply dispatchLoop_ok.
  - injection H as <-.
    destruct Hok as [[hist Ht] Hr Hc Hl Ha]. split; simpl; [|done..].
    exists hist. by apply (tablePending_ext st).
Qed.

Lemma runEvents_ok es : ∀ st st',
  routerOk st → runEvents script es st = Ok st' → routerOk st'.
Proof.
  induction es as [|e es IH]; intros st st' Hok H.
  - by injection H as <-.
  - cbn [runEvents] in H. bind_inv H. eapply IH; [|exact H].
    destruct e as [a|fuel hash]; simpl in E.
    + by eapply runAction_ok.
    + by eapply onLocationChanged_ok.
Qed.

End pass_ok.

(* ===================================================================== *)
(** * Every state the router can reach *)
(* ===================================================================== *)



(** X7. Whatever calls and notifications the router receives, and whatever
    calls of [action] the handlers make, the location has no white space
    at either end, the counter of silenced notifications is not negative,
    and the location parts are the location split at the slashes, once a
    notification has been committed. *)
Theorem reachable_location_canonical
    (script : handler → string → eventArgs → list action)
    (es : list event) (st : Router) :
  runEvents script es emptyRouter = Ok st →
  JS.trim (location st) = location st
  ∧ (0 ≤ ignoreHashchangeEvent st)%Z
  ∧ ((args st = [] ∧ location st = "") ∨ args st = JS.split "/" (location st)).
Proof.
  intros Hrun.
  destruct (runEvents_ok script es _ _ routerOk_empty Hrun) as [_ _ Hc Hl Ha].
  split; [by apply trim_trimmed|done].
Qed.

Lemma reachable_location_canonical_witness :
  runEvents growScript growEvents emptyRouter = Ok (afterEvents growScript growEvents)
  ∧ location (afterEvents growScript growEvents) = "/ab"
  ∧ JS.trim (location (afterEvents growScript growEvents))
    = location (afterEvents growScript growEvents)
  ∧ (0 ≤ ignoreHashchangeEvent (afterEvents growScript growEvents))%Z.
Proof.
  assert (H : runEvents growScript growEvents emptyRouter
              = Ok (afterEvents growScript growEvents)) by (vm_compute; reflexivity).
  split; [exact H|]. split; [vm_compute; reflexivity|].
  destruct (reachable_location_canonical growScript growEvents _ H) as (H1 & H2 & _).
  by split.
Defined.



(** X9. The calls of the router interface are passive: on a table at rest,
    and with no member inherited from [Object.prototype] named as a route
    (which [action] excludes), they
    return, and they invoke no handler, dispatch no route, leave the
    location and its parts alone, never lower the counter of silenced
    notifications, change no stored route but for its listeners, and every
    route they add is in the state the constructor leaves it in. The only
    effect on the outside is the hash assignment of [setRoute]. *)
Theorem interface_calls_are_passive (calls : list action) (st : Router)
    (hist : list string) :
  tableInv st hist →
  ∃ st', runActions calls st = Ok st'
    ∧ location st' = location st ∧ args st' = args st
    ∧ (ignoreHashchangeEvent st ≤ ignoreHashchangeEvent st')%Z
    ∧ (∀ k r, routes st !! k = Some r → ∃ r', routes st' !! k = Some r' ∧ sameCore r r')
    ∧ (∀ k r', routes st' !! k = Some r' → routes st !! k = None → freshRoute k r')
    ∧ ∃ t, trace st' = trace st ++ t ∧ Forall assignsHash t.
Proof.
  intros Hinv. destruct (runActions_inv calls st hist Hinv) as (st' & Hrun & _).
  exists st'. split; [done|].
  exact (callStep_runActions assignsHash (fun _ => I) calls st st' Hrun).
Qed.

Lemma interface_calls_are_passive_witness :
  tableInv exampleTable ["/"; "/a"; "/a/:id"]
  ∧ (∃ st', runActions [CallRemoveRoute "/a" 2 None; CallAddRoute "/b" 4 (Some 5);
                        CallSetRoute "/*/6" true] exampleTable = Ok st'
       ∧ location st' = location exampleTable
       ∧ ∃ t, trace st' = trace exampleTable ++ t ∧ Forall assignsHash t)
  ∧ trace <$> runActions [CallRemoveRoute "/a" 2 None; CallAddRoute "/b" 4 (Some 5);
                          CallSetRoute "/*/6" true] exampleTable
    = Ok [HashAssigned "/a/6"].
Proof.
  assert (H : tableInv exampleTable ["/"; "/a"; "/a/:id"])
    by exact (tableInv_setLocation _ _ _ _ (tableInv_builtBy exampleCalls)).
  split; [exact H|]. split; [|vm_compute; reflexivity].
  destruct (interface_calls_are_passive
              [CallRemoveRoute "/a" 2 None; CallAddRoute "/b" 4 (Some 5);
               CallSetRoute "/*/6" true] exampleTable _ H)
    as (st' & Hrun & Hl & _ & _ & _ & _ & Ht).
  exists st'. split; [exact Hrun|]. split; [exact Hl|exact Ht].
Defined.

(* ===================================================================== *)
(** * Registering a map of routes *)
(* ===================================================================== *)

Lemma sameButOrder_refl st : sameButOrder st st.
Proof. by repeat split. Qed.

Lemma sameButOrder_trans st1 st2 st3 :
  sameButOrder st1 st2 → sameButOrder st2 st3 → sameButOrder st1 st3.
Proof. unfold sameButOrder. intros (?&?&?&?&?) (?&?&?&?&?). repeat split; congruence. Qed.

Lemma sameButOrder_sym st1 st2 : sameButOrder st1 st2 → sameButOrder st2 st1.
Proof. unfold sameButOrder. intros (?&?&?&?&?). by repeat split. Qed.

Lemma sameButOrder_eq st st' :
  sameButOrder st st' → sortedRoutes st' = sortedRoutes st → st' = st.
Proof.
  destruct st, st'. unfold sameButOrder. simpl. intros (?&?&?&?&?) ?. by subst.
Qed.

Lemma sameButOrder_createRoute i st1 st2 st1' st2' :
  sameButOrder st1 st2 → createRoute i st1 = Ok st1' → createRoute i st2 = Ok st2' →
  sameButOrder st1' st2'.
Proof.
  unfold createRoute. intros (Hr & Hi & Hl & Ha & Ht) H1 H2.
  destruct (newRoute i) as [r|]; [|done].
  injection H1 as <-. injection H2 as <-. unfold sameButOrder. simpl.
  by rewrite Hr, Hi, Hl, Ha, Ht.
Qed.

Lemma sameButOrder_sortRoutes st st' : sortRoutes st = Ok st' → sameButOrder st st'.
Proof.
  unfold sortRoutes. destruct (jsSort _ _) as [l|]; [|done].
  intros [= <-]. by repeat split.
Qed.

Lemma sameButOrder_onRoute i f st1 st2 st1' st2' :
  sameButOrder st1 st2 → onRoute i f st1 = Ok st1' → onRoute i f st2 = Ok st2' →
  sameButOrder st1' st2'.
Proof.
  unfold onRoute. intros (Hr & Hi & Hl & Ha & Ht) H1 H2. rewrite Hr in H2.
  destruct (routes st1 !! i) as [r|]; [|done].
  injection H1 as <-. injection H2 as <-. unfold sameButOrder. simpl.
  by rewrite Hr, Hi, Hl, Ha, Ht.
Qed.

(** The loop of [addRoutes], which sorts nothing, and the calls of
    [addRoute] one by one, which sort after every new route, build the same
    routes. *)
Lemma addRoutesLoop_addRouteEach l : ∀ st1 st2 st1' st2',
  sameButOrder st1 st2 →
  addRoutesLoop l st1 = Ok st1' → addRouteEach l st2 = Ok st2' →
  sameButOrder st1' st2'.
Proof.
  induction l as [|[i h] l IH]; intros st1 st2 st1' st2' Hsame H1 H2.
  - injection H1 as <-. injection H2 as <-. done.
  - cbn [addRoutesLoop] in H1. bind_inv H1. bind_inv H1.
    cbn [addRouteEach] in H2. bind_inv H2.
    unfold addRoute in E1. bind_inv E1.
    eapply (IH st0 st3); [|exact H1|exact H2].
    eapply sameButOrder_onRoute; [|exact E0|exact E1].
    pose proof Hsame as (Hr & _). unfold hasRoute in E, E2. rewrite Hr in E2.
    destruct (match routes st1 !! i with Some _ => true | None => inheritedKey i end).
    + injection E as <-. injection E2 as <-. done.
    + bind_inv E2.
      eapply sameButOrder_trans; [|by eapply sameButOrder_sortRoutes].
      by eapply sameButOrder_createRoute.
Qed.

Lemma addRouteEach_inv l : ∀ st hist,
  forallb (fun kh => negb (inheritedKey kh.1)) l = true →
  tableInv st hist →
  ∃ st', addRouteEach l st = Ok st' ∧ tableInv st' (firstSeen hist l.*1).
Proof.
  induction l as [|[i h] l IH]; intros st hist Hown Hinv; [by exists st|].
  apply own_keys_cons in Hown as [Hi Hown]. cbn [addRouteEach].
  destruct (addRoute_inv i h None st hist Hi Hinv) as (st1 & -> & Hinv1).
  cbn [mbind result_bind].
  change (((i, h) :: l).*1) with ([i] ++ l.*1). rewrite firstSeen_app. by apply IH.
Qed.

(** X10. On a table at rest, [addRoutes] with a map none of whose keys is a
    member inherited from [Object.prototype] returns and does what
    [addRoute] does when called for each entry of the map in enumeration
    order: sorting once at the end gives the order sequence that sorting
    after every new route gives. *)
Theorem addRoutes_as_addRoute_sequence (l : list (string * handler)) (st : Router)
    (hist : list string) :
  tableInv st hist →
  forallb (fun kh => negb (inheritedKey kh.1)) l = true →
  addRoutes l st = addRouteEach l st
  ∧ is_Ok (addRoutes l st).
Proof.
  intros Hinv Hown.
  destruct (addRoutes_inv l st hist Hown Hinv) as (st1 & H1 & Hinv1).
  destruct (addRouteEach_inv l st hist Hown Hinv) as (st2 & H2 & Hinv2).
  split; [|by eexists]. rewrite H1, H2. f_equal.
  pose proof H1 as H1'. unfold addRoutes in H1'. bind_inv H1'.
  assert (Hsame : sameButOrder st1 st2).
  { eapply sameButOrder_trans.
    - apply sameButOrder_sym. by eapply sameButOrder_sortRoutes.
    - eapply addRoutesLoop_addRouteEach; [apply sameButOrder_refl|exact E|exact H2]. }
  symmetry. apply sameButOrder_eq; [done|].
  apply (tableInv_order_eq st1 st2 _ Hinv1 Hinv2).
  intros k r Hr. exists r. destruct Hsame as (-> & _). done.
Qed.

Lemma addRoutes_as_addRoute_sequence_witness :
  (tableInv exampleTable ["/"; "/a"; "/a/:id"]
   ∧ forallb (fun kh => negb (inheritedKey kh.1)) [("/b/:x", 4); ("/a", 5); ("/c", 6)]
     = true)
  ∧ addRoutes [("/b/:x", 4); ("/a", 5); ("/c", 6)] exampleTable
    = addRouteEach [("/b/:x", 4); ("/a", 5); ("/c", 6)] exampleTable
  ∧ sortedRoutes <$> addRoutes [("/b/:x", 4); ("/a", 5); ("/c", 6)] exampleTable
    = Ok ["/"; "/a"; "/c"; "/a/:id"; "/b/:x"].
Proof.
  assert (H : tableInv exampleTable ["/"; "/a"; "/a/:id"])
    by exact (tableInv_setLocation _ _ _ _ (tableInv_builtBy exampleCalls)).
  split; [split; [exact H|reflexivity]|]. split; [|vm_compute; reflexivity].
  exact (proj1 (addRoutes_as_addRoute_sequence
                  [("/b/:x", 4); ("/a", 5); ("/c", 6)] exampleTable _ H eq_refl)).
Defined.

(* ===================================================================== *)
(** * Which handlers a dispatch calls *)
(* ===================================================================== *)

Lemma invocations_app t1 t2 : invocations (t1 ++ t2) = invocations t1 ++ invocations t2.
Proof. apply omap_app. Qed.

Lemma invocations_assignsHash t : Forall assignsHash t → invocations t = [].
Proof.
  induction 1 as [|e t He _ IH]; [done|].
  destruct e; try done.
Qed.

Lemma assignsHash_assignsOrInvokes t : Forall assignsHash t → Forall assignsOrInvokes t.
Proof. intros H. eapply Forall_impl; [exact H|]. by intros []. Qed.

Lemma dispatchCalls_assignsOrInvokes t : Forall assignsOrInvokes t → dispatchCalls t = [].
Proof.
  intros H. apply dispatchCalls_notDispatched.
  eapply Forall_impl; [exact H|]. by intros [].
Qed.

Section invoked.

Variable script : handler → string → eventArgs → list action.

Lemma callListeners_invocations name a hs : ∀ st st',
  callListeners script hs name a st = Ok st' →
  ∃ t, trace st' = trace st ++ t
    ∧ invocations t = (fun h => (h, name, a)) <$> hs
    ∧ Forall assignsOrInvokes t.
Proof.
  induction hs as [|h hs IH]; intros st st' H.
  - injection H as <-. exists []. by rewrite app_nil_r.
  - cbn [callListeners] in H. bind_inv H.
    destruct (callStep_runActions assignsHash (fun _ => I) _ _ _ E)
      as (_ & _ & _ & _ & _ & t1 & Ht1 & Hp1).
    destruct (IH _ _ H) as (t2 & Ht2 & Hi2 & Hp2).
    exists (Invoked h name a :: t1 ++ t2). split; [|split].
    + rewrite Ht2, Ht1. simpl. by rewrite <- !app_assoc.
    + change (invocations (Invoked h name a :: t1 ++ t2))
        with ((h, name, a) :: invocations (t1 ++ t2)).
      rewrite invocations_app, (invocations_assignsHash t1 Hp1), Hi2. done.
    + constructor; [done|]. apply Forall_app. split; [|done].
      by apply assignsHash_assignsOrInvokes.
Qed.

End invoked.

(* ===================================================================== *)
(** * Matches and captured values *)
(* ===================================================================== *)

Lemma matchAtoms_Capture rest s :
  matchAtoms (Capture :: rest) s = captureTry (matchAtoms rest) s (segmentLength s).
Proof.
  cbn [matchAtoms]. generalize (segmentLength s). intros k.
  induction k as [|k IH]; [done|]. cbn [captureTry].
  destruct (matchAtoms rest (JS.substr_from s (S k))) as [[m caps]|]; [done|exact IH].
Qed.

Lemma take_substr_from s : ∀ j, JS.take j s +:+ JS.substr_from s j = s.
Proof.
  induction s as [|a s IH]; intros [|j]; try done.
  cbn [JS.take JS.substr_from]. by rewrite append_cons, IH.
Qed.

Lemma segmentLength_le s : segmentLength s ≤ String.length s.
Proof.
  induction s as [|a s IH]; [done|]. cbn [segmentLength].
  destruct (Ascii.eqb a "/"); simpl; lia.
Qed.

Lemma take_no_slash s : ∀ j, j ≤ segmentLength s → hasChar "/" (JS.take j s) = false.
Proof.
  induction s as [|a s IH]; intros [|j] Hj; try done.
  cbn [segmentLength] in Hj. cbn [JS.take hasChar].
  destruct (Ascii.eqb a "/") eqn:Ha; [lia|].
  rewrite Ascii.eqb_sym, Ha. apply IH. lia.
Qed.

Lemma take_nonempty s j : 1 ≤ j → j ≤ String.length s → JS.take j s ≠ "".
Proof. destruct s, j; simpl; intros; try lia. done. Qed.

Lemma segmentLength_append seg s :
  hasChar "/" seg = false → String.length seg ≤ segmentLength (seg +:+ s).
Proof.
  induction seg as [|a seg IH]; intros H; [simpl; lia|].
  cbn [hasChar] in H. apply orb_false_iff in H as [Ha H].
  rewrite append_cons. cbn [segmentLength]. rewrite Ascii.eqb_sym, Ha.
  specialize (IH H). simpl. lia.
Qed.

Lemma captureTry_sound cont s : ∀ k m' caps',
  captureTry cont s k = Some (m', caps') →
  ∃ j m caps, 1 ≤ j ≤ k ∧ cont (JS.substr_from s j) = Some (m, caps)
    ∧ m' = JS.take j s +:+ m ∧ caps' = JS.take j s :: caps.
Proof.
  induction k as [|k IH]; intros m' caps' H; [done|].
  cbn [captureTry] in H.
  destruct (cont (JS.substr_from s (S k))) as [[m caps]|] eqn:E.
  - injection H as <- <-. exists (S k), m, caps. split; [lia|done].
  - destruct (IH _ _ H) as (j & m & caps & Hj & Hc & Hm & Hcaps).
    exists j, m, caps. split; [lia|done].
Qed.

Lemma captureTry_complete cont s j : ∀ k,
  1 ≤ j ≤ k → is_Some (cont (JS.substr_from s j)) → is_Some (captureTry cont s k).
Proof.
  induction k as [|k IH]; intros Hj Hc; [lia|].
  cbn [captureTry].
  destruct (cont (JS.substr_from s (S k))) as [[m caps]|] eqn:E; [done|].
  apply IH; [|done]. destruct (decide (j = S k)) as [->|]; [|lia].
  rewrite E in Hc. by destruct Hc.
Qed.

(** What the matcher returns is a match. *)
Lemma matchAtoms_sound atoms : ∀ s m caps,
  matchAtoms atoms s = Some (m, caps) → atomsMatch atoms s m caps.
Proof.
  induction atoms as [|[c| |] rest IH]; intros s m caps H.
  - injection H as <- <-. constructor.
  - cbn [matchAtoms] in H. destruct s as [|d s]; [done|].
    destruct (Ascii.eqb c d) eqn:Hc; [|done]. apply Ascii.eqb_eq in Hc as ->.
    destruct (matchAtoms rest s) as [[m0 caps0]|] eqn:E; [|done].
    injection H as <- <-. constructor. by apply IH.
  - cbn [matchAtoms] in H. destruct s as [|d s]; [done|].
    destruct (isLineTerminator d) eqn:Hd; [done|].
    destruct (matchAtoms rest s) as [[m0 caps0]|] eqn:E; [|done].
    injection H as <- <-. constructor; [done|]. by apply IH.
  - rewrite matchAtoms_Capture in H.
    destruct (captureTry_sound _ _ _ _ _ H) as (j & m0 & caps0 & Hj & Hc & -> & ->).
    rewrite <- (take_substr_from s j) at 1.
    pose proof (segmentLength_le s).
    constructor; [apply take_nonempty; lia|apply take_no_slash; lia|by apply IH].
Qed.

(** The matcher finds a match whenever there is one. *)
Lemma matchAtoms_complete atoms s m caps :
  atomsMatch atoms s m caps → is_Some (matchAtoms atoms s).
Proof.
  induction 1 as [s|c rest s m caps _ IH|d rest s m caps Hd _ IH
                 |seg rest s m caps Hne Hseg _ IH].
  - done.
  - cbn [matchAtoms]. rewrite Ascii.eqb_refl.
    destruct IH as [[m0 caps0] ->]. done.
  - cbn [matchAtoms]. rewrite Hd. destruct IH as [[m0 caps0] ->]. done.
  - rewrite matchAtoms_Capture.
    apply (captureTry_complete _ _ (String.length seg)).
    + split; [destruct seg; [done|simpl; lia]|by apply segmentLength_append].
    + by rewrite substr_from_append.
Qed.

Lemma atomsMatch_prefix atoms s m caps :
  atomsMatch atoms s m caps → ∃ rest, s = m +:+ rest.
Proof.
  induction 1 as [s|c rest s m caps _ [x ->]|d rest s m caps _ _ [x ->]
                 |seg rest s m caps _ _ _ [x ->]].
  - by exists s.
  - by exists x.
  - by exists x.
  - exists x. by rewrite append_assoc.
Qed.

Lemma atomsMatch_captures atoms s m caps :
  atomsMatch atoms s m caps →
  Forall segmentValue caps ∧ length caps = groupCount atoms.
Proof.
  induction 1 as [s|c rest s m caps _ [IH1 IH2]|d rest s m caps _ _ [IH1 IH2]
                 |seg rest s m caps Hne Hseg _ [IH1 IH2]]; [done|done|done|].
  split; [by constructor|]. simpl. by rewrite IH2.
Qed.

Lemma atomsMatch_extend atoms s m caps x :
  atomsMatch atoms s m caps → atomsMatch atoms (s +:+ x) m caps.
Proof.
  induction 1 as [s|c rest s m caps _ IH|d rest s m caps Hd _ IH
                 |seg rest s m caps Hne Hseg _ IH].
  - constructor.
  - rewrite append_cons. by constructor.
  - rewrite append_cons. by constructor.
  - rewrite append_assoc. by constructor.
Qed.

Lemma jsMatch_Some L regex ms :
  jsMatch L regex = Ok (Some ms) →
  ∃ atoms m caps, parseRegExp regex = Some atoms ∧ ms = m :: caps
    ∧ atomsMatch atoms L m caps.
Proof.
  unfold jsMatch. destruct (parseRegExp regex) as [atoms|]; [|done].
  destruct (matchAtoms atoms L) as [[m caps]|] eqn:E; [|done].
  intros [= <-]. exists atoms, m, caps. split; [done|]. split; [done|].
  by apply matchAtoms_sound.
Qed.

Lemma jsMatch_complete L regex atoms m caps :
  parseRegExp regex = Some atoms → atomsMatch atoms L m caps →
  ∃ ms, jsMatch L regex = Ok (Some ms).
Proof.
  intros Hp Hm. unfold jsMatch. rewrite Hp.
  destruct (matchAtoms_complete _ _ _ _ Hm) as [[m0 caps0] ->]. by eexists.
Qed.

(** X12. The match array of a dispatch starts with a prefix of the location,
    and every value that a handler finds in the arguments record under a
    parameter name is a captured segment: a text that is not empty and
    holds no slash. *)
Theorem captured_values_are_segments (key loc : string) (this : Route)
    (ms : list string) :
  jsMatch loc (routeRegex this) = Ok (Some ms) →
  (∃ whole caps rest,
     ms = whole :: caps ∧ loc = whole +:+ rest ∧ Forall segmentValue caps)
  ∧ ∀ name v, argsRecord key this ms !! name = Some (VString v) → segmentValue v.
Proof.
  intros Hm. destruct (jsMatch_Some _ _ _ Hm) as (atoms & m & caps & _ & -> & Hrel).
  destruct (atomsMatch_prefix _ _ _ _ Hrel) as [rest Hrest].
  destruct (atomsMatch_captures _ _ _ _ Hrel) as [Hcaps _].
  split; [by exists m, caps, rest|].
  intros name v. unfold argsRecord.
  destruct (decide (name = "__proto__")) as [->|Hname];
    [by rewrite argsLoop_proto|].
  rewrite argsLoop_lookup by done.
  destruct (lastPosition name (params this)) as [k|].
  - simpl. destruct (caps !! k) as [c|] eqn:Hk; [|done].
    intros [= <-]. rewrite Forall_forall in Hcaps. apply Hcaps.
    by eapply list_elem_of_lookup_2.
  - intros H. apply lookup_singleton_Some in H as [_ H]. done.
Qed.

Lemma captured_values_are_segments_witness :
  jsMatch "/a/b_c/d" "^/a/([^/]+)" = Ok (Some ["/a/b_c"; "b_c"])
  ∧ ∀ name v,
      argsRecord "/a/:id" (MkRoute "^/a/([^/]+)" "/a/:id" ["id"] None false false ∅)
        ["/a/b_c"; "b_c"] !! name = Some (VString v) →
      segmentValue v.
Proof.
  assert (H : jsMatch "/a/b_c/d" "^/a/([^/]+)" = Ok (Some ["/a/b_c"; "b_c"]))
    by (vm_compute; reflexivity).
  split; [exact H|].
  exact (proj2 (captured_values_are_segments "/a/:id" "/a/b_c/d"
                  (MkRoute "^/a/([^/]+)" "/a/:id" ["id"] None false false ∅) _ H)).
Defined.

(** X13. A compiled expression of the modelled syntax (literal characters,
    the dot and the groups of the parameters, so no [$]) is anchored at the
    start only: a route that matches a location matches every location
    that extends it, so a dispatch on the longer location activates the
    route as well. *)
Theorem longer_location_still_matches
    (script : handler → string → eventArgs → list action)
    (key loc x : string) (st : Router) (hist : list string) (this : Route)
    (ms : list string) :
  tableInv st hist → routes st !! key = Some this →
  jsMatch loc (routeRegex this) = Ok (Some ms) →
  ∃ ms' st' r', jsMatch (loc +:+ x) (routeRegex this) = Ok (Some ms')
    ∧ dispatch script key (loc +:+ x) st = Ok (true, st')
    ∧ routes st' !! key = Some r' ∧ active r' = true.
Proof.
  intros Hinv Hthis Hm.
  destruct (jsMatch_Some _ _ _ Hm) as (atoms & m & caps & Hp & _ & Hrel).
  destruct (jsMatch_complete (loc +:+ x) _ _ _ _ Hp (atomsMatch_extend _ _ _ _ x Hrel))
    as [ms' Hm'].
  destruct (dispatch_inv script key (loc +:+ x) st hist this (Some ms') Hinv Hthis Hm')
    as (st' & _ & r' & Hd & _ & _ & _ & Hr' & Ha & _).
  by exists ms', st', r'.
Qed.

Lemma longer_location_still_matches_witness :
  ∃ this,
    (tableInv exampleTable ["/"; "/a"; "/a/:id"]
     ∧ routes exampleTable !! "/a/:id" = Some this
     ∧ jsMatch "/a/5" (routeRegex this) = Ok (Some ["/a/5"; "5"]))
    ∧ ∃ ms' st' r', jsMatch ("/a/5" +:+ "7/edit") (routeRegex this) = Ok (Some ms')
        ∧ dispatch noScript "/a/:id" ("/a/5" +:+ "7/edit") exampleTable = Ok (true, st')
        ∧ routes st' !! "/a/:id" = Some r' ∧ active r' = true.
Proof.
  eexists.
  assert (H : tableInv exampleTable ["/"; "/a"; "/a/:id"])
    by exact (tableInv_setLocation _ _ _ _ (tableInv_builtBy exampleCalls)).
  assert (H1 : routes exampleTable !! "/a/:id"
               = Some (MkRoute "^/a/([^/]+)" "/a/:id" ["id"] None false false
                         {[ "routed" := [3] ]}))
    by (vm_compute; reflexivity).
  assert (H3 : jsMatch "/a/5" "^/a/([^/]+)" = Ok (Some ["/a/5"; "5"]))
    by (vm_compute; reflexivity).
  split; [split; [exact H|split; [exact H1|exact H3]]|].
  exact (longer_location_still_matches noScript "/a/:id" "/a/5" "7/edit"
           exampleTable _ _ _ H H1 H3).
Defined.

(* ===================================================================== *)
(** * Plain patterns: every parameter gets a value *)
(* ===================================================================== *)

Lemma compileLoop_expand fuel : ∀ rest done ps,
  inert done → String.length rest < fuel →
  compileLoop fuel (done +:+ rest) ps
  = Ok (done +:+ expand fuel rest, ps ++ paramTokens rest).
Proof.
  induction fuel as [|fuel IH]; intros rest done ps Hd Hfuel; [lia|].
  cbn [compileLoop expand]. rewrite execParam_splitParam, Hd, paramTokens_splitParam.
  destruct (splitParam rest) as [[[b n] a]|] eqn:Hs; simpl.
  - assert (Hs' : splitParam (done +:+ rest) = Some (done +:+ b, n, a))
      by (by rewrite Hd, Hs).
    rewrite (replace_splitParam _ _ _ _ Hs').
    rewrite (IH a ((done +:+ b) +:+ captureGroup) (ps ++ [n])).
    + by rewrite <- app_assoc, !append_assoc.
    + by eapply inert_replaced.
    + pose proof (length_splitParam _ _ _ _ Hs). lia.
  - by rewrite app_nil_r.
Qed.

Lemma _compileRoute_expand P :
  _compileRoute P
  = Ok (paramTokens P, "^" +:+ JS.stripMarkers (expand (S (String.length P)) P)).
Proof.
  unfold _compileRoute.
  pose proof (compileLoop_expand (S (String.length P)) P "" [] inert_nil) as H.
  rewrite !append_nil_l in H. rewrite H by lia. done.
Qed.

Lemma allChars_append f a b : allChars f (a +:+ b) = allChars f a && allChars f b.
Proof.
  induction a as [|c a IH]; [done|].
  rewrite append_cons. cbn [allChars]. by rewrite IH, andb_assoc.
Qed.

Lemma startsWith_marker_append b X :
  (∀ r, X ≠ String "#" r) →
  JS.startsWith "#" (b +:+ X) = JS.startsWith "#" b.
Proof.
  intros HX. destruct b as [|d b]; [|by rewrite append_cons, !startsWith_cons].
  rewrite append_nil_l. destruct X as [|d X]; [done|].
  rewrite startsWith_cons. destruct (Ascii.eqb "#" d) eqn:E; [|done].
  apply Ascii.eqb_eq in E as <-. by destruct (HX X).
Qed.

Lemma stripMarkers_append n : ∀ b X,
  String.length b ≤ n → (∀ r, X ≠ String "#" r) →
  JS.stripMarkers (b +:+ X) = JS.stripMarkers b +:+ JS.stripMarkers X.
Proof.
  induction n as [|n IH]; intros b X Hn HX.
  - destruct b; [done|simpl in Hn; lia].
  - destruct b as [|c b]; [done|]. simpl in Hn.
    rewrite append_cons, !stripMarkers_cons, !startsWith_cons.
    rewrite (startsWith_marker_append b X HX).
    destruct (Ascii.eqb "#" c); [|by rewrite append_cons, IH by (lia || done)].
    destruct b as [|d b]; [done|].
    rewrite startsWith_cons. destruct (Ascii.eqb "#" d).
    + rewrite append_cons. cbn [JS.substr_from]. rewrite !substr_from_0.
      apply IH; [simpl in Hn; lia|done].
    + rewrite (append_cons c). f_equal. apply IH; [simpl in *; lia|done].
Qed.

Lemma allChars_stripMarkers f n : ∀ s,
  String.length s ≤ n → allChars f s = true → allChars f (JS.stripMarkers s) = true.
Proof.
  induction n as [|n IH]; intros s Hn Hall.
  - destruct s; [done|simpl in Hn; lia].
  - destruct s as [|c s]; [done|]. simpl in Hn.
    cbn [allChars] in Hall. apply andb_true_iff in Hall as [Hc Hall].
    rewrite stripMarkers_cons, startsWith_cons.
    destruct (Ascii.eqb "#" c).
    + destruct s as [|d s]; [cbn [JS.startsWith allChars JS.stripMarkers]; by rewrite Hc|].
      rewrite startsWith_cons. cbn [allChars] in Hall.
      apply andb_true_iff in Hall as [Hd Hall].
      destruct (Ascii.eqb "#" d).
      * cbn [JS.startsWith JS.substr_from]. rewrite substr_from_0.
        apply IH; [simpl in Hn; lia|done].
      * cbn [allChars]. rewrite Hc. apply IH; [lia|]. cbn [allChars]. by rewrite Hd.
    + cbn [allChars]. rewrite Hc. apply IH; [lia|done].
Qed.

Lemma patternChar_tests c :
  patternChar c = true →
  Ascii.eqb "(" c = false
  ∧ (Ascii.eqb c "." = false → isSyntaxChar c = false).
Proof.
  unfold patternChar. intros H. split.
  - destruct (Ascii.eqb "(" c) eqn:E; [|done].
    apply Ascii.eqb_eq in E as <-. discriminate.
  - intros Hdot. rewrite Hdot, orb_false_r in H. by apply negb_true_iff in H.
Qed.

Lemma parseAtoms_plain b : ∀ X fuel,
  allChars patternChar b = true →
  parseAtoms (String.length b + fuel) (b +:+ X)
  = (fun atoms => plainAtoms b ++ atoms) <$> parseAtoms fuel X.
Proof.
  induction b as [|c b IH]; intros X fuel Hall.
  - rewrite append_nil_l. simpl. by destruct (parseAtoms fuel X).
  - cbn [allChars] in Hall. apply andb_true_iff in Hall as [Hc Hall].
    destruct (patternChar_tests c Hc) as [H1 H2].
    rewrite append_cons. change (String.length (String c b) + fuel)
      with (S (String.length b + fuel)).
    cbn [parseAtoms plainAtoms]. unfold captureGroup at 1.
    rewrite startsWith_cons, H1, IH by done.
    destruct (Ascii.eqb c ".") eqn:Hdot.
    + by destruct (parseAtoms fuel X).
    + rewrite (H2 eq_refl). by destruct (parseAtoms fuel X).
Qed.

Lemma parseAtoms_group X fuel :
  parseAtoms (S fuel) (captureGroup +:+ X) = cons Capture <$> parseAtoms fuel X.
Proof.
  change (captureGroup +:+ X) with (String "(" ("[^/]+)" +:+ X)).
  cbn [parseAtoms].
  change (String "(" ("[^/]+)" +:+ X)) with (captureGroup +:+ X).
  by rewrite startsWith_append, substr_from_append.
Qed.

Lemma groupCount_app l1 l2 : groupCount (l1 ++ l2) = groupCount l1 + groupCount l2.
Proof.
  induction l1 as [|[c| |] l1 IH]; simpl; by rewrite ?IH.
Qed.

Lemma groupCount_plain s : groupCount (plainAtoms s) = 0.
Proof.
  induction s as [|c s IH]; [done|]. cbn [plainAtoms].
  by destruct (Ascii.eqb c ".").
Qed.

Lemma stripMarkers_group E :
  JS.stripMarkers (captureGroup +:+ E) = captureGroup +:+ JS.stripMarkers E.
Proof. reflexivity. Qed.

(** The expression compiled from a plain pattern lies in the fragment, and
    it has one group for each parameter. *)
Lemma parse_expand fuel : ∀ s F,
  String.length s < fuel → allChars patternChar s = true →
  String.length (JS.stripMarkers (expand fuel s)) < F →
  ∃ atoms, parseAtoms F (JS.stripMarkers (expand fuel s)) = Some atoms
    ∧ groupCount atoms = length (paramTokens s).
Proof.
  induction fuel as [|fuel IH]; intros s F Hs Hall HF; [lia|].
  cbn [expand] in *. rewrite paramTokens_splitParam.
  destruct (splitParam s) as [[[b n] a]|] eqn:E.
  - pose proof (splitParam_eq _ _ _ _ E) as Heq.
    pose proof (length_splitParam _ _ _ _ E) as Hlen.
    assert (Hb : allChars patternChar b = true ∧ allChars patternChar a = true).
    { rewrite Heq, allChars_append in Hall. apply andb_true_iff in Hall as [Hb Hall].
      cbn [allChars] in Hall. apply andb_true_iff in Hall as [_ Hall].
      rewrite allChars_append in Hall. apply andb_true_iff in Hall as [_ Ha]. done. }
    destruct Hb as [Hb Ha].
    assert (Hsplit : JS.stripMarkers (b +:+ (captureGroup +:+ expand fuel a))
                     = JS.stripMarkers b
                       +:+ (captureGroup +:+ JS.stripMarkers (expand fuel a))).
    { rewrite (stripMarkers_append (String.length b)); [|done|done].
      by rewrite stripMarkers_group. }
    rewrite Hsplit in *.
    set (sb := JS.stripMarkers b) in *.
    set (sE := JS.stripMarkers (expand fuel a)) in *.
    destruct (IH a (String.length (captureGroup +:+ sE))) as (atoms & Hp & Hc);
      [lia|done|unfold sE; rewrite length_append; simpl; lia|].
    exists (plainAtoms sb ++ Capture :: atoms). split.
    + rewrite (parseAtoms_fuel F (String.length sb + S (String.length (captureGroup +:+ sE))));
        [|done|rewrite !length_append; lia].
      rewrite parseAtoms_plain
        by (by apply (allChars_stripMarkers _ (String.length b))).
      rewrite parseAtoms_group. fold sE in Hp. rewrite Hp. done.
    + rewrite groupCount_app, groupCount_plain. simpl. by rewrite Hc.
  - exists (plainAtoms (JS.stripMarkers s)). split; [|apply groupCount_plain].
    rewrite (parseAtoms_fuel F (String.length (JS.stripMarkers s) + 1)); [|done|lia].
    rewrite <- (append_nil_r (JS.stripMarkers s)) at 2.
    rewrite parseAtoms_plain by (by apply (allChars_stripMarkers _ (String.length s))).
    simpl. by rewrite app_nil_r.
Qed.

Lemma plain_pattern_regex P :
  allChars patternChar P = true →
  ∃ regex atoms, _compileRoute P = Ok (paramTokens P, regex)
    ∧ parseRegExp regex = Some atoms
    ∧ groupCount atoms = length (paramTokens P).
Proof.
  intros Hall.
  destruct (parse_expand (S (String.length P)) P
              (S (String.length (JS.stripMarkers (expand (S (String.length P)) P)))))
    as (atoms & Hp & Hc); [lia|done|lia|].
  exists ("^" +:+ JS.stripMarkers (expand (S (String.length P)) P)), atoms.
  split; [apply _compileRoute_expand|]. split; [|done]. exact Hp.
Qed.

Lemma lastPosition_elem name ps :
  name ∈ ps → ∃ k, lastPosition name ps = Some k ∧ k < length ps.
Proof.
  induction ps as [|p ps IH]; [by intros ?%elem_of_nil|].
  intros Hin. cbn [lastPosition].
  destruct (lastPosition name ps) as [k|] eqn:E.
  - destruct (decide (name ∈ ps)) as [Hps|Hps].
    + destruct (IH Hps) as (k' & [= <-] & Hk). exists (S k). split; [done|simpl; lia].
    + exists (S k). split; [done|].
      assert (Hk : k < length ps); [|simpl; lia].
      clear -E. revert k E. induction ps as [|q ps IH]; intros k E; [done|].
      cbn [lastPosition] in E. destruct (lastPosition name ps) as [k'|].
      * injection E as <-. specialize (IH k' eq_refl). simpl. lia.
      * destruct (decide (q = name)); [|done]. injection E as <-. simpl. lia.
  - apply elem_of_cons in Hin as [->|Hin].
    + rewrite decide_True by done. exists 0. split; [done|simpl; lia].
    + destruct (IH Hin) as (k' & [=] & _).
Qed.

(** X14. For a route whose pattern is plain (no syntax character of expressions
    but the dot), a dispatch never raises, whatever the location; and when
    it finds a match, the match array holds one capture for each parameter,
    so every parameter name of the route other than [__proto__] is found in
    the arguments record with a captured segment as its value, never
    undefined. *)
Theorem plain_pattern_params_defined
    (script : handler → string → eventArgs → list action)
    (P key loc : string) (st : Router) (hist : list string) (this : Route) :
  allChars patternChar P = true →
  tableInv st hist → routes st !! key = Some this →
  _compileRoute P = Ok (params this, routeRegex this) →
  ∃ m, jsMatch loc (routeRegex this) = Ok m
    ∧ (∃ st', dispatch script key loc st = Ok (matched m, st'))
    ∧ ∀ ms, m = Some ms →
        length ms = S (length (params this))
        ∧ ∀ name, name ∈ params this → name ≠ "__proto__" →
            ∃ v, argsRecord key this ms !! name = Some (VString v) ∧ segmentValue v.
Proof.
  intros Hall Hinv Hthis Hcomp.
  destruct (plain_pattern_regex P Hall) as (regex & atoms & Hc & Hp & Hg).
  rewrite Hc in Hcomp. injection Hcomp as Hparams Hregex.
  assert (Hm : jsMatch loc (routeRegex this)
               = Ok ((fun '(m, caps) => m :: caps) <$> matchAtoms atoms loc))
    by (unfold jsMatch; by rewrite <- Hregex, Hp).
  eexists. split; [exact Hm|]. split.
  - destruct (dispatch_inv script key loc st hist this _ Hinv Hthis Hm)
      as (st' & _ & _ & Hd & _). by exists st'.
  - intros ms Hms. rewrite Hms in Hm.
    destruct (jsMatch_Some _ _ _ Hm) as (atoms' & m0 & caps & Hp' & -> & Hrel).
    rewrite <- Hregex, Hp in Hp'. injection Hp' as <-.
    destruct (atomsMatch_captures _ _ _ _ Hrel) as [Hcaps Hlen].
    rewrite Hg, Hparams in Hlen.
    split; [simpl; by rewrite Hlen|].
    intros name Hin Hname. destruct (lastPosition_elem _ _ Hin) as (k & Hk & Hlt).
    destruct (lookup_lt_is_Some_2 caps k) as [v Hv]; [lia|].
    exists v. split.
    + unfold argsRecord. rewrite argsLoop_lookup, Hk by done. simpl. by rewrite Hv.
    + rewrite Forall_forall in Hcaps. apply Hcaps. by eapply list_elem_of_lookup_2.
Qed.

Lemma plain_pattern_params_defined_witness :
  ∃ this,
    (allChars patternChar "/a/:id" = true
     ∧ tableInv exampleTable ["/"; "/a"; "/a/:id"]
     ∧ routes exampleTable !! "/a/:id" = Some this
     ∧ _compileRoute "/a/:id" = Ok (params this, routeRegex this))
    ∧ ∃ m, jsMatch "/a/5" (routeRegex this) = Ok m
        ∧ (∃ st', dispatch noScript "/a/:id" "/a/5" exampleTable = Ok (matched m, st'))
        ∧ ∀ ms, m = Some ms →
            length ms = S (length (params this))
            ∧ ∀ name, name ∈ params this → name ≠ "__proto__" →
                ∃ v, argsRecord "/a/:id" this ms !! name = Some (VString v)
                     ∧ segmentValue v.
Proof.
  eexists.
  assert (H : tableInv exampleTable ["/"; "/a"; "/a/:id"])
    by exact (tableInv_setLocation _ _ _ _ (tableInv_builtBy exampleCalls)).
  assert (H1 : routes exampleTable !! "/a/:id"
               = Some (MkRoute "^/a/([^/]+)" "/a/:id" ["id"] None false false
                         {[ "routed" := [3] ]}))
    by (vm_compute; reflexivity).
  assert (H2 : _compileRoute "/a/:id" = Ok (["id"], "^/a/([^/]+)"))
    by (vm_compute; reflexivity).
  split; [split; [reflexivity|split; [exact H|split; [exact H1|exact H2]]]|].
  exact (plain_pattern_params_defined noScript "/a/:id" "/a/:id" "/a/5"
           exampleTable _ _ eq_refl H H1 H2).
Defined.

(* ===================================================================== *)
(** * Navigating to the current location *)
(* ===================================================================== *)

(** X15. In every state the router can reach, [setRoute] with the current
    location (when it holds no wildcard) does nothing at all, silent or
    not: no hash is assigned, and the counter of silenced notifications is
    not raised, so that no later notification is swallowed for a change
    that never happened. *)
Theorem setRoute_current_location_noop
    (script : handler → string → eventArgs → list action)
    (es : list event) (st : Router) (silent : bool) :
  runEvents script es emptyRouter = Ok st →
  hasChar "*" (location st) = false →
  setRoute (location st) silent st = Ok st.
Proof.
  intros Hrun Hstar.
  destruct (runEvents_ok script es _ _ routerOk_empty Hrun) as [_ _ _ Hl _].
  unfold setRoute. rewrite (realLocation_star_free _ _ None Hstar).
  cbn [mbind result_bind]. by rewrite (trim_trimmed _ Hl), String.eqb_refl.
Qed.

Lemma setRoute_current_location_noop_witness :
  (runEvents growScript growEvents emptyRouter = Ok (afterEvents growScript growEvents)
   ∧ hasChar "*" (location (afterEvents growScript growEvents)) = false)
  ∧ setRoute "/ab" true (afterEvents growScript growEvents)
    = Ok (afterEvents growScript growEvents).
Proof.
  assert (H : runEvents growScript growEvents emptyRouter
              = Ok (afterEvents growScript growEvents)) by (vm_compute; reflexivity).
  assert (H1 : hasChar "*" (location (afterEvents growScript growEvents)) = false)
    by (vm_compute; reflexivity).
  split; [by split|].
  exact (setRoute_current_location_noop growScript growEvents _ true H H1).
Defined.

(* ===================================================================== *)
(** * Refreshing the current location *)
(* ===================================================================== *)

Lemma tableInv_slots st hist k :
  tableInv st hist → k ∈ sortedRoutes st ↔ is_Some (routes st !! k).
Proof.
  intros Hinv. rewrite <- (tableInv_keys _ _ _ Hinv).
  rewrite (pending_order _ _ _ Hinv), app_nil_r.
  by rewrite (sortKeys_Permutation (regexLength st)).
Qed.

Section settled_pass.

Variable script : handler → string → eventArgs → list action.
Variable loc : string.
Variables Pre Q : Route → Prop.

Hypothesis Pre_core : ∀ r r', sameCore r r' → Pre r → Pre r'.
Hypothesis Q_core : ∀ r r', sameCore r r' → Q r → Q r'.
Hypothesis dispatched : ∀ this r' m,
  Pre this → jsMatch loc (routeRegex this) = Ok m →
  routeRegex r' = routeRegex this → params r' = params this →
  active r' = matched m → s_args r' = argsString this <$> m →
  changed r' = match m with
               | Some ms => differs (argsString this ms) (s_args this)
               | None => changed this
               end →
  Pre r' ∧ Q r'.

(** The pass from index [i] when no handler creates a route, for a property
    [Pre] of all routes that every dispatch keeps, and a property [Q] that
    every dispatch establishes for its route. *)
Lemma dispatchLoop_post hist fuel : ∀ i st,
  tableInv st hist → quietScript script st → matchable loc st → location st = loc →
  length (sortedRoutes st) - i < fuel →
  (∀ k r, routes st !! k = Some r → Pre r) →
  (∀ k r, k ∈ take i (sortedRoutes st) → routes st !! k = Some r → Q r) →
  ∃ st', dispatchLoop script fuel i st = Ok st'
    ∧ (∀ k r, routes st' !! k = Some r → Pre r)
    ∧ (∀ k r, k ∈ sortedRoutes st → routes st' !! k = Some r → Q r).
Proof.
  induction fuel as [|fuel IH]; intros i st Hinv Hquiet Hm Hloc Hfuel HPre HQ; [lia|].
  cbn [dispatchLoop].
  destruct (Nat.ltb_spec i (length (sortedRoutes st))) as [Hi|Hi].
  2:{ exists st. split; [done|]. split; [done|].
      intros k r Hk. apply HQ. by rewrite take_ge by lia. }
  destruct (lookup_lt_is_Some_2 _ _ Hi) as [key Hkey]. rewrite Hkey, Hloc.
  destruct (Hm key (list_elem_of_lookup_2 _ _ _ Hkey)) as (this & m & Hthis & Hmatch).
  destruct (dispatch_inv script key loc st hist this m Hinv Hthis Hmatch)
    as (st1 & hist' & r1 & -> & Hinv1 & Hq & Hstep & Hr1 & Hact & Hsa & Hch & _).
  cbn [mbind result_bind].
  rewrite (Hq Hquiet) in Hinv1. clear Hq.
  destruct Hstep as (Hloc1 & Hroutes & _). simpl in Hloc1, Hroutes.
  assert (Hord : sortedRoutes st1 = sortedRoutes st).
  { apply (tableInv_order_eq st st1 hist); [done..|].
    intros k r Hk. destruct (Hroutes k r Hk) as (r' & ? & ? & _). eauto. }
  destruct (Hroutes key this Hthis) as (r1' & Hr1' & Hre1 & Hpa1 & _).
  assert (r1' = r1) as -> by congruence.
  destruct (dispatched this r1 m (HPre _ _ Hthis) Hmatch Hre1 Hpa1 Hact Hsa Hch)
    as [HPre1 HQ1].
  assert (Hfrom : ∀ k r', routes st1 !! k = Some r' →
            k = key ∧ r' = r1
            ∨ k ≠ key ∧ ∃ r, routes st !! k = Some r ∧ sameCore r r').
  { intros k r' Hk. destruct (decide (k = key)) as [->|Hne]; [left; split; congruence|].
    right. split; [done|].
    assert (Hin : is_Some (routes st !! k)).
    { apply (tableInv_keys _ _ _ Hinv), (tableInv_keys _ _ _ Hinv1). eauto. }
    destruct Hin as [r Hr]. destruct (Hroutes k r Hr) as (r'' & Hr'' & _ & _ & Hsame).
    exists r. split; [done|]. assert (r'' = r') as -> by congruence. by apply Hsame. }
  destruct (IH (S i) st1) as (st' & Hrun & HPre' & HQ').
  - done.
  - eapply quietScript_keepsKeys; [|exact Hquiet].
    intros k [r Hk]. destruct (Hroutes k r Hk) as (r' & -> & _). eauto.
  - unfold matchable. rewrite Hord. intros k Hk.
    destruct (Hm k Hk) as (r & m' & Hr & Hm').
    destruct (Hroutes k r Hr) as (r' & Hr' & Hre & _).
    exists r', m'. by rewrite Hre.
  - congruence.
  - rewrite Hord. lia.
  - intros k r' Hk. destruct (Hfrom k r' Hk) as [[-> ->]|(_ & r & Hr & Hsame)]; [done|].
    eapply Pre_core; [exact Hsame|]. by eapply HPre.
  - intros k r' Hin Hk. rewrite Hord in Hin.
    destruct (Hfrom k r' Hk) as [[-> ->]|(Hne & r & Hr & Hsame)]; [done|].
    eapply Q_core; [exact Hsame|]. eapply HQ; [|exact Hr].
    rewrite (take_S_r _ _ _ Hkey) in Hin.
    apply elem_of_app in Hin as [Hin|Hin%list_elem_of_singleton]; done.
  - exists st'. split; [done|]. split; [done|]. by rewrite <- Hord.
Qed.

End settled_pass.

Lemma argsString_params r r' ms : params r' = params r → argsString r' ms = argsString r ms.
Proof. unfold argsString. by intros ->. Qed.

Lemma settledOn_sameCore loc r r' : sameCore r r' → settledOn loc r → settledOn loc r'.
Proof.
  intros (Hre & _ & Hpa & Hsa & Hac & _) H m. rewrite Hre, Hsa, Hac.
  intros Hm. destruct (H m Hm) as [-> ->]. split; [done|].
  destruct m as [ms|]; [|done]. simpl. by rewrite (argsString_params r r' ms Hpa).
Qed.

Lemma repeatedOn_sameCore loc r r' : sameCore r r' → repeatedOn loc r → repeatedOn loc r'.
Proof.
  intros (Hre & _ & _ & _ & Hac & Hch) H ms. rewrite Hre, Hac, Hch. apply H.
Qed.

Section refresh.

Variable script : handler → string → eventArgs → list action.

(** X16. On a table at rest, when the compiled text of every route can be
    matched against the location and no handler creates a route, a
    dispatch pass settles every route on the location, and a refresh
    that follows it repeats the pass: [refresh] on the unchanged hash, when
    no notification is being silenced, dispatches every route again, in the
    same order, and every route that matches ends active with its
    [changed] flag cleared, since it captured the values it had captured
    before. *)
Theorem refresh_repeats_pass (st : Router) (hist : list string) (fuel : nat) :
  tableInv st hist → quietScript script st → matchable (location st) st →
  length (sortedRoutes st) < fuel →
  hasChar "*" (location st) = false → JS.trim (location st) = location st →
  ∃ st1, dispatchLoop script fuel 0 st = Ok st1
    ∧ (∀ k r1, routes st1 !! k = Some r1 → settledOn (location st) r1)
    ∧ (ignoreHashchangeEvent st1 = 0%Z →
       ∃ st2, refresh script fuel ("#" +:+ location st) st1 = Ok st2
         ∧ sortedRoutes st2 = sortedRoutes st
         ∧ (∃ t, trace st2 = trace st1 ++ t
               ∧ dispatchCalls t = (fun k => (k, location st)) <$> sortedRoutes st)
         ∧ ∀ k r2, routes st2 !! k = Some r2 → repeatedOn (location st) r2).
Proof.
  intros Hinv Hquiet Hm Hfuel Hstar Htrim.
  set (loc := location st) in *.
  destruct (dispatchLoop_quiet script hist fuel 0 st Hinv Hquiet Hm)
    as (st1 & Hrun & Hinv1 & Hord1 & Hloc1 & _ & Hroutes1); [lia|].
  destruct (dispatchLoop_post script loc (fun _ => True) (settledOn loc)
              (fun _ _ _ _ => I) (settledOn_sameCore loc)) with (hist := hist)
    (fuel := fuel) (i := 0) (st := st) as (st1' & Hrun' & _ & Hset); try done.
  { intros this r' m _ Hmatch Hre Hpa Hact Hsa _. split; [done|].
    intros m'. rewrite Hre, Hmatch. intros [= <-]. split; [done|].
    rewrite Hsa. destruct m as [ms|]; [|done]. simpl.
    by rewrite (argsString_params this r' ms Hpa). }
  { lia. }
  { intros k r Hk. by apply elem_of_nil in Hk. }
  assert (st1' = st1) as -> by congruence.
  assert (Hsettled : ∀ k r1, routes st1 !! k = Some r1 → settledOn loc r1).
  { intros k r1 Hk. apply (Hset k); [|done].
    apply (tableInv_slots _ _ _ Hinv). apply (tableInv_keys _ _ _ Hinv).
    apply (tableInv_keys _ _ _ Hinv1). eauto. }
  exists st1. split; [done|]. split; [done|]. intros Hzero.
  set (st1c := setLocation loc (JS.split "/" loc) st1).
  assert (Hrefresh : refresh script fuel ("#" +:+ loc) st1
                     = dispatchLoop script fuel 0 st1c).
  { unfold refresh, onLocationChanged.
    change (JS.substr_from ("#" +:+ loc) 1) with (JS.substr_from loc 0).
    rewrite substr_from_0, (realLocation_star_free _ loc None Hstar).
    cbn [mbind result_bind]. rewrite Htrim, String.eqb_refl. cbn [negb].
    change (ignoreHashchangeEvent (setLocation loc (JS.split "/" loc) st1))
      with (ignoreHashchangeEvent st1). by rewrite Hzero. }
  assert (Hinvc : tableInv st1c hist) by (by apply tableInv_setLocation).
  assert (Hquietc : quietScript script st1c).
  { eapply (quietScript_keepsKeys script st); [|exact Hquiet].
    intros k [r Hk]. destruct (Hroutes1 k r Hk) as (r' & Hr' & _). simpl. eauto. }
  assert (Hmc : matchable loc st1c).
  { intros k Hk. simpl in Hk. rewrite Hord1 in Hk.
    destruct (Hm k Hk) as (r & m & Hr & Hmatch).
    destruct (Hroutes1 k r Hr) as (r' & Hr' & Hre & _).
    exists r', m. simpl. by rewrite Hre. }
  destruct (dispatchLoop_quiet script hist fuel 0 st1c Hinvc Hquietc Hmc)
    as (st2 & Hrun2 & Hinv2 & Hord2 & _ & Htrace2 & _); [simpl; rewrite Hord1; lia|].
  destruct (dispatchLoop_post script loc (settledOn loc) (repeatedOn loc)
              (settledOn_sameCore loc) (repeatedOn_sameCore loc)) with (hist := hist)
    (fuel := fuel) (i := 0) (st := st1c) as (st2' & Hrun2' & _ & Hrep); try done.
  { intros this r' m Hpre Hmatch Hre Hpa Hact Hsa Hch.
    destruct (Hpre m Hmatch) as [_ Hsa0]. split.
    - intros m'. rewrite Hre, Hmatch. intros [= <-]. split; [done|].
      rewrite Hsa. destruct m as [ms|]; [|done]. simpl.
      by rewrite (argsString_params this r' ms Hpa).
    - intros ms. rewrite Hre, Hmatch. intros [= ->]. split; [done|].
      rewrite Hch, Hsa0. simpl. by rewrite String.eqb_refl. }
  { simpl. rewrite Hord1. lia. }
  { intros k r Hk. by apply elem_of_nil in Hk. }
  assert (st2' = st2) as -> by congruence.
  exists st2. split; [by rewrite Hrefresh|]. split; [by rewrite Hord2; simpl|].
  split.
  - destruct Htrace2 as (t & Ht & Hc). exists t. split; [done|].
    rewrite Hc. simpl. by rewrite Hord1.
  - intros k r2 Hk. apply (Hrep k); [|done]. simpl. rewrite Hord1.
    apply (tableInv_slots _ _ _ Hinv). apply (tableInv_keys _ _ _ Hinv).
    apply (tableInv_keys _ _ _ Hinv2). eauto.
Qed.

End refresh.

Lemma refresh_repeats_pass_witness :
  (tableInv exampleTable ["/"; "/a"; "/a/:id"]
   ∧ quietScript noScript exampleTable
   ∧ matchable (location exampleTable) exampleTable
   ∧ length (sortedRoutes exampleTable) < 4
   ∧ hasChar "*" (location exampleTable) = false
   ∧ JS.trim (location exampleTable) = location exampleTable)
  ∧ ∃ st1, dispatchLoop noScript 4 0 exampleTable = Ok st1
      ∧ (changed <$> routes st1 !! "/a/:id") = Some true
      ∧ ∃ st2, refresh noScript 4 "#/a/5" st1 = Ok st2
          ∧ (changed <$> routes st2 !! "/a/:id") = Some false
          ∧ ∀ k r2, routes st2 !! k = Some r2 → repeatedOn "/a/5" r2.
Proof.
  assert (H : tableInv exampleTable ["/"; "/a"; "/a/:id"])
    by exact (tableInv_setLocation _ _ _ _ (tableInv_builtBy exampleCalls)).
  assert (Hq : quietScript noScript exampleTable) by apply quietScript_noScript.
  assert (Hm : matchable (location exampleTable) exampleTable).
  { intros k Hk. change (sortedRoutes exampleTable) with ["/"; "/a"; "/a/:id"] in Hk.
    repeat (apply elem_of_cons in Hk as [->|Hk]);
      [eexists _, _; split; vm_compute; reflexivity..|by apply elem_of_nil in Hk]. }
  assert (Hl : length (sortedRoutes exampleTable) < 4) by (vm_compute; lia).
  split;
    [split; [exact H|split; [exact Hq|split; [exact Hm|split; [exact Hl|split; reflexivity]]]]|].
  destruct (refresh_repeats_pass noScript exampleTable _ 4 H Hq Hm Hl eq_refl eq_refl)
    as (st1 & Hrun & _ & Href).
  exists st1. split; [exact Hrun|].
  assert (Hst1 : Ok st1 = dispatchLoop noScript 4 0 exampleTable) by done.
  vm_compute in Hst1. injection Hst1 as ->.
  split; [vm_compute; reflexivity|].
  destruct (Href eq_refl) as (st2 & Hrun2 & _ & _ & Hrep).
  exists st2. split; [exact Hrun2|]. split; [|exact Hrep].
  assert (Hst2 : Ok st2 = refresh noScript 4 "#/a/5" _) by (symmetry; exact Hrun2).
  vm_compute in Hst2. injection Hst2 as ->. vm_compute. reflexivity.
Defined.

(* ===================================================================== *)
(** * A wildcard at the end of the template *)
(* ===================================================================== *)

Lemma rl_loop_exit c p fuel v :
  rl_continue c p v = false → rl_loop (S fuel) c p v = Ok v.
Proof. intros H. cbn [rl_loop]. by rewrite H. Qed.

Lemma rl_continue_end c p state j r :
  rl_continue c p (RlVars state (String.length c) j r) = false.
Proof.
  unfold rl_continue. cbn [rl_state rl_i rl_j].
  by rewrite Nat.ltb_irrefl, andb_false_r.
Qed.

(** X17. A wildcard that ends the template stands for nothing: when the context
    goes on after the part that the template shares with it, the single and
    the double wildcard at the end of the template are dropped, and the
    rest of the context is not taken over. *)
Theorem trailing_wildcard_is_dropped (loc pre Y : string) :
  hasChar "*" pre = false → Y ≠ "" →
  realLocation loc (pre +:+ "*") (Some (pre +:+ Y)) = Ok (JS.trim pre)
  ∧ realLocation loc (pre +:+ "**") (Some (pre +:+ Y)) = Ok (JS.trim pre).
Proof.
  intros Hpre HY. set (p := pre +:+ Y).
  assert (Hp : p ≠ "") by (by intros [_ H]%append_eq_nil).
  assert (Hlp : String.length pre < String.length p).
  { unfold p. rewrite length_append. destruct Y; [done|]. simpl. lia. }
  split.
  - set (c := pre +:+ "*").
    assert (Hlc : String.length c = S (String.length pre))
      by (unfold c; rewrite length_append; simpl; lia).
    assert (Hc0 : JS.substr c (String.length pre) 1 = star) by apply substr_append_1.
    assert (Hloop : rl_loop (String.length pre + 2) c p (RlVars 0 0 0 "")
                    = Ok (RlVars 1 (String.length c) (String.length pre) pre)).
    { change (RlVars 0 0 0 "") with (RlVars 0 (String.length "") (String.length "") "").
      rewrite (rl_copy_common c p pre "" "" _ "*" Y); [|done|done|done].
      rewrite !append_nil_l.
      rewrite rl_loop_step by (apply rl_continue_true; [done|lia|lia]).
      unfold rl_step. rewrite Hc0, String.eqb_refl, <- Hlc.
      apply rl_loop_exit, rl_continue_end. }
    rewrite (realLocation_from_loop loc c p _ _ Hp Hloop) by (unfold rl_fuel; lia).
    unfold rl_finish. cbn [rl_state rl_i rl_rLocation Z.eqb negb].
    by rewrite substr_from_length, append_nil_r.
  - set (c := pre +:+ "**").
    assert (Hlc : String.length c = S (S (String.length pre)))
      by (unfold c; rewrite length_append; simpl; lia).
    assert (Hc0 : JS.substr c (String.length pre) 1 = star) by apply substr_append_1.
    assert (Hc1 : JS.substr c (S (String.length pre)) 1 = star).
    { assert (E : S (String.length pre) = String.length (pre +:+ "*"))
        by (rewrite length_append; simpl; lia).
      assert (Ec : c = (pre +:+ "*") +:+ "*") by (unfold c; by rewrite append_assoc).
      rewrite E, Ec. apply substr_append_1. }
    assert (Hloop : rl_loop (String.length pre + 3) c p (RlVars 0 0 0 "")
                    = Ok (RlVars 3 (String.length c) (String.length pre) pre)).
    { change (RlVars 0 0 0 "") with (RlVars 0 (String.length "") (String.length "") "").
      rewrite (rl_copy_common c p pre "" "" _ "**" Y); [|done|done|done].
      rewrite !append_nil_l.
      rewrite rl_loop_step by (apply rl_continue_true; [done|lia|lia]).
      unfold rl_step at 1. rewrite Hc0, String.eqb_refl.
      rewrite rl_loop_step by (apply rl_continue_true; [done|lia|lia]).
      unfold rl_step. rewrite Hc1, String.eqb_refl, <- Hlc.
      apply rl_loop_exit, rl_continue_end. }
    rewrite (realLocation_from_loop loc c p _ _ Hp Hloop) by (unfold rl_fuel; lia).
    unfold rl_finish. cbn [rl_state rl_i rl_rLocation Z.eqb negb].
    by rewrite substr_from_length, append_nil_r.
Qed.

Lemma trailing_wildcard_is_dropped_witness :
  (hasChar "*" "a/" = false ∧ "b/c" ≠ "")
  ∧ realLocation "" "a/*" (Some "a/b/c") = Ok "a/"
  ∧ realLocation "" "a/**" (Some "a/b/c") = Ok "a/".
Proof.
  assert (H : "b/c" ≠ "") by discriminate.
  split; [by split|].
  exact (trailing_wildcard_is_dropped "" "a/" "b/c" eq_refl H).
Defined.

(* ===================================================================== *)
(** * What a notification does *)
(* ===================================================================== *)

Section notification.

Variable script : handler → string → eventArgs → list action.

Lemma dispatchLoop_frame fuel : ∀ i st st',
  dispatchLoop script fuel i st = Ok st' →
  location st' = location st ∧ args st' = args st
  ∧ (ignoreHashchangeEvent st ≤ ignoreHashchangeEvent st')%Z.
Proof.
  induction fuel as [|fuel IH]; intros i st st' H; [done|].
  cbn [dispatchLoop] in H. destruct (i <? length (sortedRoutes st)).
  - destruct (sortedRoutes st !! i) as [key|]; [|done].
    bind_inv H. destruct st0 as [b st1]. cbn beta iota in H.
    pose proof (dispatch_step script _ _ _ _ _ E) as (Hl & Ha & Hi & _).
    destruct (IH (S i) st1 st' H) as (Hl' & Ha' & Hi').
    split; [congruence|]. split; [congruence|lia].
  - injection H as <-. split; [done|]. split; [done|lia].
Qed.

(** X18. A notification that returns has done one of two things, in any state
    of the router and whatever calls of [action] the handlers make. Either
    the hash did not
    reconcile with itself: then the browser was told to replace the
    location, and nothing else happened. Or the text after the hash sign
    was committed: it is the location, and its parts are the location
    parts, also after the handlers of the dispatch pass have run; and the
    counter of silenced notifications went down by one at most. *)
Theorem notification_outcome (fuel : nat) (hash : string) (st st' : Router) :
  onLocationChanged script fuel hash st = Ok st' →
  ∃ r, realLocation (location st) (JS.substr_from hash 1) None = Ok r
    ∧ ((r ≠ JS.substr_from hash 1
        ∧ st' = emit (LocationReplaced ("#" +:+ r)) st)
       ∨ (r = JS.substr_from hash 1
          ∧ location st' = JS.substr_from hash 1
          ∧ args st' = JS.split "/" (JS.substr_from hash 1)
          ∧ (ignoreHashchangeEvent st - 1 ≤ ignoreHashchangeEvent st')%Z
          ∧ (0 < ignoreHashchangeEvent st → trace st' = trace st)%Z)).
Proof.
  unfold onLocationChanged. cbn zeta. set (c := JS.substr_from hash 1).
  intros H. bind_inv H. exists st0. split; [done|].
  destruct (String.eqb c st0) eqn:Heq; cbn [negb] in H.
  - right. apply String.eqb_eq in Heq. subst st0. split; [done|].
    change (ignoreHashchangeEvent (setLocation c (JS.split "/" c) st))
      with (ignoreHashchangeEvent st) in H.
    destruct (0 <? ignoreHashchangeEvent st)%Z eqn:Hpos.
    + injection H as <-. simpl. split; [done|]. split; [done|]. split; [lia|done].
    + apply Z.ltb_ge in Hpos.
      destruct (dispatchLoop_frame _ _ _ _ H) as (Hl & Ha & Hi). simpl in Hl, Ha, Hi.
      split; [done|]. split; [done|]. split; lia.
  - left. injection H as <-. split; [|done].
    intros ->. by rewrite String.eqb_refl in Heq.
Qed.

End notification.

Lemma notification_outcome_witness :
  onLocationChanged growScript 3 "#/ab" growTable
  = Ok (afterEvents growScript growEvents)
  ∧ location (afterEvents growScript growEvents) = "/ab"
  ∧ args (afterEvents growScript growEvents) = [""; "ab"]
  ∧ ∃ r, realLocation (location growTable) (JS.substr_from "#/ab" 1) None = Ok r
      ∧ ((r ≠ JS.substr_from "#/ab" 1
          ∧ afterEvents growScript growEvents = emit (LocationReplaced ("#" +:+ r)) growTable)
         ∨ (r = JS.substr_from "#/ab" 1
            ∧ location (afterEvents growScript growEvents) = JS.substr_from "#/ab" 1
            ∧ args (afterEvents growScript growEvents)
              = JS.split "/" (JS.substr_from "#/ab" 1)
            ∧ (ignoreHashchangeEvent growTable - 1
               ≤ ignoreHashchangeEvent (afterEvents growScript growEvents))%Z
            ∧ (0 < ignoreHashchangeEvent growTable →
               trace (afterEvents growScript growEvents) = trace growTable)%Z)).
Proof.
  assert (H : onLocationChanged growScript 3 "#/ab" growTable
              = Ok (afterEvents growScript growEvents)) by (vm_compute; reflexivity).
  split; [exact H|]. split; [vm_compute; reflexivity|]. split; [vm_compute; reflexivity|].
  exact (notification_outcome growScript 3 "#/ab" growTable _ H).
Defined.

(* ===================================================================== *)
(** * From registration to the call *)
(* ===================================================================== *)

Lemma channel_routed : channel false = "routed".
Proof. reflexivity. Qed.

Lemma channel_unrouted : channel true = "unrouted".
Proof. reflexivity. Qed.

Lemma addHandler_listed h r : h ∈ default [] (listeners (addHandler h false r) !! "routed").
Proof.
  unfold addHandler, addEventListener. rewrite channel_routed. simpl.
  rewrite lookup_insert_eq. simpl. apply elem_of_app. right. by apply list_elem_of_singleton.
Qed.

Lemma addHandler_unrouted_listed h u r :
  h ∈ default [] (listeners r !! "routed") →
  h ∈ default [] (listeners (addHandler u true r) !! "routed")
  ∧ u ∈ default [] (listeners (addHandler u true r) !! "unrouted").
Proof.
  intros Hh. unfold addHandler, addEventListener. rewrite channel_unrouted. simpl. split.
  - by rewrite lookup_insert_ne.
  - rewrite lookup_insert_eq. simpl. apply elem_of_app. right.
    by apply list_elem_of_singleton.
Qed.

(** X19. [addRoute] on a table at rest, with a route that is no member
    inherited from [Object.prototype], returns, and registers the first
    handler on the routed channel of the route and the second, when given,
    on the unrouted channel. Every
    dispatch that then finds a match calls the first handler with the
    arguments record of the match. *)
Theorem addRoute_then_dispatch_calls_handler
    (script : handler → string → eventArgs → list action)
    (route : string) (h : handler) (u : option handler)
    (st : Router) (hist : list string) :
  tableInv st hist → inheritedKey route = false →
  ∃ st1 r1, addRoute route h u st = Ok st1
    ∧ routes st1 !! route = Some r1
    ∧ h ∈ default [] (listeners r1 !! "routed")
    ∧ (∀ u', u = Some u' → u' ∈ default [] (listeners r1 !! "unrouted"))
    ∧ ∀ loc ms, jsMatch loc (routeRegex r1) = Ok (Some ms) →
        ∃ st2, dispatch script route loc st1 = Ok (true, st2)
          ∧ ∃ t, trace st2 = trace st1 ++ t
              ∧ Invoked h "routed" (argsRecord route r1 ms) ∈ t.
Proof.
  intros Hinv Hown.
  destruct (addRoute_inv route h u st hist Hown Hinv) as (st1 & Hadd & Hinv1).
  assert (Hr1 : ∃ r1, routes st1 !! route = Some r1
                  ∧ h ∈ default [] (listeners r1 !! "routed")
                  ∧ (∀ u', u = Some u' → u' ∈ default [] (listeners r1 !! "unrouted"))).
  { pose proof Hadd as H. unfold addRoute in H. bind_inv H.
    destruct u as [u'|].
    - bind_inv H. unfold onRoute in E0, H.
      destruct (routes st0 !! route) as [r0|]; [|done]. injection E0 as <-.
      simpl in H. rewrite lookup_insert_eq in H. injection H as <-. simpl.
      rewrite lookup_insert_eq. eexists. split; [done|].
      destruct (addHandler_unrouted_listed h u' (addHandler h false r0)
                  (addHandler_listed h r0)) as [H1 H2].
      split; [exact H1|]. by intros ? [= <-].
    - unfold onRoute in H. destruct (routes st0 !! route) as [r0|]; [|done].
      injection H as <-. simpl. rewrite lookup_insert_eq. eexists. split; [done|].
      split; [apply addHandler_listed|done]. }
  destruct Hr1 as (r1 & Hr1 & Hh & Hu).
  exists st1, r1. split; [done|]. split; [done|]. split; [done|]. split; [done|].
  intros loc ms Hm.
  destruct (dispatch_inv script route loc st1 _ r1 (Some ms) Hinv1 Hr1 Hm)
    as (st2 & _ & _ & Hd & _).
  exists st2. split; [done|].
  pose proof Hd as Hd'. unfold dispatch in Hd'. cbn zeta in Hd'.
  change (routes (emit (Dispatched route loc) st1) !! route)
    with (routes st1 !! route) in Hd'.
  rewrite Hr1, Hm in Hd'. cbn [mbind result_bind] in Hd'. unfold argsRecord.
  destruct (argsLoop (params r1) 0 ms {[ "route" := VRoute route ]} "") as [a str].
  bind_inv Hd'. injection Hd' as <-. unfold dispatchEvent in E.
  rewrite (assign_lookup route _ (emit (Dispatched route loc) st1) r1 Hr1) in E.
  destruct (callListeners_invocations _ _ _ _ _ _ E) as (t & Ht & Hi & _).
  exists (Dispatched route loc :: t). split.
  - simpl. rewrite Ht. simpl. by rewrite <- app_assoc.
  - apply elem_of_cons. right.
    assert (Hin : (h, "routed", a) ∈ invocations t).
    { rewrite Hi. apply list_elem_of_fmap. exists h. split; [done|]. exact Hh. }
    unfold invocations in Hin. apply list_elem_of_omap in Hin as (e & He & Heq).
    destruct e; try done. by injection Heq as -> -> ->.
Qed.

Lemma addRoute_then_dispatch_calls_handler_witness :
  (tableInv exampleTable ["/"; "/a"; "/a/:id"] ∧ inheritedKey "/b/:x" = false)
  ∧ ∃ st1 r1, addRoute "/b/:x" 7 (Some 8) exampleTable = Ok st1
      ∧ routes st1 !! "/b/:x" = Some r1
      ∧ listeners r1 = {[ "routed" := [7]; "unrouted" := [8] ]}
      ∧ 7 ∈ default [] (listeners r1 !! "routed")
      ∧ ∃ st2, dispatch noScript "/b/:x" "/b/1" st1 = Ok (true, st2)
          ∧ ∃ t, trace st2 = trace st1 ++ t
              ∧ Invoked 7 "routed" (argsRecord "/b/:x" r1 ["/b/1"; "1"]) ∈ t.
Proof.
  assert (H : tableInv exampleTable ["/"; "/a"; "/a/:id"])
    by exact (tableInv_setLocation _ _ _ _ (tableInv_builtBy exampleCalls)).
  split; [split; [exact H|reflexivity]|].
  destruct (addRoute_then_dispatch_calls_handler noScript "/b/:x" 7 (Some 8)
              exampleTable _ H eq_refl) as (st1 & r1 & Hadd & Hr1 & Hh & _ & Hcall).
  exists st1, r1. split; [exact Hadd|]. split; [exact Hr1|].
  assert (Hst1 : Ok st1 = addRoute "/b/:x" 7 (Some 8) exampleTable) by done.
  vm_compute in Hst1. injection Hst1 as ->.
  assert (Hr : Some r1 = Some (MkRoute "^/b/([^/]+)" "/b/:x" ["x"] None false false
                                 {[ "routed" := [7]; "unrouted" := [8] ]})).
  { rewrite <- Hr1. vm_compute. reflexivity. }
  injection Hr as ->.
  split; [vm_compute; reflexivity|]. split; [exact Hh|].
  apply Hcall. vm_compute. reflexivity.
Defined.

(* ===================================================================== *)
(** * From removal to silence *)
(* ===================================================================== *)

Section removal.

Variable script : handler → string → eventArgs → list action.

Lemma dispatch_match_trace key loc st hist this ms :
  tableInv st hist → routes st !! key = Some this →
  jsMatch loc (routeRegex this) = Ok (Some ms) →
  ∃ st' t, dispatch script key loc st = Ok (true, st')
    ∧ trace st' = trace st ++ Dispatched key loc :: t
    ∧ invocations t
      = (fun h => (h, "routed", argsRecord key this ms))
          <$> default [] (listeners this !! "routed").
Proof.
  intros Hinv Hthis Hm.
  destruct (dispatch_inv script key loc st hist this (Some ms) Hinv Hthis Hm)
    as (st' & _ & _ & Hd & _).
  exists st'. pose proof Hd as Hd'. unfold dispatch in Hd'. cbn zeta in Hd'.
  change (routes (emit (Dispatched key loc) st) !! key) with (routes st !! key) in Hd'.
  rewrite Hthis, Hm in Hd'. cbn [mbind result_bind] in Hd'. unfold argsRecord.
  destruct (argsLoop (params this) 0 ms {[ "route" := VRoute key ]} "") as [a str].
  bind_inv Hd'. injection Hd' as <-. unfold dispatchEvent in E.
  rewrite (assign_lookup key _ (emit (Dispatched key loc) st) this Hthis) in E.
  destruct (callListeners_invocations _ _ _ _ _ _ E) as (t & Ht & Hi & _).
  exists t. split; [done|]. split; [|exact Hi].
  simpl. rewrite Ht. simpl. by rewrite <- app_assoc.
Qed.

Lemma removeHandler_unlisted h r :
  h ∉ default [] (listeners (removeHandler h false r) !! "routed").
Proof.
  unfold removeHandler, removeEventListener. rewrite channel_routed. simpl.
  rewrite lookup_insert_eq. simpl. intros [H _]%list_elem_of_filter. done.
Qed.

Lemma removeHandler_unrouted_unlisted h u r :
  h ∉ default [] (listeners r !! "routed") →
  (h ∉ default [] (listeners (removeHandler u true r) !! "routed"))
  ∧ (u ∉ default [] (listeners (removeHandler u true r) !! "unrouted")).
Proof.
  intros Hh. unfold removeHandler, removeEventListener. rewrite channel_unrouted. simpl.
  split.
  - by rewrite lookup_insert_ne.
  - rewrite lookup_insert_eq. simpl. intros [H _]%list_elem_of_filter. done.
Qed.

(** X20. [removeRoute] on a table at rest returns and keeps the route and its
    slot; the first handler is gone from the routed channel of the route,
    and the second, when given, from the unrouted channel (without a second
    handler the unrouted channel is left as it is). No dispatch that finds
    a match calls the removed handler again. *)
Theorem removeRoute_stops_calls (route : string) (h : handler) (u : option handler)
    (st : Router) (hist : list string) (r : Route) :
  tableInv st hist → routes st !! route = Some r →
  ∃ st1 r1, removeRoute route h u st = Ok st1
    ∧ sortedRoutes st1 = sortedRoutes st
    ∧ routes st1 !! route = Some r1
    ∧ (h ∉ default [] (listeners r1 !! "routed"))
    ∧ (∀ u', u = Some u' → u' ∉ default [] (listeners r1 !! "unrouted"))
    ∧ (u = None → listeners r1 !! "unrouted" = listeners r !! "unrouted")
    ∧ ∀ loc ms, jsMatch loc (routeRegex r1) = Ok (Some ms) →
        ∃ st2 t, dispatch script route loc st1 = Ok (true, st2)
          ∧ trace st2 = trace st1 ++ Dispatched route loc :: t
          ∧ ∀ a, (h, "routed", a) ∉ invocations t.
Proof.
  intros Hinv Hr.
  assert (Hown : inheritedKey route = false ∨ is_Some (routes st !! route))
    by (right; by exists r).
  destruct (removeRoute_pending route h u st hist [] Hown Hinv) as (st1 & Hrem & Hinv1).
  destruct (removeRoute_keeps route h u st Hown) as (st1' & Hrem' & Hord & _).
  assert (st1' = st1) as -> by congruence.
  assert (Hr1 : ∃ r1, routes st1 !! route = Some r1
                  ∧ (h ∉ default [] (listeners r1 !! "routed"))
                  ∧ (∀ u', u = Some u' → u' ∉ default [] (listeners r1 !! "unrouted"))
                  ∧ (u = None → listeners r1 !! "unrouted" = listeners r !! "unrouted")).
  { pose proof Hrem as H. unfold removeRoute in H.
    rewrite (hasRoute_Some _ _ _ Hr) in H.
    destruct u as [u'|].
    - bind_inv H. unfold onRoute in E, H. rewrite Hr in E. injection E as <-.
      simpl in H. rewrite lookup_insert_eq in H. injection H as <-. simpl.
      rewrite lookup_insert_eq. eexists. split; [done|].
      destruct (removeHandler_unrouted_unlisted h u' (removeHandler h false r)
                  (removeHandler_unlisted h r)) as [H1 H2].
      split; [exact H1|]. split; [by intros ? [= <-]|done].
    - unfold onRoute in H. rewrite Hr in H. injection H as <-. simpl.
      rewrite lookup_insert_eq. eexists. split; [done|].
      split; [apply removeHandler_unlisted|]. split; [done|]. intros _.
      unfold removeHandler, removeEventListener. rewrite channel_routed. simpl.
      by rewrite lookup_insert_ne. }
  destruct Hr1 as (r1 & Hr1 & Hh & Hu & Hkeep).
  exists st1, r1. split; [done|]. split; [done|]. split; [done|]. split; [done|].
  split; [done|]. split; [done|].
  intros loc ms Hm.
  destruct (dispatch_match_trace route loc st1 hist r1 ms Hinv1 Hr1 Hm)
    as (st2 & t & Hd & Ht & Hi).
  exists st2, t. split; [done|]. split; [done|].
  intros a Hin. rewrite Hi in Hin.
  apply list_elem_of_fmap in Hin as (h' & [= <- _] & Hh'). done.
Qed.

End removal.

Lemma removeRoute_stops_calls_witness :
  ∃ r,
    (tableInv exampleTable ["/"; "/a"; "/a/:id"]
     ∧ routes exampleTable !! "/a/:id" = Some r)
    ∧ ∃ st1 r1, removeRoute "/a/:id" 3 None exampleTable = Ok st1
        ∧ sortedRoutes st1 = ["/"; "/a"; "/a/:id"]
        ∧ routes st1 !! "/a/:id" = Some r1
        ∧ (3 ∉ default [] (listeners r1 !! "routed"))
        ∧ ∃ st2 t, dispatch noScript "/a/:id" "/a/5" st1 = Ok (true, st2)
            ∧ trace st2 = trace st1 ++ Dispatched "/a/:id" "/a/5" :: t
            ∧ ∀ a, (3, "routed", a) ∉ invocations t.
Proof.
  eexists.
  assert (H : tableInv exampleTable ["/"; "/a"; "/a/:id"])
    by exact (tableInv_setLocation _ _ _ _ (tableInv_builtBy exampleCalls)).
  assert (H1 : routes exampleTable !! "/a/:id"
               = Some (MkRoute "^/a/([^/]+)" "/a/:id" ["id"] None false false
                         {[ "routed" := [3] ]}))
    by (vm_compute; reflexivity).
  split; [split; [exact H|exact H1]|].
  destruct (removeRoute_stops_calls noScript "/a/:id" 3 None exampleTable _ _ H H1)
    as (st1 & r1 & Hrem & Hord & Hr1 & Hh & _ & _ & Hcall).
  exists st1, r1. split; [exact Hrem|]. split; [exact Hord|]. split; [exact Hr1|].
  split; [exact Hh|].
  apply (Hcall "/a/5" ["/a/5"; "5"]). clear -Hrem Hr1.
  assert (Hst1 : Ok st1 = removeRoute "/a/:id" 3 None exampleTable) by done.
  vm_compute in Hst1. injection Hst1 as ->.
  assert (Hr : Some r1 = Some (MkRoute "^/a/([^/]+)" "/a/:id" ["id"] None false false
                                 {[ "routed" := [] ]})).
  { rewrite <- Hr1. vm_compute. reflexivity. }
  injection Hr as ->. vm_compute. reflexivity.
Defined.
